(** * Slug normalisation and game-log scraping: a shallow embedding

    The development follows [scripts/basketball/create_slugs.py],
    [scripts/basketball/get_all_teams.py] and the table lookup of
    [scripts/basketball/scraper.py].

    Python strings are sequences of Unicode code points: a string is a
    [list N].  The regular expressions of the scripts are kept as data
    (a list of quantified character sets) and run by a greedy, backtracking
    matcher, so that each pattern below can be read against the pattern in
    the source. *)

From Stdlib Require Import Ascii String.
From Stdlib Require Import List NArith ZArith Arith Bool Lia.
From Stdlib Require Import Sorted Permutation.
Import ListNotations.

Local Open Scope N_scope.

(** ** Strings *)

Definition pystr := list N.

(** An ASCII literal of the source as a list of code points. *)
Definition py (s : string) : pystr :=
  map N_of_ascii (list_ascii_of_string s).

Definition is_ascii (c : N) : Prop := c < 128.

(** The ASCII rows of the Unicode tables used by [str.lower], [\s] and [\w]. *)
Definition ascii_isspace (c : N) : bool :=
  ((9 <=? c) && (c <=? 13)) || ((28 <=? c) && (c <=? 32)).

Definition ascii_isalnum (c : N) : bool :=
  ((48 <=? c) && (c <=? 57)) || ((65 <=? c) && (c <=? 90))
  || ((97 <=? c) && (c <=? 122)).

Definition ascii_lower (c : N) : N :=
  if (65 <=? c) && (c <=? 90) then c + 32 else c.

(** The interpreter's Unicode database is not part of the repository: it is a
    parameter.  Of its contents only the ASCII rows are fixed here, together
    with the fact that white space has no case. *)
Class UnicodeData := {
  uni_isspace : N -> bool;
  uni_isalnum : N -> bool;
  uni_lower : pystr -> pystr;
  uni_isspace_ascii : forall c, is_ascii c -> uni_isspace c = ascii_isspace c;
  uni_isalnum_ascii : forall c, is_ascii c -> uni_isalnum c = ascii_isalnum c;
  uni_lower_ascii :
    forall s, Forall is_ascii s -> uni_lower s = map ascii_lower s;
  uni_lower_space :
    forall s, Forall (fun c => uni_isspace c = true) s -> uni_lower s = s
}.

(** The characters of [[A-Z]] and of [[a-z0-9-]]. *)
Definition is_upper (c : N) : bool := (65 <=? c) && (c <=? 90).

Definition slug_char (c : N) : bool :=
  ((97 <=? c) && (c <=? 122)) || ((48 <=? c) && (c <=? 57)) || (c =? 45).

(** ** Regular expressions of the scripts *)

Inductive atom :=
| AChar (c : N)          (* a literal character *)
| ARange (lo hi : N)     (* lo-hi inside a bracket *)
| ASpace                 (* \s *)
| AWord.                 (* \w *)

(** [CSet false l] is the set [[l]], [CSet true l] is [[^l]]. *)
Record cset := CSet { cs_neg : bool; cs_atoms : list atom }.

(** A character set with a greedy quantifier {min,max}; [None] is unbounded. *)
Record item := Item { it_set : cset; it_min : nat; it_max : option nat }.

Definition regex := list item.

Definition one (cs : cset) : item := Item cs 1 (Some 1%nat).
Definition star (cs : cset) : item := Item cs 0 None.
Definition plus (cs : cset) : item := Item cs 1 None.
Definition times (n : nat) (cs : cset) : item := Item cs n (Some n).
Definition lit (c : N) : cset := CSet false [AChar c].

Definition LPAREN : N := 40.
Definition RPAREN : N := 41.
Definition HYPHEN : N := 45.
Definition BACKSLASH : N := 92.
Definition UNDERSCORE : N := 95.

Definition cs_space : cset := CSet false [ASpace].
Definition cs_upper : cset := CSet false [ARange 65 90].
Definition cs_not_rparen : cset := CSet true [AChar RPAREN].
Definition cs_hyphen : cset := lit HYPHEN.
Definition cs_not_slug : cset :=
  CSet true [ARange 97 122; ARange 48 57; AChar HYPHEN].
Definition cs_not_word_space_hyphen : cset :=
  CSet true [AWord; ASpace; AChar HYPHEN].

(** r'\(([A-Z]{2})\)' ; group 1 is the two letters after the first character. *)
Definition re_state_code : regex :=
  [one (lit LPAREN); times 2 cs_upper; one (lit RPAREN)].
(** r'\s*\([A-Z]{2}\)' *)
Definition re_ws_state_code : regex :=
  [star cs_space; one (lit LPAREN); times 2 cs_upper; one (lit RPAREN)].
(** r'\s*\([^)]*\)' *)
Definition re_ws_paren : regex :=
  [star cs_space; one (lit LPAREN); star cs_not_rparen; one (lit RPAREN)].
(** r'\s+' and r'[\s]+' *)
Definition re_spaces : regex := [plus cs_space].
(** r'[^a-z0-9-]' *)
Definition re_not_slug : regex := [one cs_not_slug].
(** r'-+' *)
Definition re_hyphens : regex := [plus cs_hyphen].
(** r'[^\w\s-]' *)
Definition re_not_word_space_hyphen : regex := [one cs_not_word_space_hyphen].

(** ** Scanning, shared by [re.sub] and [str.replace]

    [scan m repl skip s] copies [s] from left to right; at every position not
    inside a previous match it asks [m] for the length of a match starting
    there and, on a match, writes [repl] and skips the matched characters.
    An empty match writes [repl] and copies the character, as Python does
    since 3.7. *)
Fixpoint scan (m : pystr -> option nat) (repl : pystr) (skip : nat)
    (s : pystr) : pystr :=
  match skip, s with
  | S k, _ :: t => scan m repl k t
  | S _, [] => []
  | O, [] => match m [] with Some _ => repl | None => [] end
  | O, c :: t =>
      match m s with
      | Some (S n) => repl ++ scan m repl n t
      | Some O => repl ++ c :: scan m repl 0 t
      | None => c :: scan m repl 0 t
      end
  end.

Fixpoint starts_with (p s : pystr) : bool :=
  match p, s with
  | [], _ => true
  | _ :: _, [] => false
  | a :: p', b :: s' => (a =? b) && starts_with p' s'
  end.

(** A matcher whose matches stay inside the string. *)
Definition bounded (m : pystr -> option nat) : Prop :=
  forall s n, m s = Some n -> (n <= length s)%nat.

(** [str.replace(old, new)] *)
Definition replace (old new s : pystr) : pystr :=
  scan (fun t => if starts_with old t then Some (length old) else None)
       new 0 s.

Fixpoint lstrip (chars s : pystr) : pystr :=
  match s with
  | c :: t => if existsb (N.eqb c) chars then lstrip chars t else s
  | [] => []
  end.

Definition rstrip (chars s : pystr) : pystr := rev (lstrip chars (rev s)).

(** [str.strip(chars)] *)
Definition strip (chars s : pystr) : pystr := rstrip chars (lstrip chars s).

(** A replacement string of [re.sub] is a template.  Without a backslash it
    stands for itself; with one, escapes and group references are processed
    and the call may raise [re.error].  That second case is outside the model
    and is reported as [None]. *)
Definition expand_template (repl : pystr) : option pystr :=
  if existsb (N.eqb BACKSLASH) repl then None else Some repl.

Definition bind {A B} (x : option A) (f : A -> option B) : option B :=
  match x with Some a => f a | None => None end.

Notation "x <- e ;; k" := (bind e (fun x => k))
  (at level 61, e at next level, right associativity).

Fixpoint run_length (f : N -> bool) (s : pystr) : nat :=
  match s with
  | c :: t => if f c then S (run_length f t) else O
  | [] => O
  end.

(** Tries [try n], [try (n-1)], ... down to [try lo]. *)
Fixpoint backtrack (try : nat -> option nat) (lo n : nat) : option nat :=
  if (n <? lo)%nat then None
  else match try n with
       | Some r => Some r
       | None => match n with
                 | O => None
                 | S n' => backtrack try lo n'
                 end
       end.

Section WithUnicode.

Context {U : UnicodeData}.

Definition atom_matches (a : atom) (c : N) : bool :=
  match a with
  | AChar d => c =? d
  | ARange lo hi => (lo <=? c) && (c <=? hi)
  | ASpace => uni_isspace c
  | AWord => uni_isalnum c || (c =? UNDERSCORE)
  end.

Definition cset_matches (cs : cset) (c : N) : bool :=
  xorb (cs_neg cs) (existsb (fun a => atom_matches a c) (cs_atoms cs)).

(** The length of the match of [p] at the start of [s]: each item takes as
    many characters as it can and gives them back one by one while the rest
    of the pattern fails. *)
Fixpoint match_here (p : regex) (s : pystr) : option nat :=
  match p with
  | [] => Some O
  | it :: rest =>
      let avail := run_length (cset_matches (it_set it)) s in
      let most := match it_max it with
                  | Some m => Nat.min m avail
                  | None => avail
                  end in
      backtrack (fun n => option_map (Nat.add n) (match_here rest (skipn n s)))
                (it_min it) most
  end.

(** [re.search]: start and length of the leftmost match. *)
Fixpoint search_from (p : regex) (i : nat) (s : pystr) : option (nat * nat) :=
  match match_here p s with
  | Some n => Some (i, n)
  | None => match s with
            | [] => None
            | _ :: t => search_from p (S i) t
            end
  end.

Definition re_search (p : regex) (s : pystr) : option (nat * nat) :=
  search_from p 0 s.

(** [re.sub(p, repl, s)] *)
Definition re_sub (p : regex) (repl s : pystr) : option pystr :=
  r <- expand_template repl ;;
  Some (scan (match_here p) r 0 s).

(** ** create_slugs.py *)

(** Lines 38-46: the parenthetical step.  [paren_match.group(1)] is the pair
    of letters that follows the opening parenthesis of the match. *)
Definition paren_step (slug : pystr) : option pystr :=
  let paren_match := re_search re_state_code slug in
  match paren_match with
  | Some (start, _) =>
      let state_code := firstn 2 (skipn (S start) slug) in
      re_sub re_ws_state_code (py "-" ++ uni_lower state_code) slug
  | None =>
      re_sub re_ws_paren [] slug
  end.

Definition create_slug (school_name : pystr) : option pystr :=
  let slug := school_name in
  slug <- paren_step slug ;;
  let slug := uni_lower slug in
  let slug := replace (py "'s") (py "s") slug in
  let slug := replace (py "'") [] slug in
  let slug := replace (py " & ") (py "-") slug in
  let slug := replace (py ".") [] slug in
  slug <- re_sub re_spaces (py "-") slug ;;
  slug <- re_sub re_not_slug [] slug ;;
  slug <- re_sub re_hyphens (py "-") slug ;;
  let slug := strip (py "-") slug in
  Some slug.

(** ** get_all_teams.py *)

Definition simple_create_slug (school_name : pystr) : option pystr :=
  let slug := uni_lower school_name in
  slug <- re_sub re_not_word_space_hyphen [] slug ;;
  slug <- re_sub re_spaces (py "-") slug ;;
  slug <- re_sub re_hyphens (py "-") slug ;;
  let slug := strip (py "-") slug in
  Some slug.

End WithUnicode.

(** ** A database for ASCII text

    [ascii_unicode] has the ASCII rows and treats every other code point as
    caseless and neither white space nor alphanumeric.  It shows that the
    assumptions of [UnicodeData] can be met, and it runs ASCII inputs. *)
Definition ascii_unicode : UnicodeData.
Proof.
  refine {| uni_isspace := ascii_isspace;
            uni_isalnum := ascii_isalnum;
            uni_lower := map ascii_lower;
            uni_isspace_ascii := fun _ _ => eq_refl;
            uni_isalnum_ascii := fun _ _ => eq_refl;
            uni_lower_ascii := fun _ _ => eq_refl;
            uni_lower_space := _ |}.
  induction 1 as [|c s Hc _ IH]; simpl; [reflexivity|].
  rewrite IH. f_equal.
  unfold ascii_isspace in Hc. unfold ascii_lower.
  destruct (65 <=? c) eqn:E1; simpl; [|reflexivity].
  apply N.leb_le in E1.
  apply orb_true_iff in Hc.
  destruct Hc as [Hc|Hc]; apply andb_true_iff in Hc;
    destruct Hc as [_ Hc]; apply N.leb_le in Hc; lia.
Defined.

(** ** The slug of the specification *)

Fixpoint no_double_hyphen (s : pystr) : bool :=
  match s with
  | a :: t =>
      match t with
      | b :: _ => negb ((a =? HYPHEN) && (b =? HYPHEN))
      | [] => true
      end && no_double_hyphen t
  | [] => true
  end.

(** Only [[a-z0-9-]], no leading or trailing hyphen, no "--" inside. *)
Definition valid_slug (s : pystr) : Prop :=
  Forall (fun c => slug_char c = true) s
  /\ (forall t, s <> HYPHEN :: t)
  /\ (forall t, s <> t ++ [HYPHEN])
  /\ (forall pre post, s <> pre ++ [HYPHEN; HYPHEN] ++ post).

Definition valid_slugb (s : pystr) : bool :=
  forallb slug_char s
  && negb (starts_with [HYPHEN] s)
  && negb (starts_with [HYPHEN] (rev s))
  && no_double_hyphen s.

(** ** Notions for the statements about the parenthetical step *)

(** [s] starts with "(XY)", X and Y in [[A-Z]]. *)
Definition is_state_code (s : pystr) : bool :=
  match s with
  | a :: x :: y :: b :: _ =>
      (a =? LPAREN) && is_upper x && is_upper y && (b =? RPAREN)
  | _ => false
  end.

Definition not_rparen (c : N) : bool := negb (c =? RPAREN).
Definition is_hyphen (c : N) : bool := c =? HYPHEN.

Definition hd_hyphen (s : pystr) : bool :=
  match s with
  | c :: _ => is_hyphen c
  | [] => false
  end.

(** A parenthesised pair of capitals somewhere in [s]. *)
Definition has_state_code (s : pystr) : Prop :=
  exists pre x y post,
    s = pre ++ LPAREN :: x :: y :: RPAREN :: post
    /\ is_upper x = true /\ is_upper y = true.

(** An opening parenthesis of [s] with a closing one after it. *)
Definition has_paren_span (s : pystr) : Prop :=
  exists pre mid post, s = pre ++ LPAREN :: mid ++ RPAREN :: post.

Fixpoint paren_span_in (s : pystr) : bool :=
  match s with
  | c :: t => ((c =? LPAREN) && existsb (N.eqb RPAREN) t) || paren_span_in t
  | [] => false
  end.

(** Every opening parenthesis of [s] has a closing one after it. *)
Fixpoint closed_parens (s : pystr) : bool :=
  match s with
  | c :: t =>
      (negb (c =? LPAREN) || existsb (N.eqb RPAREN) t) && closed_parens t
  | [] => true
  end.

Definition ends_in_space {U : UnicodeData} (s : pystr) : bool :=
  match rev s with
  | c :: _ => uni_isspace c
  | [] => false
  end.

(** ** Notions for comparing the two rules *)

(** What replacing every maximal run of [f]-characters by [r] comes to:
    the last character of a run is the one that is rewritten. *)
Definition hd_in (f : N -> bool) (s : pystr) : bool :=
  match s with
  | d :: _ => f d
  | [] => false
  end.

Fixpoint collapse_runs (f : N -> bool) (r : N) (s : pystr) : pystr :=
  match s with
  | [] => []
  | c :: t =>
      if f c then
        if hd_in f t then collapse_runs f r t else r :: collapse_runs f r t
      else c :: collapse_runs f r t
  end.

Definition squeeze (s : pystr) : pystr := collapse_runs is_hyphen HYPHEN s.

(** What a character of a lowered ASCII name contributes to either slug,
    before hyphens are squeezed: itself, a hyphen for white space, nothing. *)
Definition keep_char (c : N) : pystr :=
  if slug_char c then [c] else if ascii_isspace c then [HYPHEN] else [].

Definition keep (s : pystr) : pystr := flat_map keep_char s.

(** Lines 48-71 of create_slugs.py once the three replacement templates,
    which hold no backslash, are expanded. *)
Definition normalise {U : UnicodeData} (slug : pystr) : pystr :=
  let slug := uni_lower slug in
  let slug := replace (py "'s") (py "s") slug in
  let slug := replace (py "'") [] slug in
  let slug := replace (py " & ") (py "-") slug in
  let slug := replace (py ".") [] slug in
  let slug := scan (match_here re_spaces) [HYPHEN] 0 slug in
  let slug := scan (match_here re_not_slug) [] 0 slug in
  let slug := scan (match_here re_hyphens) [HYPHEN] 0 slug in
  strip [HYPHEN] slug.

(** * Facts about the matcher and the scanner *)

Lemma backtrack_eq (try : nat -> option nat) (lo n : nat) :
  backtrack try lo n =
  if (n <? lo)%nat then None
  else match try n with
       | Some r => Some r
       | None => match n with
                 | O => None
                 | S n' => backtrack try lo n'
                 end
       end.
Proof. destruct n; reflexivity. Qed.

Lemma backtrack_all_none (try : nat -> option nat) (lo n : nat) :
  (forall k, (lo <= k <= n)%nat -> try k = None) ->
  backtrack try lo n = None.
Proof.
  induction n as [|n IH]; intros H; rewrite backtrack_eq.
  - destruct (0 <? lo)%nat eqn:E; [reflexivity|].
    apply Nat.ltb_ge in E. rewrite H by lia. reflexivity.
  - destruct (S n <? lo)%nat eqn:E; [reflexivity|].
    apply Nat.ltb_ge in E. rewrite H by lia.
    apply IH. intros k Hk. apply H. lia.
Qed.

Lemma backtrack_only_top (try : nat -> option nat) (lo n : nat) :
  (forall k, (k < n)%nat -> try k = None) ->
  backtrack try lo n = if (n <? lo)%nat then None else try n.
Proof.
  intros H. rewrite backtrack_eq.
  destruct (n <? lo)%nat; [reflexivity|].
  destruct (try n) eqn:E; [reflexivity|].
  destruct n as [|n]; [reflexivity|].
  apply backtrack_all_none. intros k Hk. apply H. lia.
Qed.

Lemma backtrack_some (try : nat -> option nat) (lo n r : nat) :
  backtrack try lo n = Some r ->
  exists k, (lo <= k <= n)%nat /\ try k = Some r.
Proof.
  induction n as [|n IH]; rewrite backtrack_eq.
  - destruct (0 <? lo)%nat eqn:E; [discriminate|].
    apply Nat.ltb_ge in E.
    destruct (try 0%nat) eqn:T; [|discriminate].
    intros H. exists 0%nat. split; [lia|]. congruence.
  - destruct (S n <? lo)%nat eqn:E; [discriminate|].
    apply Nat.ltb_ge in E.
    destruct (try (S n)) eqn:T.
    + intros H. exists (S n). split; [lia|]. congruence.
    + intros H. destruct (IH H) as [k [Hk Tk]].
      exists k. split; [lia|exact Tk].
Qed.

Lemma run_length_le (f : N -> bool) (s : pystr) :
  (run_length f s <= length s)%nat.
Proof.
  induction s as [|c t IH]; simpl; [lia|].
  destruct (f c); simpl; lia.
Qed.

Lemma run_length_inside (f : N -> bool) (s : pystr) (n : nat) :
  (n < run_length f s)%nat ->
  exists c t, skipn n s = c :: t /\ f c = true.
Proof.
  revert n. induction s as [|c t IH]; simpl; intros n Hn; [lia|].
  destruct (f c) eqn:E; [|lia].
  destruct n as [|n]; simpl.
  - exists c, t. split; [reflexivity|exact E].
  - apply IH. lia.
Qed.

Lemma run_length_stop (f : N -> bool) (s : pystr) :
  run_length f (skipn (run_length f s) s) = 0%nat.
Proof.
  induction s as [|c t IH]; simpl; [reflexivity|].
  destruct (f c) eqn:E; simpl; [exact IH|].
  rewrite E. reflexivity.
Qed.

Lemma run_length_all (f : N -> bool) (s : pystr) :
  Forall (fun c => f c = true) s -> run_length f s = length s.
Proof.
  induction 1 as [|c t Hc _ IH]; simpl; [reflexivity|].
  rewrite Hc, IH. reflexivity.
Qed.

Lemma run_length_none (f : N -> bool) (s : pystr) :
  Forall (fun c => f c = false) s -> run_length f s = 0%nat.
Proof.
  destruct 1 as [|c t Hc _]; simpl; [reflexivity|].
  rewrite Hc. reflexivity.
Qed.

Lemma run_length_ext (f g : N -> bool) (s : pystr) :
  Forall (fun c => f c = g c) s -> run_length f s = run_length g s.
Proof.
  induction 1 as [|c t Hc _ IH]; simpl; [reflexivity|].
  rewrite Hc, IH. reflexivity.
Qed.

Lemma Forall_skipn {A} (P : A -> Prop) (n : nat) (l : list A) :
  Forall P l -> Forall P (skipn n l).
Proof.
  revert l. induction n as [|n IH]; intros l H; simpl; [exact H|].
  destruct H; [constructor|]. apply IH. assumption.
Qed.

Lemma Forall_firstn {A} (P : A -> Prop) (n : nat) (l : list A) :
  Forall P l -> Forall P (firstn n l).
Proof.
  revert l. induction n as [|n IH]; intros l H; simpl; [constructor|].
  destruct H; constructor; [assumption|]. apply IH. assumption.
Qed.

(** *** The scanner *)

Section Scan.

Variable m : pystr -> option nat.
Variable repl : pystr.

Lemma scan_nil : scan m repl 0 [] =
  match m [] with Some _ => repl | None => [] end.
Proof. reflexivity. Qed.

Lemma scan_cons (c : N) (t : pystr) :
  scan m repl 0 (c :: t) =
  match m (c :: t) with
  | Some (S n) => repl ++ scan m repl n t
  | Some O => repl ++ c :: scan m repl 0 t
  | None => c :: scan m repl 0 t
  end.
Proof. reflexivity. Qed.

Lemma scan_skip (k : nat) (s : pystr) :
  (k <= length s)%nat -> scan m repl k s = scan m repl 0 (skipn k s).
Proof.
  revert s. induction k as [|k IH]; intros s Hk; [reflexivity|].
  destruct s as [|c t]; simpl in *; [lia|].
  apply IH. lia.
Qed.

Lemma scan_cons_none (c : N) (t : pystr) :
  m (c :: t) = None -> scan m repl 0 (c :: t) = c :: scan m repl 0 t.
Proof. intros H. simpl. rewrite H. reflexivity. Qed.

Lemma scan_cons_some (c : N) (t : pystr) (n : nat) :
  bounded m -> m (c :: t) = Some (S n) ->
  scan m repl 0 (c :: t) = repl ++ scan m repl 0 (skipn (S n) (c :: t)).
Proof.
  intros B H. simpl scan. rewrite H. f_equal.
  apply scan_skip. apply B in H. simpl in H. lia.
Qed.

Lemma scan_some (s : pystr) (n : nat) :
  bounded m -> m s = Some (S n) ->
  scan m repl 0 s = repl ++ scan m repl 0 (skipn (S n) s).
Proof.
  intros B H. destruct s as [|c t].
  - apply B in H. simpl in H. lia.
  - apply scan_cons_some; assumption.
Qed.

(** The scanner copies a character that differs from the first one of a
    non-empty replacement. *)
Lemma scan_head_copy (h : N) (repl' : pystr) (x : N) (t r : pystr) :
  repl = h :: repl' -> x <> h ->
  scan m repl 0 t = x :: r ->
  exists t', t = x :: t' /\ r = scan m repl 0 t'.
Proof.
  intros Hr Hx. destruct t as [|c t'].
  - rewrite scan_nil. destruct (m []); [|discriminate].
    rewrite Hr. intros E. injection E as E _. congruence.
  - rewrite scan_cons. destruct (m (c :: t')) as [[|n]|].
    + rewrite Hr. intros E. injection E as E _. congruence.
    + rewrite Hr. intros E. injection E as E _. congruence.
    + intros E. injection E as -> <-. eauto.
Qed.

Lemma scan_no_match (s : pystr) :
  (forall i, m (skipn i s) = None) -> scan m repl 0 s = s.
Proof.
  induction s as [|c t IH]; intros H.
  - specialize (H 0%nat). simpl in *. rewrite H. reflexivity.
  - rewrite scan_cons_none by exact (H 0%nat). f_equal.
    apply IH. intros i. exact (H (S i)).
Qed.

Lemma scan_Forall (P : N -> Prop) (k : nat) (s : pystr) :
  Forall P repl -> Forall P s -> Forall P (scan m repl k s).
Proof.
  intros Hr. revert k. induction s as [|c t IH]; intros k Hs.
  - destruct k; simpl; [|constructor].
    destruct (m []); [exact Hr|constructor].
  - inversion Hs as [|? ? Hc Ht]; subst.
    destruct k as [|k]; simpl; [|apply IH; exact Ht].
    destruct (m (c :: t)) as [[|n]|].
    + apply Forall_app. split; [exact Hr|].
      constructor; [exact Hc|apply IH; exact Ht].
    + apply Forall_app. split; [exact Hr|apply IH; exact Ht].
    + constructor; [exact Hc|apply IH; exact Ht].
Qed.

End Scan.

Lemma scan_ext (P : N -> Prop) (m1 m2 : pystr -> option nat)
    (repl : pystr) (k : nat) (s : pystr) :
  (forall t, Forall P t -> m1 t = m2 t) ->
  Forall P s -> scan m1 repl k s = scan m2 repl k s.
Proof.
  intros H. revert k. induction s as [|c t IH]; intros k Hs.
  - destruct k; simpl; [|reflexivity].
    rewrite (H [] Hs). reflexivity.
  - assert (Ht : Forall P t) by (inversion Hs; assumption).
    destruct k as [|k]; simpl; [|apply IH; exact Ht].
    rewrite (H (c :: t) Hs).
    destruct (m2 (c :: t)) as [[|n]|]; rewrite ?IH by exact Ht; reflexivity.
Qed.

(** *** The matcher *)

Section Matcher.

Context {U : UnicodeData}.

Lemma match_here_cons (it : item) (rest : regex) (s : pystr) :
  match_here (it :: rest) s =
  backtrack (fun n => option_map (Nat.add n) (match_here rest (skipn n s)))
    (it_min it)
    (match it_max it with
     | Some m => Nat.min m (run_length (cset_matches (it_set it)) s)
     | None => run_length (cset_matches (it_set it)) s
     end).
Proof. reflexivity. Qed.

Lemma match_here_bounded (p : regex) : bounded (match_here p).
Proof.
  induction p as [|it rest IH]; intros s n H.
  - simpl in H. injection H as <-. lia.
  - rewrite match_here_cons in H.
    apply backtrack_some in H. destruct H as [k [Hk Tk]].
    destruct (match_here rest (skipn k s)) as [j|] eqn:E; [|discriminate].
    simpl in Tk. injection Tk as <-.
    apply IH in E. rewrite length_skipn in E.
    pose proof (run_length_le (cset_matches (it_set it)) s) as L.
    destruct (it_max it); lia.
Qed.

Lemma match_here_head_fail (it : item) (rest : regex) (c : N) (t : pystr) :
  (1 <= it_min it)%nat -> cset_matches (it_set it) c = false ->
  match_here (it :: rest) (c :: t) = None.
Proof.
  intros Hmin Hc. rewrite match_here_cons. simpl run_length. rewrite Hc.
  rewrite backtrack_eq.
  assert (E : match it_max it with Some m => Nat.min m 0 | None => 0%nat end
              = 0%nat) by (destruct (it_max it); lia).
  rewrite E.
  destruct (0 <? it_min it)%nat eqn:L; [reflexivity|].
  apply Nat.ltb_ge in L. lia.
Qed.

Lemma match_here_nil_fail (it : item) (rest : regex) :
  (1 <= it_min it)%nat -> match_here (it :: rest) [] = None.
Proof.
  intros Hmin. rewrite match_here_cons. simpl run_length.
  rewrite backtrack_eq.
  assert (E : match it_max it with Some m => Nat.min m 0 | None => 0%nat end
              = 0%nat) by (destruct (it_max it); lia).
  rewrite E.
  destruct (0 <? it_min it)%nat eqn:L; [reflexivity|].
  apply Nat.ltb_ge in L. lia.
Qed.

(** A greedy run followed by an item that none of its characters can start:
    giving characters back never helps. *)
Lemma match_here_run_then (cs : cset) (mn : nat) (it : item) (rest : regex)
    (s : pystr) :
  (1 <= it_min it)%nat ->
  (forall c, cset_matches cs c = true -> cset_matches (it_set it) c = false) ->
  match_here (Item cs mn None :: it :: rest) s =
  if (run_length (cset_matches cs) s <? mn)%nat then None
  else option_map (Nat.add (run_length (cset_matches cs) s))
         (match_here (it :: rest) (skipn (run_length (cset_matches cs) s) s)).
Proof.
  intros Hmin Hdis. rewrite match_here_cons. simpl it_max. simpl it_min.
  simpl it_set. apply backtrack_only_top.
  intros k Hk. apply run_length_inside in Hk.
  destruct Hk as [c [t [-> Hc]]].
  rewrite match_here_head_fail; auto.
Qed.

Lemma match_here_run (cs : cset) (mn : nat) (s : pystr) :
  match_here [Item cs mn None] s =
  if (run_length (cset_matches cs) s <? mn)%nat then None
  else Some (run_length (cset_matches cs) s).
Proof.
  rewrite match_here_cons. simpl it_max. simpl it_min. simpl it_set.
  rewrite backtrack_eq.
  destruct (run_length (cset_matches cs) s <? mn)%nat; [reflexivity|].
  simpl. rewrite Nat.add_0_r. reflexivity.
Qed.

Lemma match_here_one (cs : cset) (rest : regex) (s : pystr) :
  match_here (one cs :: rest) s =
  match s with
  | c :: t => if cset_matches cs c then option_map S (match_here rest t)
              else None
  | [] => None
  end.
Proof.
  destruct s as [|c t].
  - apply match_here_nil_fail. simpl. lia.
  - destruct (cset_matches cs c) eqn:E.
    + rewrite match_here_cons. simpl it_max. simpl it_min. simpl it_set.
      simpl run_length. rewrite E.
      replace (Nat.min 1 (S (run_length (cset_matches cs) t))) with 1%nat
        by lia.
      rewrite backtrack_eq. simpl.
      destruct (match_here rest t); reflexivity.
    + apply match_here_head_fail; [simpl; lia|exact E].
Qed.

Lemma match_here_two (cs : cset) (rest : regex) (s : pystr) :
  match_here (times 2 cs :: rest) s =
  match s with
  | x :: y :: t =>
      if cset_matches cs x && cset_matches cs y
      then option_map (Nat.add 2) (match_here rest t) else None
  | _ => None
  end.
Proof.
  destruct s as [|x [|y t]].
  - apply match_here_nil_fail. simpl. lia.
  - rewrite match_here_cons. simpl.
    destruct (cset_matches cs x); reflexivity.
  - rewrite match_here_cons. simpl it_max. simpl it_min. simpl it_set.
    simpl run_length.
    destruct (cset_matches cs x); simpl; [|reflexivity].
    destruct (cset_matches cs y); simpl; [|reflexivity].
    destruct (match_here rest t); reflexivity.
Qed.

Lemma cset_lit (c d : N) : cset_matches (lit c) d = (d =? c).
Proof. unfold cset_matches. simpl. apply orb_false_r. Qed.

Lemma cset_space (c : N) : cset_matches cs_space c = uni_isspace c.
Proof. unfold cset_matches. simpl. apply orb_false_r. Qed.

Lemma cset_upper (c : N) : cset_matches cs_upper c = is_upper c.
Proof. unfold cset_matches. simpl. apply orb_false_r. Qed.

Lemma cset_not_rparen (c : N) :
  cset_matches cs_not_rparen c = negb (c =? RPAREN).
Proof. unfold cset_matches. simpl. rewrite orb_false_r. reflexivity. Qed.

Lemma cset_not_slug (c : N) : cset_matches cs_not_slug c = negb (slug_char c).
Proof.
  unfold cset_matches, slug_char. simpl. rewrite orb_false_r, orb_assoc.
  reflexivity.
Qed.

Lemma isspace_ascii_false (c : N) :
  is_ascii c -> ascii_isspace c = false -> uni_isspace c = false.
Proof. intros A H. rewrite uni_isspace_ascii; assumption. Qed.

Lemma space_not_lparen (c : N) :
  uni_isspace c = true -> (c =? LPAREN) = false.
Proof.
  intros H. destruct (c =? LPAREN) eqn:E; [|reflexivity].
  apply N.eqb_eq in E. subst c.
  rewrite isspace_ascii_false in H; [discriminate| |reflexivity].
  unfold is_ascii, LPAREN. lia.
Qed.

End Matcher.

(** *** The patterns of the scripts, in closed form *)

Section Patterns.

Context {U : UnicodeData}.

Lemma run_space (s : pystr) :
  run_length (cset_matches cs_space) s = run_length uni_isspace s.
Proof. apply run_length_ext, Forall_forall. intros c _. apply cset_space. Qed.

Lemma run_not_rparen (s : pystr) :
  run_length (cset_matches cs_not_rparen) s = run_length not_rparen s.
Proof.
  apply run_length_ext, Forall_forall. intros c _. apply cset_not_rparen.
Qed.

Lemma run_hyphen (s : pystr) :
  run_length (cset_matches cs_hyphen) s = run_length is_hyphen s.
Proof.
  apply run_length_ext, Forall_forall. intros c _. apply cset_lit.
Qed.

Lemma match_state_code (s : pystr) :
  match_here re_state_code s = if is_state_code s then Some 4%nat else None.
Proof.
  unfold re_state_code. rewrite match_here_one.
  destruct s as [|a s]; [reflexivity|].
  rewrite cset_lit, match_here_two.
  destruct s as [|x [|y s]];
    try (simpl; destruct (a =? LPAREN); reflexivity).
  rewrite !cset_upper, match_here_one.
  destruct s as [|b s].
  - simpl. destruct (a =? LPAREN), (is_upper x && is_upper y); reflexivity.
  - rewrite cset_lit. simpl.
    destruct (a =? LPAREN), (is_upper x), (is_upper y), (b =? RPAREN);
      reflexivity.
Qed.

Lemma match_ws_state_code (s : pystr) :
  match_here re_ws_state_code s =
  if is_state_code (skipn (run_length uni_isspace s) s)
  then Some (run_length uni_isspace s + 4)%nat else None.
Proof.
  unfold re_ws_state_code, star.
  rewrite match_here_run_then.
  - rewrite run_space. simpl Nat.ltb.
    change (match_here (one (lit LPAREN) :: [times 2 cs_upper; one (lit RPAREN)]))
      with (match_here re_state_code).
    rewrite match_state_code.
    destruct (is_state_code _); reflexivity.
  - simpl. lia.
  - intros c Hc. rewrite cset_space in Hc. simpl it_set. rewrite cset_lit.
    apply space_not_lparen. exact Hc.
Qed.

Lemma match_close_paren (s : pystr) :
  match_here [star cs_not_rparen; one (lit RPAREN)] s =
  match skipn (run_length not_rparen s) s with
  | _ :: _ => Some (run_length not_rparen s + 1)%nat
  | [] => None
  end.
Proof.
  unfold star. rewrite match_here_run_then.
  - rewrite run_not_rparen. simpl Nat.ltb. rewrite match_here_one.
    pose proof (run_length_stop not_rparen s) as Hstop.
    destruct (skipn (run_length not_rparen s) s) as [|d v]; [reflexivity|].
    rewrite cset_lit. simpl in Hstop.
    unfold not_rparen in Hstop at 1.
    destruct (d =? RPAREN); [reflexivity|discriminate].
  - simpl. lia.
  - intros c Hc. rewrite cset_not_rparen in Hc. simpl it_set.
    rewrite cset_lit. destruct (c =? RPAREN); [discriminate|reflexivity].
Qed.

(** The length of a match of r'\s*\([^)]*\)' at the start of [s]. *)
Lemma match_ws_paren (s : pystr) :
  match_here re_ws_paren s =
  match skipn (run_length uni_isspace s) s with
  | c :: u =>
      if c =? LPAREN then
        match skipn (run_length not_rparen u) u with
        | _ :: _ =>
            Some (run_length uni_isspace s + S (run_length not_rparen u + 1))%nat
        | [] => None
        end
      else None
  | [] => None
  end.
Proof.
  unfold re_ws_paren. unfold star at 1.
  rewrite match_here_run_then.
  - rewrite run_space. simpl Nat.ltb. rewrite match_here_one.
    destruct (skipn (run_length uni_isspace s) s) as [|c u]; [reflexivity|].
    rewrite cset_lit. destruct (c =? LPAREN); [|reflexivity].
    rewrite match_close_paren.
    destruct (skipn (run_length not_rparen u) u); reflexivity.
  - simpl. lia.
  - intros c Hc. rewrite cset_space in Hc. simpl it_set. rewrite cset_lit.
    apply space_not_lparen. exact Hc.
Qed.

Lemma match_spaces (s : pystr) :
  match_here re_spaces s =
  match run_length uni_isspace s with
  | O => None
  | S k => Some (S k)
  end.
Proof.
  unfold re_spaces, plus. rewrite match_here_run, run_space.
  destruct (run_length uni_isspace s); reflexivity.
Qed.

Lemma match_hyphens (s : pystr) :
  match_here re_hyphens s =
  match run_length is_hyphen s with
  | O => None
  | S k => Some (S k)
  end.
Proof.
  unfold re_hyphens, plus. rewrite match_here_run, run_hyphen.
  destruct (run_length is_hyphen s); reflexivity.
Qed.

Lemma match_not_slug (s : pystr) :
  match_here re_not_slug s =
  match s with
  | c :: _ => if slug_char c then None else Some 1%nat
  | [] => None
  end.
Proof.
  unfold re_not_slug. rewrite match_here_one.
  destruct s as [|c t]; [reflexivity|].
  rewrite cset_not_slug. destruct (slug_char c); reflexivity.
Qed.

End Patterns.

(** *** Spelling out the slug predicates *)

Lemma no_double_hyphen_spec (s : pystr) :
  no_double_hyphen s = true ->
  forall pre post, s <> pre ++ [HYPHEN; HYPHEN] ++ post.
Proof.
  intros H pre. revert s H.
  induction pre as [|a pre IH]; intros s H post E; subst s.
  - simpl in H. discriminate.
  - simpl in H. apply andb_true_iff in H. destruct H as [_ H].
    exact (IH _ H post eq_refl).
Qed.

Lemma no_double_hyphen_cons (a : N) (r : pystr) :
  hd_hyphen r = false -> no_double_hyphen r = true ->
  no_double_hyphen (a :: r) = true.
Proof.
  intros HD ND. destruct r as [|b r]; [reflexivity|].
  change (negb ((a =? HYPHEN) && (b =? HYPHEN)) && no_double_hyphen (b :: r)
          = true).
  rewrite ND. simpl in HD. unfold is_hyphen in HD. rewrite HD.
  rewrite andb_false_r. reflexivity.
Qed.

Lemma no_double_hyphen_cons_other (a : N) (r : pystr) :
  is_hyphen a = false -> no_double_hyphen r = true ->
  no_double_hyphen (a :: r) = true.
Proof.
  intros HA ND. destruct r as [|b r]; [reflexivity|].
  change (negb ((a =? HYPHEN) && (b =? HYPHEN)) && no_double_hyphen (b :: r)
          = true).
  rewrite ND. unfold is_hyphen in HA. rewrite HA. reflexivity.
Qed.

Lemma starts_with_hyphen (s : pystr) :
  starts_with [HYPHEN] s = hd_hyphen s.
Proof.
  destruct s as [|c t]; [reflexivity|].
  cbn [starts_with hd_hyphen]. unfold is_hyphen.
  rewrite andb_true_r. apply N.eqb_sym.
Qed.

Lemma valid_slugb_sound (s : pystr) : valid_slugb s = true -> valid_slug s.
Proof.
  unfold valid_slugb. intros H.
  repeat (apply andb_true_iff in H; let H' := fresh "H" in destruct H as [H H']).
  rewrite starts_with_hyphen in *.
  repeat split.
  - apply Forall_forall. apply forallb_forall. exact H.
  - intros t E. subst s. simpl in H2. discriminate.
  - intros t E. subst s. rewrite rev_app_distr in H1. simpl in H1.
    discriminate.
  - apply no_double_hyphen_spec. exact H0.
Qed.

(** *** [strip] *)

Lemma lstrip_suffix (chars s : pystr) :
  exists pre, s = pre ++ lstrip chars s.
Proof.
  induction s as [|c t [pre IH]]; simpl.
  - exists []. reflexivity.
  - destruct (existsb (N.eqb c) chars).
    + exists (c :: pre). simpl. f_equal. exact IH.
    + exists []. reflexivity.
Qed.

Lemma lstrip_head (chars s : pystr) (c : N) (t : pystr) :
  lstrip chars s = c :: t -> existsb (N.eqb c) chars = false.
Proof.
  induction s as [|d u IH]; simpl; [discriminate|].
  destruct (existsb (N.eqb d) chars) eqn:E; [exact IH|].
  intros H. injection H as -> _. exact E.
Qed.

Lemma rstrip_prefix (chars s : pystr) :
  exists suf, s = rstrip chars s ++ suf.
Proof.
  unfold rstrip. destruct (lstrip_suffix chars (rev s)) as [pre E].
  exists (rev pre). rewrite <- rev_app_distr, <- E. symmetry. apply rev_involutive.
Qed.

Lemma rstrip_last (chars s : pystr) (c : N) (t : pystr) :
  rstrip chars s = t ++ [c] -> existsb (N.eqb c) chars = false.
Proof.
  unfold rstrip. intros H.
  apply (f_equal (@rev N)) in H.
  rewrite rev_involutive, rev_app_distr in H. simpl in H.
  exact (lstrip_head _ _ _ _ H).
Qed.

Lemma strip_inside (chars s : pystr) :
  exists pre suf, s = pre ++ strip chars s ++ suf.
Proof.
  unfold strip.
  destruct (lstrip_suffix chars s) as [pre E].
  destruct (rstrip_prefix chars (lstrip chars s)) as [suf F].
  exists pre, suf. rewrite <- F. exact E.
Qed.

Lemma lstrip_id (chars s : pystr) :
  (forall c t, s = c :: t -> existsb (N.eqb c) chars = false) ->
  lstrip chars s = s.
Proof.
  destruct s as [|c t]; intros H; simpl; [reflexivity|].
  rewrite (H c t eq_refl). reflexivity.
Qed.

Lemma strip_hyphen_valid (s : pystr) :
  Forall (fun c => slug_char c = true) s ->
  (forall pre post, s <> pre ++ [HYPHEN; HYPHEN] ++ post) ->
  valid_slug (strip [HYPHEN] s).
Proof.
  intros Hchars Hdouble.
  destruct (strip_inside [HYPHEN] s) as [pre [suf E]].
  repeat split.
  - rewrite E in Hchars.
    apply Forall_app in Hchars. destruct Hchars as [_ Hchars].
    apply Forall_app in Hchars. tauto.
  - intros t F. unfold strip in F.
    destruct (rstrip_prefix [HYPHEN] (lstrip [HYPHEN] s)) as [suf' G].
    rewrite F in G. simpl in G. apply lstrip_head in G.
    simpl in G. discriminate.
  - intros t F. unfold strip in F. apply rstrip_last in F.
    simpl in F. discriminate.
  - intros pre' post' F. rewrite F in E.
    apply (Hdouble (pre ++ pre') (post' ++ suf)).
    rewrite E. rewrite <- !app_assoc. reflexivity.
Qed.

(** *** The last three steps of [create_slug] *)

Section Finish.

Context {U : UnicodeData}.

Lemma sub_not_slug_chars (x : pystr) :
  Forall (fun c => slug_char c = true) (scan (match_here re_not_slug) [] 0 x).
Proof.
  induction x as [|c t IH].
  - rewrite scan_nil, match_not_slug. constructor.
  - rewrite scan_cons, match_not_slug.
    destruct (slug_char c) eqn:E; simpl; [constructor|]; assumption.
Qed.

Lemma hd_hyphen_run (s : pystr) :
  run_length is_hyphen s = 0%nat -> hd_hyphen s = false.
Proof.
  destruct s as [|c t]; simpl; [reflexivity|].
  destruct (is_hyphen c); [discriminate|reflexivity].
Qed.

Lemma collapse_hyphens_shape (n : nat) (t : pystr) :
  (length t <= n)%nat ->
  no_double_hyphen (scan (match_here re_hyphens) [HYPHEN] 0 t) = true
  /\ (hd_hyphen t = false ->
      hd_hyphen (scan (match_here re_hyphens) [HYPHEN] 0 t) = false).
Proof.
  revert t. induction n as [|n IH]; intros t Hlen.
  - destruct t; [|simpl in Hlen; lia].
    rewrite scan_nil, match_hyphens. simpl. split; reflexivity.
  - destruct t as [|c t]; [rewrite scan_nil, match_hyphens; simpl; tauto|].
    destruct (match_here re_hyphens (c :: t)) as [[|k]|] eqn:M.
    + rewrite match_hyphens in M.
      destruct (run_length is_hyphen (c :: t)); discriminate.
    + rewrite (scan_cons_some _ _ _ _ _ (match_here_bounded _) M).
      pose proof M as M'. rewrite match_hyphens in M'.
      destruct (run_length is_hyphen (c :: t)) as [|k'] eqn:R; [discriminate|].
      injection M' as <-.
      pose proof (run_length_stop is_hyphen (c :: t)) as Hstop.
      rewrite R in Hstop. apply hd_hyphen_run in Hstop.
      assert (L : (length (skipn (S k') (c :: t)) <= n)%nat).
      { rewrite length_skipn. simpl in *. lia. }
      destruct (IH _ L) as [ND HD]. specialize (HD Hstop).
      split.
      * apply (no_double_hyphen_cons HYPHEN); assumption.
      * intros H. simpl in H, R. rewrite H in R. discriminate.
    + rewrite scan_cons, M.
      rewrite match_hyphens in M.
      assert (Hc : is_hyphen c = false).
      { simpl in M. destruct (is_hyphen c); [discriminate|reflexivity]. }
      assert (L : (length t <= n)%nat) by (simpl in Hlen; lia).
      destruct (IH _ L) as [ND _].
      split; [|intros _; exact Hc].
      apply no_double_hyphen_cons_other; assumption.
Qed.

Lemma finish_valid (x : pystr) :
  valid_slug
    (strip [HYPHEN]
       (scan (match_here re_hyphens) [HYPHEN] 0
          (scan (match_here re_not_slug) [] 0 x))).
Proof.
  apply strip_hyphen_valid.
  - apply scan_Forall; [repeat constructor|apply sub_not_slug_chars].
  - apply no_double_hyphen_spec.
    eapply collapse_hyphens_shape. apply Nat.le_refl.
Qed.

End Finish.

(** *** [re.search] *)

Section Search.

Context {U : UnicodeData}.

Lemma search_from_none (p : regex) (i : nat) (s : pystr) :
  (forall d, match_here p (skipn d s) = None) -> search_from p i s = None.
Proof.
  revert i. induction s as [|c t IH]; intros i H; simpl.
  - specialize (H 0%nat). simpl in H. rewrite H. reflexivity.
  - pose proof (H 0%nat) as H0. simpl in H0. rewrite H0.
    apply IH. intros d. exact (H (S d)).
Qed.

Lemma search_from_some (p : regex) (i : nat) (s : pystr) (j n : nat) :
  search_from p i s = Some (j, n) ->
  exists d, j = (i + d)%nat /\ match_here p (skipn d s) = Some n.
Proof.
  revert i. induction s as [|c t IH]; intros i; simpl.
  - destruct (match_here p []) eqn:E; [|discriminate].
    intros H. injection H as <- <-. exists 0%nat. split; [lia|exact E].
  - destruct (match_here p (c :: t)) eqn:E.
    + intros H. injection H as <- <-. exists 0%nat. split; [lia|exact E].
    + intros H. apply IH in H. destruct H as [d [-> H]].
      exists (S d). split; [lia|exact H].
Qed.

Lemma search_from_first (p : regex) (i : nat) (s : pystr) (j n : nat) :
  search_from p i s = Some (j, n) ->
  forall e, (i + e < j)%nat -> match_here p (skipn e s) = None.
Proof.
  revert i. induction s as [|c t IH]; intros i; simpl.
  - destruct (match_here p []) eqn:E; [|discriminate].
    intros H. injection H as <- <-. intros e He. lia.
  - destruct (match_here p (c :: t)) eqn:E.
    + intros H. injection H as <- <-. intros e He. lia.
    + intros H [|e] He; [exact E|]. simpl.
      apply (IH _ H). lia.
Qed.

Lemma search_from_found (p : regex) (i : nat) (s : pystr) :
  search_from p i s = None -> forall d, match_here p (skipn d s) = None.
Proof.
  revert i. induction s as [|c t IH]; intros i; simpl.
  - destruct (match_here p []) eqn:E; [discriminate|].
    intros _ d. rewrite skipn_nil. exact E.
  - destruct (match_here p (c :: t)) eqn:E; [discriminate|].
    intros H [|d]; [exact E|]. simpl. exact (IH _ H d).
Qed.

End Search.

(** *** [str.replace] *)

Lemma starts_with_incl (old t : pystr) :
  starts_with old t = true -> forall c, In c old -> In c t.
Proof.
  revert t. induction old as [|a old IH]; intros t H c Hc; [destruct Hc|].
  destruct t as [|b t]; [discriminate|].
  simpl in H. apply andb_true_iff in H. destruct H as [E H].
  apply N.eqb_eq in E. subst b.
  destruct Hc as [->|Hc]; [left; reflexivity|right; eauto].
Qed.

Lemma In_skipn {A} (x : A) (n : nat) (l : list A) :
  In x (skipn n l) -> In x l.
Proof.
  revert l. induction n as [|n IH]; intros l H; [exact H|].
  destruct l as [|a l]; [destruct H|]. right. apply IH. exact H.
Qed.

(** A pattern holding a character that the string lacks occurs nowhere. *)
Lemma replace_absent (old new s : pystr) (c : N) :
  In c old -> ~ In c s -> replace old new s = s.
Proof.
  intros Hold Hs. unfold replace. apply scan_no_match. intros i.
  destruct (starts_with old (skipn i s)) eqn:E; [|reflexivity].
  exfalso. apply Hs. apply (In_skipn c i).
  exact (starts_with_incl _ _ E c Hold).
Qed.

(** *** The parenthetical step and the shape of [create_slug] *)

Section Steps.

Context {U : UnicodeData}.

Lemma re_sub_literal (p : regex) (repl s : pystr) :
  existsb (N.eqb BACKSLASH) repl = false ->
  re_sub p repl s = Some (scan (match_here p) repl 0 s).
Proof. intros H. unfold re_sub, expand_template. rewrite H. reflexivity. Qed.

Lemma create_slug_unfold (s : pystr) :
  create_slug s = option_map normalise (paren_step s).
Proof. unfold create_slug. destruct (paren_step s); reflexivity. Qed.

Lemma is_state_code_inv (s : pystr) :
  is_state_code s = true ->
  exists x y t, s = LPAREN :: x :: y :: RPAREN :: t
                /\ is_upper x = true /\ is_upper y = true.
Proof.
  destruct s as [|a [|x [|y [|b t]]]]; try discriminate.
  simpl. intros H.
  repeat (apply andb_true_iff in H; let H' := fresh "H" in destruct H as [H H']).
  apply N.eqb_eq in H, H0. subst a b.
  exists x, y, t. repeat split; assumption.
Qed.

Lemma skipn_S_cons {A} (d : nat) (s : list A) (a : A) (t : list A) :
  skipn d s = a :: t -> skipn (S d) s = t.
Proof.
  revert s. induction d as [|d IH]; intros s H.
  - simpl in H. subst s. reflexivity.
  - destruct s as [|b s]; [discriminate|]. simpl in H. simpl skipn.
    destruct s as [|b' s']; [rewrite skipn_nil in H; discriminate|].
    exact (IH _ H).
Qed.

Lemma upper_is_ascii (x : N) : is_upper x = true -> is_ascii x.
Proof.
  unfold is_upper, is_ascii. intros H. apply andb_true_iff in H.
  destruct H as [_ H]. apply N.leb_le in H. lia.
Qed.

Lemma lower_upper_no_backslash (x : N) :
  is_upper x = true -> (BACKSLASH =? ascii_lower x) = false.
Proof.
  unfold is_upper, ascii_lower, BACKSLASH. intros H. rewrite H.
  apply andb_true_iff in H. destruct H as [H _]. apply N.leb_le in H.
  apply N.eqb_neq. lia.
Qed.

(** With a state code in the name: every r'\s*\([A-Z]{2}\)' becomes a hyphen
    and the lowered letters of the first one. *)
Lemma paren_step_state (s : pystr) (i n : nat) :
  re_search re_state_code s = Some (i, n) ->
  exists x y t,
    skipn i s = LPAREN :: x :: y :: RPAREN :: t
    /\ is_upper x = true /\ is_upper y = true
    /\ paren_step s =
       Some (scan (match_here re_ws_state_code)
               [HYPHEN; ascii_lower x; ascii_lower y] 0 s).
Proof.
  intros H. unfold paren_step. rewrite H.
  apply search_from_some in H. destruct H as [d [-> H]]. simpl Nat.add.
  rewrite match_state_code in H.
  destruct (is_state_code (skipn d s)) eqn:E; [|discriminate].
  apply is_state_code_inv in E. destruct E as [x [y [t [E [Hx Hy]]]]].
  exists x, y, t. repeat split; try assumption.
  rewrite (skipn_S_cons _ _ _ _ E). simpl firstn.
  rewrite uni_lower_ascii
    by (repeat constructor; apply upper_is_ascii; assumption).
  change (py "-" ++ map ascii_lower [x; y])
    with [HYPHEN; ascii_lower x; ascii_lower y].
  apply re_sub_literal. cbn [existsb].
  rewrite !lower_upper_no_backslash by assumption. reflexivity.
Qed.

(** Without one: every r'\s*\([^)]*\)' is deleted. *)
Lemma paren_step_plain (s : pystr) :
  re_search re_state_code s = None ->
  paren_step s = Some (scan (match_here re_ws_paren) [] 0 s).
Proof. intros H. unfold paren_step. rewrite H. reflexivity. Qed.

Lemma paren_step_returns (s : pystr) : exists p, paren_step s = Some p.
Proof.
  destruct (re_search re_state_code s) as [[i n]|] eqn:E.
  - destruct (paren_step_state _ _ _ E) as [x [y [t [_ [_ [_ H]]]]]].
    eauto.
  - rewrite (paren_step_plain _ E). eauto.
Qed.

Lemma create_slug_returns (s : pystr) :
  exists p, paren_step s = Some p /\ create_slug s = Some (normalise p).
Proof.
  destruct (paren_step_returns s) as [p H]. exists p. split; [exact H|].
  rewrite create_slug_unfold, H. reflexivity.
Qed.

End Steps.

(** *** ASCII names run on the ASCII rows alone *)

Lemma backtrack_ext (f g : nat -> option nat) (lo n : nat) :
  (forall k, f k = g k) -> backtrack f lo n = backtrack g lo n.
Proof.
  intros H. induction n as [|n IH]; rewrite (backtrack_eq f), (backtrack_eq g);
    rewrite H; [reflexivity|]. rewrite IH. reflexivity.
Qed.

Lemma is_asciib_sound (s : pystr) :
  forallb (fun c => c <? 128) s = true -> Forall is_ascii s.
Proof.
  intros H. apply Forall_forall. intros c Hc.
  rewrite forallb_forall in H. apply N.ltb_lt, H, Hc.
Qed.

Lemma ascii_lower_ascii (s : pystr) :
  Forall is_ascii s -> Forall is_ascii (map ascii_lower s).
Proof.
  induction 1 as [|c t Hc _ IH]; simpl; constructor; [|exact IH].
  unfold is_ascii, ascii_lower in *.
  destruct ((65 <=? c) && (c <=? 90)) eqn:E; [|exact Hc].
  apply andb_true_iff in E. destruct E as [_ E]. apply N.leb_le in E. lia.
Qed.

Lemma re_sub_keeps_ascii {U : UnicodeData} (p : regex) (repl s out : pystr) :
  re_sub p repl s = Some out ->
  Forall is_ascii repl -> Forall is_ascii s -> Forall is_ascii out.
Proof.
  unfold re_sub, expand_template.
  destruct (existsb (N.eqb BACKSLASH) repl); [discriminate|]. simpl.
  intros E Hr Hs. injection E as <-. apply scan_Forall; assumption.
Qed.

Section Ascii.

Context {U : UnicodeData}.

Lemma atom_matches_ascii (a : atom) (c : N) :
  is_ascii c -> atom_matches a c = @atom_matches ascii_unicode a c.
Proof.
  intros H. destruct a; simpl; try reflexivity.
  - apply uni_isspace_ascii, H.
  - rewrite uni_isalnum_ascii by exact H. reflexivity.
Qed.

Lemma cset_matches_ascii (cs : cset) (c : N) :
  is_ascii c -> cset_matches cs c = @cset_matches ascii_unicode cs c.
Proof.
  intros H. unfold cset_matches. f_equal.
  induction (cs_atoms cs) as [|a l IH]; simpl; [reflexivity|].
  rewrite IH, atom_matches_ascii by exact H. reflexivity.
Qed.

Lemma match_here_ascii (p : regex) (s : pystr) :
  Forall is_ascii s -> match_here p s = @match_here ascii_unicode p s.
Proof.
  revert s. induction p as [|it rest IH]; intros s H; [reflexivity|].
  rewrite (@match_here_cons U), (@match_here_cons ascii_unicode).
  rewrite (run_length_ext (@cset_matches U (it_set it))
             (@cset_matches ascii_unicode (it_set it)))
    by (eapply Forall_impl; [|exact H]; intros c; apply cset_matches_ascii).
  apply backtrack_ext. intros k.
  rewrite IH by (apply Forall_skipn, H). reflexivity.
Qed.

Lemma search_from_ascii (p : regex) (i : nat) (s : pystr) :
  Forall is_ascii s -> search_from p i s = @search_from ascii_unicode p i s.
Proof.
  intros H. revert i. induction H as [|c t Hc Ht IH]; intros i; simpl.
  - rewrite match_here_ascii by constructor. reflexivity.
  - rewrite match_here_ascii by (constructor; assumption).
    rewrite IH. reflexivity.
Qed.

Lemma scan_match_ascii (p : regex) (repl s : pystr) :
  Forall is_ascii s ->
  scan (match_here p) repl 0 s = scan (@match_here ascii_unicode p) repl 0 s.
Proof. apply scan_ext. apply match_here_ascii. Qed.

Lemma re_sub_ascii (p : regex) (repl s : pystr) :
  Forall is_ascii s -> re_sub p repl s = @re_sub ascii_unicode p repl s.
Proof.
  intros H. unfold re_sub. destruct (expand_template repl); simpl;
    [|reflexivity].
  rewrite scan_match_ascii by exact H. reflexivity.
Qed.

Lemma state_code_ascii (start : nat) (s : pystr) :
  Forall is_ascii s ->
  uni_lower (firstn 2 (skipn (S start) s)) =
  map ascii_lower (firstn 2 (skipn (S start) s)).
Proof. intros H. apply uni_lower_ascii, Forall_firstn, Forall_skipn, H. Qed.

Lemma paren_step_ascii (s : pystr) :
  Forall is_ascii s -> paren_step s = @paren_step ascii_unicode s.
Proof.
  intros H. unfold paren_step, re_search.
  rewrite search_from_ascii by exact H.
  destruct (@search_from ascii_unicode re_state_code 0 s) as [[i n]|].
  - rewrite state_code_ascii by exact H. apply re_sub_ascii, H.
  - apply re_sub_ascii, H.
Qed.

Lemma paren_step_keeps_ascii (s p : pystr) :
  paren_step s = Some p -> Forall is_ascii s -> Forall is_ascii p.
Proof.
  unfold paren_step. intros E H.
  destruct (re_search re_state_code s) as [[i n]|].
  - rewrite state_code_ascii in E by exact H.
    apply (re_sub_keeps_ascii _ _ _ _ E); [|exact H].
    apply Forall_app. split; [apply is_asciib_sound; reflexivity|].
    apply ascii_lower_ascii, Forall_firstn, Forall_skipn, H.
  - apply (re_sub_keeps_ascii _ _ _ _ E); [constructor|exact H].
Qed.

Lemma replace_keeps_ascii (old new s : pystr) :
  Forall is_ascii new -> Forall is_ascii s -> Forall is_ascii (replace old new s).
Proof. intros Hn Hs. unfold replace. apply scan_Forall; assumption. Qed.

Lemma normalise_ascii (p : pystr) :
  Forall is_ascii p -> normalise p = @normalise ascii_unicode p.
Proof.
  intros H. unfold normalise.
  rewrite uni_lower_ascii by exact H.
  change (@uni_lower ascii_unicode p) with (map ascii_lower p).
  assert (A : Forall is_ascii
                (replace (py ".") []
                   (replace (py " & ") (py "-")
                      (replace (py "'") []
                         (replace (py "'s") (py "s") (map ascii_lower p)))))).
  { repeat (apply replace_keeps_ascii;
            [apply is_asciib_sound; reflexivity|]).
    apply ascii_lower_ascii, H. }
  assert (B : forall m, Forall is_ascii (scan m [HYPHEN] 0 (replace (py ".") []
                   (replace (py " & ") (py "-")
                      (replace (py "'") []
                         (replace (py "'s") (py "s") (map ascii_lower p))))))).
  { intros m. apply scan_Forall; [apply is_asciib_sound; reflexivity|exact A]. }
  rewrite (scan_match_ascii re_spaces) by exact A.
  rewrite (scan_match_ascii re_not_slug) by apply B.
  rewrite (scan_match_ascii re_hyphens)
    by (apply scan_Forall; [constructor|apply B]).
  reflexivity.
Qed.

(** An ASCII name gets the slug that the ASCII rows give it. *)
Lemma create_slug_ascii (s : pystr) :
  Forall is_ascii s -> create_slug s = @create_slug ascii_unicode s.
Proof.
  intros H. rewrite (@create_slug_unfold U), (@create_slug_unfold ascii_unicode).
  rewrite <- paren_step_ascii by exact H.
  destruct (paren_step s) as [p|] eqn:E; [|reflexivity]. simpl.
  rewrite normalise_ascii by (apply (paren_step_keeps_ascii _ _ E), H).
  reflexivity.
Qed.

Lemma simple_create_slug_ascii (s : pystr) :
  Forall is_ascii s ->
  simple_create_slug s = @simple_create_slug ascii_unicode s.
Proof.
  intros H. unfold simple_create_slug.
  rewrite uni_lower_ascii by exact H.
  change (@uni_lower ascii_unicode s) with (map ascii_lower s).
  pose proof (ascii_lower_ascii _ H) as A.
  rewrite re_sub_ascii by exact A.
  destruct (@re_sub ascii_unicode re_not_word_space_hyphen [] (map ascii_lower s))
    as [a|] eqn:Ea; [|reflexivity].
  pose proof (@re_sub_keeps_ascii ascii_unicode _ _ _ _ Ea) as Aa.
  cbn [bind].
  rewrite re_sub_ascii by (apply Aa; [constructor|exact A]).
  destruct (@re_sub ascii_unicode re_spaces (py "-") a) as [b|] eqn:Eb;
    [|reflexivity].
  cbn [bind].
  rewrite re_sub_ascii; [reflexivity|].
  apply (@re_sub_keeps_ascii ascii_unicode _ _ _ _ Eb).
  - apply is_asciib_sound. reflexivity.
  - apply Aa; [constructor|exact A].
Qed.

End Ascii.

(** *** After the parenthetical step nothing of the rewritten kind is left *)

Lemma run_length_full (f : N -> bool) (s : pystr) :
  skipn (run_length f s) s = [] -> Forall (fun c => f c = true) s.
Proof.
  induction s as [|c t IH]; simpl; [constructor|].
  destruct (f c) eqn:E; [|discriminate].
  intros H. constructor; [exact E|exact (IH H)].
Qed.

Lemma has_state_code_at (s : pystr) :
  has_state_code s -> exists d, is_state_code (skipn d s) = true.
Proof.
  intros [pre [x [y [post [-> [Hx Hy]]]]]]. exists (length pre).
  rewrite skipn_app, skipn_all, Nat.sub_diag. simpl.
  rewrite Hx, Hy. reflexivity.
Qed.

Lemma has_paren_span_in (s : pystr) :
  has_paren_span s -> paren_span_in s = true.
Proof.
  intros [pre [mid [post ->]]].
  induction pre as [|a pre IH]; simpl.
  - apply orb_true_iff. left.
    apply existsb_exists. exists RPAREN. split; [|apply N.eqb_refl].
    apply in_or_app. right. left. reflexivity.
  - rewrite IH. apply orb_true_r.
Qed.

Lemma is_state_code_head_false (c : N) (t : pystr) :
  (c =? LPAREN) = false -> is_state_code (c :: t) = false.
Proof.
  intros H. destruct t as [|x [|y [|b t]]]; simpl; rewrite ?H; reflexivity.
Qed.

Section ParenStep.

Context {U : UnicodeData}.

Lemma lparen_not_space_run (t : pystr) :
  run_length uni_isspace (LPAREN :: t) = 0%nat.
Proof.
  simpl. rewrite isspace_ascii_false; [reflexivity| |reflexivity].
  unfold is_ascii, LPAREN. lia.
Qed.

Lemma state_code_matches (s : pystr) :
  is_state_code s = true -> match_here re_ws_state_code s = Some 4%nat.
Proof.
  intros H. rewrite match_ws_state_code.
  pose proof (is_state_code_inv _ H) as [x [y [t [-> _]]]].
  rewrite lparen_not_space_run. simpl skipn. rewrite H. reflexivity.
Qed.

Lemma upper_not_hyphen (x : N) : is_upper x = true -> x <> HYPHEN.
Proof.
  unfold is_upper, HYPHEN. intros H ->. discriminate.
Qed.

Lemma lower_upper_not_lparen (x : N) :
  is_upper x = true -> (ascii_lower x =? LPAREN) = false.
Proof.
  unfold is_upper, ascii_lower, LPAREN. intros H. rewrite H.
  apply andb_true_iff in H. destruct H as [H _]. apply N.leb_le in H.
  apply N.eqb_neq. lia.
Qed.

(** The rewritten name holds no parenthesised pair of capitals. *)
Lemma state_codes_all_rewritten (a b : N) (n : nat) (s : pystr) (d : nat) :
  (a =? LPAREN) = false -> (b =? LPAREN) = false ->
  (length s <= n)%nat ->
  is_state_code
    (skipn d (scan (match_here re_ws_state_code) [HYPHEN; a; b] 0 s)) = false.
Proof.
  intros Ha Hb. revert s d.
  induction n as [|n IH]; intros s d Hlen.
  - destruct s; [|simpl in Hlen; lia].
    rewrite scan_nil, match_ws_state_code. simpl. rewrite skipn_nil.
    reflexivity.
  - destruct s as [|c t].
    { rewrite scan_nil, match_ws_state_code. simpl. rewrite skipn_nil.
      reflexivity. }
    destruct (match_here re_ws_state_code (c :: t)) as [[|k]|] eqn:M.
    + rewrite match_ws_state_code in M.
      destruct (is_state_code _); [injection M as M; lia|discriminate].
    + rewrite (scan_cons_some _ _ _ _ _ (match_here_bounded _) M).
      assert (L : (length (skipn (S k) (c :: t)) <= n)%nat).
      { rewrite length_skipn. simpl in *. lia. }
      destruct d as [|[|[|d]]]; cbn [app skipn];
        try (apply is_state_code_head_false; first [exact Ha|exact Hb|reflexivity]).
      apply IH. exact L.
    + rewrite scan_cons, M.
      assert (L : (length t <= n)%nat) by (simpl in Hlen; lia).
      destruct d as [|d]; [|cbn [skipn]; apply IH; exact L].
      cbn [skipn].
      destruct (is_state_code
                  (c :: scan (match_here re_ws_state_code) [HYPHEN; a; b] 0 t))
        eqn:E; [|reflexivity].
      exfalso.
      apply is_state_code_inv in E.
      destruct E as [x [y [r [E [Hx Hy]]]]].
      injection E as -> E.
      destruct (scan_head_copy _ _ HYPHEN [a; b] x t _ eq_refl
                  (upper_not_hyphen _ Hx) E) as [t1 [-> E1]].
      symmetry in E1.
      destruct (scan_head_copy _ _ HYPHEN [a; b] y t1 _ eq_refl
                  (upper_not_hyphen _ Hy) E1) as [t2 [-> E2]].
      symmetry in E2.
      assert (Hr : RPAREN <> HYPHEN) by discriminate.
      destruct (scan_head_copy _ _ HYPHEN [a; b] RPAREN t2 _ eq_refl Hr E2)
        as [t3 [-> _]].
      rewrite state_code_matches in M; [discriminate|].
      simpl. rewrite Hx, Hy. reflexivity.
Qed.

(** The name with its spans deleted holds no opening parenthesis that is
    closed later. *)
Lemma paren_spans_all_deleted (n : nat) (s : pystr) :
  (length s <= n)%nat ->
  paren_span_in (scan (match_here re_ws_paren) [] 0 s) = false.
Proof.
  revert s. induction n as [|n IH]; intros s Hlen.
  - destruct s; [|simpl in Hlen; lia].
    rewrite scan_nil, match_ws_paren. reflexivity.
  - destruct s as [|c t]; [rewrite scan_nil, match_ws_paren; reflexivity|].
    destruct (match_here re_ws_paren (c :: t)) as [[|k]|] eqn:M.
    + rewrite match_ws_paren in M.
      destruct (skipn _ (c :: t)) as [|c' u]; [discriminate|].
      destruct (c' =? LPAREN); [|discriminate].
      destruct (skipn _ u); [discriminate|]. injection M as M. lia.
    + rewrite (scan_cons_some _ _ _ _ _ (match_here_bounded _) M).
      apply IH. rewrite length_skipn. simpl in *. lia.
    + rewrite scan_cons, M. simpl paren_span_in.
      rewrite IH by (simpl in Hlen; lia). rewrite orb_false_r.
      destruct (c =? LPAREN) eqn:C; [|reflexivity]. simpl.
      apply N.eqb_eq in C. subst c.
      rewrite match_ws_paren, lparen_not_space_run in M. cbn [skipn] in M.
      try rewrite N.eqb_refl in M.
      destruct (skipn (run_length not_rparen t) t) eqn:R; [|discriminate].
      apply run_length_full in R.
      assert (F : Forall (fun c => not_rparen c = true)
                    (scan (match_here re_ws_paren) [] 0 t))
        by (apply scan_Forall; [constructor|exact R]).
      destruct (existsb (N.eqb RPAREN) _) eqn:X; [|reflexivity].
      apply existsb_exists in X. destruct X as [c [Hc Ec]].
      apply N.eqb_eq in Ec. subst c.
      rewrite Forall_forall in F. apply F in Hc. discriminate.
Qed.

End ParenStep.

(** *** Names without an opening parenthesis *)

Section Plain.

Context {U : UnicodeData}.

Lemma is_state_code_head (t : pystr) :
  is_state_code t = true -> In LPAREN t.
Proof.
  intros H. apply is_state_code_inv in H.
  destruct H as [x [y [u [-> _]]]]. left. reflexivity.
Qed.

Lemma no_state_code_without_lparen (s : pystr) :
  ~ In LPAREN s -> re_search re_state_code s = None.
Proof.
  intros H. apply search_from_none. intros d. rewrite match_state_code.
  destruct (is_state_code (skipn d s)) eqn:E; [|reflexivity].
  exfalso. apply H. apply (In_skipn _ d). apply is_state_code_head, E.
Qed.

Lemma no_paren_match_without_lparen (s : pystr) :
  ~ In LPAREN s -> match_here re_ws_paren s = None.
Proof.
  intros H. rewrite match_ws_paren.
  destruct (skipn (run_length uni_isspace s) s) as [|c u] eqn:E;
    [reflexivity|].
  destruct (c =? LPAREN) eqn:C; [|reflexivity].
  exfalso. apply H. apply N.eqb_eq in C. subst c.
  apply (In_skipn _ (run_length uni_isspace s)). rewrite E. left. reflexivity.
Qed.

Lemma paren_step_no_lparen (s : pystr) :
  ~ In LPAREN s -> paren_step s = Some s.
Proof.
  intros H. rewrite paren_step_plain by (apply no_state_code_without_lparen, H).
  f_equal. apply scan_no_match. intros i.
  apply no_paren_match_without_lparen. intros Hin. apply H.
  exact (In_skipn _ _ _ Hin).
Qed.

(** *** Idempotence on slugs *)

Lemma slug_char_spec (c : N) :
  slug_char c = true -> 97 <= c <= 122 \/ 48 <= c <= 57 \/ c = 45.
Proof.
  unfold slug_char. intros H.
  apply orb_true_iff in H. destruct H as [H|H].
  - apply orb_true_iff in H.
    destruct H as [H|H]; apply andb_true_iff in H; destruct H as [H1 H2];
      apply N.leb_le in H1, H2; lia.
  - apply N.eqb_eq in H. lia.
Qed.

Lemma slug_char_ascii (c : N) : slug_char c = true -> is_ascii c.
Proof. intros H. apply slug_char_spec in H. unfold is_ascii. lia. Qed.

Lemma slug_char_lower (c : N) : slug_char c = true -> ascii_lower c = c.
Proof.
  intros H. apply slug_char_spec in H. unfold ascii_lower.
  destruct ((65 <=? c) && (c <=? 90)) eqn:E; [|reflexivity].
  apply andb_true_iff in E. destruct E as [E1 E2].
  apply N.leb_le in E1, E2. lia.
Qed.

Lemma slug_char_not_space (c : N) : slug_char c = true -> uni_isspace c = false.
Proof.
  intros H. apply isspace_ascii_false; [apply slug_char_ascii, H|].
  apply slug_char_spec in H. unfold ascii_isspace.
  apply orb_false_iff. split; apply andb_false_iff; right; apply N.leb_gt; lia.
Qed.

Lemma not_slug_char_absent (s : pystr) (c : N) :
  Forall (fun d => slug_char d = true) s -> slug_char c = false -> ~ In c s.
Proof.
  intros H Hc Hin. rewrite Forall_forall in H. apply H in Hin. congruence.
Qed.

Lemma lower_slug_chars (s : pystr) :
  Forall (fun c => slug_char c = true) s -> uni_lower s = s.
Proof.
  intros H. rewrite uni_lower_ascii.
  - induction H as [|c t Hc _ IH]; simpl; [reflexivity|].
    rewrite IH, slug_char_lower by exact Hc. reflexivity.
  - eapply Forall_impl; [|exact H]. apply slug_char_ascii.
Qed.

Lemma spaces_slug_chars (s : pystr) :
  Forall (fun c => slug_char c = true) s ->
  scan (match_here re_spaces) [HYPHEN] 0 s = s.
Proof.
  intros H. apply scan_no_match. intros i. rewrite match_spaces.
  rewrite run_length_none; [reflexivity|].
  apply Forall_skipn. eapply Forall_impl; [|exact H].
  apply slug_char_not_space.
Qed.

Lemma not_slug_slug_chars (s : pystr) :
  Forall (fun c => slug_char c = true) s ->
  scan (match_here re_not_slug) [] 0 s = s.
Proof.
  intros H. apply scan_no_match. intros i. rewrite match_not_slug.
  pose proof (Forall_skipn _ i _ H) as Hi.
  destruct (skipn i s) as [|c t]; [reflexivity|].
  inversion Hi as [|? ? Hc _]; subst. rewrite Hc. reflexivity.
Qed.

Lemma hyphens_single (s : pystr) :
  (forall pre post, s <> pre ++ [HYPHEN; HYPHEN] ++ post) ->
  scan (match_here re_hyphens) [HYPHEN] 0 s = s.
Proof.
  induction s as [|c t IH]; intros H.
  - rewrite scan_nil, match_hyphens. reflexivity.
  - assert (Ht : forall pre post, t <> pre ++ [HYPHEN; HYPHEN] ++ post).
    { intros pre post E. apply (H (c :: pre) post). rewrite E. reflexivity. }
    rewrite scan_cons, match_hyphens. simpl run_length.
    destruct (is_hyphen c) eqn:C.
    + assert (R : run_length is_hyphen t = 0%nat).
      { destruct t as [|d u]; [reflexivity|]. simpl.
        destruct (is_hyphen d) eqn:D; [|reflexivity].
        exfalso. apply (H [] u). unfold is_hyphen in C, D.
        apply N.eqb_eq in C, D. subst. reflexivity. }
      rewrite R, IH by exact Ht.
      unfold is_hyphen in C. apply N.eqb_eq in C. subst c. reflexivity.
    + rewrite IH by exact Ht. reflexivity.
Qed.

Lemma strip_hyphen_id (s : pystr) :
  (forall t, s <> HYPHEN :: t) -> (forall t, s <> t ++ [HYPHEN]) ->
  strip [HYPHEN] s = s.
Proof.
  intros Hhead Hlast. unfold strip.
  assert (E : lstrip [HYPHEN] s = s).
  { apply lstrip_id. intros c t ->. simpl. rewrite orb_false_r.
    apply N.eqb_neq. intros ->. exact (Hhead t eq_refl). }
  rewrite E. unfold rstrip.
  rewrite lstrip_id; [apply rev_involutive|].
  intros c t R. simpl. rewrite orb_false_r.
  apply N.eqb_neq. intros ->. apply (Hlast (rev t)).
  rewrite <- (rev_involutive s), R. reflexivity.
Qed.

Lemma normalise_slug (s : pystr) : valid_slug s -> normalise s = s.
Proof.
  intros [Hchars [Hhead [Hlast Hdouble]]]. unfold normalise.
  rewrite lower_slug_chars by exact Hchars.
  rewrite (replace_absent _ _ s 39)
    by (try (left; reflexivity); apply not_slug_char_absent; auto).
  rewrite (replace_absent _ _ s 39)
    by (try (left; reflexivity); apply not_slug_char_absent; auto).
  rewrite (replace_absent _ _ s 38)
    by (try (right; left; reflexivity); apply not_slug_char_absent; auto).
  rewrite (replace_absent _ _ s 46)
    by (try (left; reflexivity); apply not_slug_char_absent; auto).
  rewrite spaces_slug_chars, not_slug_slug_chars by exact Hchars.
  rewrite hyphens_single by exact Hdouble.
  apply strip_hyphen_id; assumption.
Qed.

(** *** White space only *)

Lemma space_absent (s : pystr) (c : N) :
  Forall (fun d => uni_isspace d = true) s ->
  is_ascii c -> ascii_isspace c = false -> ~ In c s.
Proof.
  intros H A Hc Hin. rewrite Forall_forall in H. apply H in Hin.
  rewrite isspace_ascii_false in Hin by assumption. discriminate.
Qed.

Lemma spaces_collapse (s : pystr) :
  Forall (fun c => uni_isspace c = true) s ->
  scan (match_here re_spaces) [HYPHEN] 0 s =
  match s with [] => [] | _ :: _ => [HYPHEN] end.
Proof.
  intros H. destruct s as [|c t].
  - rewrite scan_nil, match_spaces. reflexivity.
  - assert (M : match_here re_spaces (c :: t) = Some (S (length t))).
    { rewrite match_spaces, (run_length_all _ _ H). reflexivity. }
    rewrite (scan_cons_some _ _ _ _ _ (match_here_bounded _) M).
    change (S (length t)) with (length (c :: t)). rewrite skipn_all.
    rewrite scan_nil, match_spaces. reflexivity.
Qed.

Lemma normalise_spaces (s : pystr) :
  Forall (fun c => uni_isspace c = true) s -> normalise s = [].
Proof.
  intros H. unfold normalise.
  rewrite uni_lower_space by exact H.
  rewrite (replace_absent _ _ s 39)
    by (try (left; reflexivity); apply space_absent; auto; reflexivity).
  rewrite (replace_absent _ _ s 39)
    by (try (left; reflexivity); apply space_absent; auto; reflexivity).
  rewrite (replace_absent _ _ s 38)
    by (try (right; left; reflexivity); apply space_absent; auto;
        reflexivity).
  rewrite (replace_absent _ _ s 46)
    by (try (left; reflexivity); apply space_absent; auto; reflexivity).
  rewrite spaces_collapse by exact H.
  destruct s; reflexivity.
Qed.

End Plain.

(** *** Named inputs *)

Ltac run_ascii :=
  intros;
  rewrite ?create_slug_ascii, ?simple_create_slug_ascii
    by (apply is_asciib_sound; reflexivity);
  reflexivity.

Lemma create_slug_iowa_state (U : UnicodeData) :
  create_slug (py "Iowa State") = Some (py "iowa-state").
Proof. run_ascii. Qed.

Lemma create_slug_miami_fl (U : UnicodeData) :
  create_slug (py "Miami (FL)") = Some (py "miami-fl").
Proof. run_ascii. Qed.

Lemma create_slug_saint_marys_ca (U : UnicodeData) :
  create_slug (py "Saint Mary's (CA)") = Some (py "saint-marys-ca").
Proof. run_ascii. Qed.

Lemma create_slug_arkansas_pine_bluff (U : UnicodeData) :
  create_slug (py "Arkansas-Pine Bluff") = Some (py "arkansas-pine-bluff").
Proof. run_ascii. Qed.

Lemma create_slug_william_mary (U : UnicodeData) :
  create_slug (py "William & Mary") = Some (py "william-mary").
Proof. run_ascii. Qed.

Lemma create_slug_st_johns (U : UnicodeData) :
  create_slug (py "St. John's") = Some (py "st-johns").
Proof. run_ascii. Qed.

Lemma create_slug_empty (U : UnicodeData) : create_slug (py "") = Some (py "").
Proof. run_ascii. Qed.

Lemma create_slug_uc_irvine (U : UnicodeData) :
  create_slug (py "UC Irvine") = Some (py "uc-irvine").
Proof. run_ascii. Qed.

Lemma scan_one_delete {U : UnicodeData} (cs : cset) (s : pystr) :
  scan (match_here [one cs]) [] 0 s
  = filter (fun c => negb (cset_matches cs c)) s.
Proof.
  induction s as [|c t IH].
  - rewrite scan_nil, match_here_one. reflexivity.
  - rewrite scan_cons, match_here_one. cbn [filter].
    destruct (cset_matches cs c).
    + change (match_here [] t) with (Some 0%nat).
      cbn [option_map negb app]. exact IH.
    + cbn [negb]. rewrite IH. reflexivity.
Qed.

Lemma word_char_not_deleted {U : UnicodeData} (c : N) :
  uni_isalnum c = true \/ c = UNDERSCORE ->
  cset_matches cs_not_word_space_hyphen c = false.
Proof.
  intros H. unfold cset_matches. cbn [cs_neg cs_atoms cs_not_word_space_hyphen
    existsb atom_matches].
  assert (W : uni_isalnum c || (c =? UNDERSCORE) = true).
  { destruct H as [H| ->]; [rewrite H; reflexivity|].
    rewrite N.eqb_refl. apply orb_true_r. }
  rewrite W. reflexivity.
Qed.

(** *** Where the two rules agree *)

Lemma collapse_runs_cons (f : N -> bool) (r : N) (c : N) (t : pystr) :
  collapse_runs f r (c :: t)
  = if f c then
      if hd_in f t then collapse_runs f r t else r :: collapse_runs f r t
    else c :: collapse_runs f r t.
Proof. reflexivity. Qed.

Lemma collapse_run_skip (f : N -> bool) (r : N) (t : pystr) (c : N) :
  f c = true ->
  collapse_runs f r (c :: t)
  = r :: collapse_runs f r (skipn (run_length f t) t).
Proof.
  revert c. induction t as [|d t IH]; intros c Hc;
    rewrite collapse_runs_cons, Hc.
  - reflexivity.
  - cbn [hd_in run_length]. destruct (f d) eqn:D; cbn [skipn].
    + apply IH. exact D.
    + reflexivity.
Qed.

Lemma collapse_runs_ext (f g : N -> bool) (r : N) (s : pystr) :
  (forall c, f c = g c) -> collapse_runs f r s = collapse_runs g r s.
Proof.
  intros H. induction s as [|c t IH]; [reflexivity|].
  cbn [collapse_runs]. rewrite IH, H.
  destruct t as [|d t]; cbn [hd_in]; rewrite ?H; reflexivity.
Qed.

Lemma collapse_runs_hd (f : N -> bool) (r : N) (s : pystr) :
  hd_in f s = true -> exists z, collapse_runs f r s = r :: z.
Proof.
  destruct s as [|c t]; [discriminate|]. cbn [hd_in]. intros H.
  rewrite (collapse_run_skip f r t c H). eauto.
Qed.

(** [re.sub] of a pattern [cs+] by one character. *)
Lemma scan_plus_collapse {U : UnicodeData} (cs : cset) (r : N) (n : nat)
    (s : pystr) :
  (length s <= n)%nat ->
  scan (match_here [plus cs]) [r] 0 s = collapse_runs (cset_matches cs) r s.
Proof.
  revert s. induction n as [|n IH]; intros s Hlen.
  - destruct s; [|simpl in Hlen; lia].
    rewrite scan_nil. unfold plus. rewrite match_here_run. reflexivity.
  - destruct s as [|c t].
    { rewrite scan_nil. unfold plus. rewrite match_here_run. reflexivity. }
    destruct (cset_matches cs c) eqn:C.
    + assert (M : match_here [plus cs] (c :: t)
                  = Some (S (run_length (cset_matches cs) t))).
      { unfold plus. rewrite match_here_run. cbn [run_length]. rewrite C.
        reflexivity. }
      rewrite (scan_cons_some _ _ _ _ _ (match_here_bounded _) M).
      rewrite (collapse_run_skip _ r t c C). cbn [app skipn]. f_equal.
      apply IH. rewrite length_skipn. simpl in Hlen. lia.
    + assert (M : match_here [plus cs] (c :: t) = None).
      { unfold plus. rewrite match_here_run. cbn [run_length]. rewrite C.
        reflexivity. }
      rewrite scan_cons, M. cbn [collapse_runs]. rewrite C. f_equal.
      apply IH. simpl in Hlen. lia.
Qed.

Lemma squeeze_hd (s : pystr) : hd_in is_hyphen (squeeze s) = hd_in is_hyphen s.
Proof.
  destruct s as [|c t]; [reflexivity|].
  unfold squeeze. cbn [hd_in]. destruct (is_hyphen c) eqn:C.
  - rewrite (collapse_run_skip _ _ _ _ C). reflexivity.
  - cbn [collapse_runs]. rewrite C. cbn [hd_in]. exact C.
Qed.

Lemma squeeze_cons (c : N) (a : pystr) :
  squeeze (c :: a)
  = if is_hyphen c && hd_in is_hyphen (squeeze a) then squeeze a
    else c :: squeeze a.
Proof.
  rewrite squeeze_hd. unfold squeeze. cbn [collapse_runs].
  destruct (is_hyphen c) eqn:C; [|reflexivity].
  destruct (hd_in is_hyphen a); [reflexivity|].
  unfold is_hyphen in C. apply N.eqb_eq in C. subst c. reflexivity.
Qed.

Lemma squeeze_cons_congr (c : N) (a b : pystr) :
  squeeze a = squeeze b -> squeeze (c :: a) = squeeze (c :: b).
Proof. intros H. rewrite !squeeze_cons, H. reflexivity. Qed.

Lemma squeeze_app_congr (x a b : pystr) :
  squeeze a = squeeze b -> squeeze (x ++ a) = squeeze (x ++ b).
Proof.
  intros H. induction x as [|c x IH]; [exact H|].
  cbn [app]. apply squeeze_cons_congr, IH.
Qed.

Lemma squeeze_absorb (a : pystr) :
  squeeze (HYPHEN :: HYPHEN :: a) = squeeze (HYPHEN :: a).
Proof. reflexivity. Qed.

Lemma space_not_slug_char (c : N) :
  ascii_isspace c = true -> slug_char c = false.
Proof.
  intros H. destruct (slug_char c) eqn:S; [|reflexivity].
  apply slug_char_spec in S. unfold ascii_isspace in H.
  apply orb_true_iff in H.
  destruct H as [H|H]; apply andb_true_iff in H; destruct H as [H1 H2];
    apply N.leb_le in H1, H2; lia.
Qed.

Lemma keep_space (c : N) (t : pystr) :
  ascii_isspace c = true -> keep (c :: t) = HYPHEN :: keep t.
Proof.
  intros H. unfold keep. cbn [flat_map]. unfold keep_char at 1.
  rewrite (space_not_slug_char _ H), H. reflexivity.
Qed.

Lemma keep_slug_char (c : N) (t : pystr) :
  slug_char c = true -> keep (c :: t) = c :: keep t.
Proof.
  intros H. unfold keep. cbn [flat_map]. unfold keep_char at 1.
  rewrite H. reflexivity.
Qed.

Lemma keep_other (c : N) (t : pystr) :
  slug_char c = false -> ascii_isspace c = false -> keep (c :: t) = keep t.
Proof.
  intros H1 H2. unfold keep. cbn [flat_map]. unfold keep_char at 1.
  rewrite H1, H2. reflexivity.
Qed.

Lemma keep_app (a b : pystr) : keep (a ++ b) = keep a ++ keep b.
Proof. apply flat_map_app. Qed.

(** White-space runs to hyphens, then the filter of [create_slug]. *)
Lemma filter_spaces_keep (x : pystr) :
  squeeze (filter slug_char (collapse_runs ascii_isspace HYPHEN x))
  = squeeze (keep x).
Proof.
  induction x as [|c x IH]; [reflexivity|].
  cbn [collapse_runs]. destruct (ascii_isspace c) eqn:C.
  - rewrite (keep_space _ _ C).
    destruct (hd_in ascii_isspace x) eqn:D.
    + rewrite IH. destruct x as [|d x]; [discriminate|]. cbn [hd_in] in D.
      rewrite (keep_space _ _ D). symmetry. apply squeeze_absorb.
    + cbn [filter]. change (slug_char HYPHEN) with true. cbv iota.
      apply squeeze_cons_congr, IH.
  - cbn [filter]. destruct (slug_char c) eqn:S.
    + rewrite (keep_slug_char _ _ S). apply squeeze_cons_congr, IH.
    + rewrite (keep_other _ _ S C). exact IH.
Qed.

(** The filter of [simple_create_slug] on a name without capitals and
    underscores, then white-space runs to hyphens. *)
Lemma spaces_filter_keep (t : pystr) :
  squeeze
    (collapse_runs ascii_isspace HYPHEN
       (filter (fun c => slug_char c || ascii_isspace c) t))
  = squeeze (keep t).
Proof.
  induction t as [|c t IH]; [reflexivity|].
  cbn [filter]. destruct (ascii_isspace c) eqn:C.
  - rewrite orb_true_r, (keep_space _ _ C). cbn [collapse_runs]. rewrite C.
    destruct (hd_in ascii_isspace
                (filter (fun c => slug_char c || ascii_isspace c) t)) eqn:D.
    + destruct (collapse_runs_hd _ HYPHEN _ D) as [z Z].
      rewrite Z in *. rewrite <- (squeeze_cons_congr HYPHEN _ _ IH).
      symmetry. apply squeeze_absorb.
    + apply squeeze_cons_congr, IH.
  - rewrite orb_false_r. destruct (slug_char c) eqn:S.
    + rewrite (keep_slug_char _ _ S). cbn [collapse_runs]. rewrite C.
      apply squeeze_cons_congr, IH.
    + rewrite (keep_other _ _ S C). exact IH.
Qed.

(** [str.replace], one occurrence at a time *)

Lemma starts_with_length (old s : pystr) :
  starts_with old s = true -> (length old <= length s)%nat.
Proof.
  revert s. induction old as [|a old IH]; intros s H; simpl; [lia|].
  destruct s as [|b s]; [discriminate|].
  cbn [starts_with] in H. apply andb_true_iff in H. destruct H as [_ H].
  apply IH in H. simpl. lia.
Qed.

Lemma starts_with_split (old s : pystr) :
  starts_with old s = true -> s = old ++ skipn (length old) s.
Proof.
  revert s. induction old as [|a old IH]; intros s H; [reflexivity|].
  destruct s as [|b s]; [discriminate|].
  cbn [starts_with] in H. apply andb_true_iff in H. destruct H as [E H].
  apply N.eqb_eq in E. subst b. cbn [length skipn app]. f_equal.
  apply IH, H.
Qed.

Lemma replace_bounded (old : pystr) :
  bounded (fun t => if starts_with old t then Some (length old) else None).
Proof.
  intros s n. destruct (starts_with old s) eqn:E; [|discriminate].
  intros H. injection H as <-. apply starts_with_length, E.
Qed.

Lemma replace_hit (a : N) (old new s : pystr) :
  starts_with (a :: old) s = true ->
  replace (a :: old) new s
  = new ++ replace (a :: old) new (skipn (length (a :: old)) s).
Proof.
  intros H. unfold replace.
  apply (scan_some _ _ _ _ (replace_bounded (a :: old))).
  rewrite H. reflexivity.
Qed.

Lemma replace_miss (old new : pystr) (c : N) (t : pystr) :
  starts_with old (c :: t) = false ->
  replace old new (c :: t) = c :: replace old new t.
Proof. intros H. unfold replace. rewrite scan_cons, H. reflexivity. Qed.

(** A replacement whose two sides contribute the same, up to squeezing,
    does not change what the name contributes. *)
Lemma keep_replace (a : N) (old new : pystr) (n : nat) (x : pystr) :
  (forall u v, squeeze u = squeeze v ->
               squeeze (keep new ++ u) = squeeze (keep (a :: old) ++ v)) ->
  (length x <= n)%nat ->
  squeeze (keep (replace (a :: old) new x)) = squeeze (keep x).
Proof.
  intros H. revert x. induction n as [|n IH]; intros x Hlen.
  - destruct x; [reflexivity|simpl in Hlen; lia].
  - destruct x as [|c t]; [reflexivity|].
    destruct (starts_with (a :: old) (c :: t)) eqn:E.
    + rewrite (replace_hit _ _ _ _ E), keep_app.
      rewrite (starts_with_split _ _ E) at 2. rewrite keep_app.
      apply H, IH. rewrite length_skipn. simpl in *. lia.
    + rewrite (replace_miss _ _ _ _ E).
      change (keep (c :: ?y)) with (keep_char c ++ keep y).
      apply squeeze_app_congr, IH. simpl in Hlen. lia.
Qed.

Lemma keep_replace_all (a : N) (old new x : pystr) :
  (forall u v, squeeze u = squeeze v ->
               squeeze (keep new ++ u) = squeeze (keep (a :: old) ++ v)) ->
  squeeze (keep (replace (a :: old) new x)) = squeeze (keep x).
Proof. intros H. apply (keep_replace a old new (length x) x H), Nat.le_refl. Qed.

Lemma not_In_b (c : N) (s : pystr) :
  existsb (N.eqb c) s = false -> ~ In c s.
Proof.
  intros H Hin. assert (X : existsb (N.eqb c) s = true)
    by (apply existsb_exists; exists c; split; [exact Hin|apply N.eqb_refl]).
  congruence.
Qed.

Lemma scan_hyphens_squeeze {U : UnicodeData} (z : pystr) :
  scan (match_here re_hyphens) [HYPHEN] 0 z = squeeze z.
Proof.
  unfold re_hyphens. rewrite (scan_plus_collapse _ _ (length z))
    by apply Nat.le_refl.
  apply collapse_runs_ext. intros c. apply cset_lit.
Qed.

Lemma scan_spaces_collapse {U : UnicodeData} (z : pystr) :
  scan (match_here re_spaces) [HYPHEN] 0 z
  = collapse_runs uni_isspace HYPHEN z.
Proof.
  unfold re_spaces. rewrite (scan_plus_collapse _ _ (length z))
    by apply Nat.le_refl.
  apply collapse_runs_ext. intros c. apply cset_space.
Qed.

Lemma scan_not_slug_filter {U : UnicodeData} (z : pystr) :
  scan (match_here re_not_slug) [] 0 z = filter slug_char z.
Proof.
  unfold re_not_slug. rewrite scan_one_delete. apply filter_ext.
  intros c. rewrite cset_not_slug. apply negb_involutive.
Qed.

(** On the ASCII rows the rich rule squeezes what the lowered name
    contributes. *)
Lemma normalise_ascii_keep (s : pystr) :
  @normalise ascii_unicode s
  = strip [HYPHEN] (squeeze (keep (map ascii_lower s))).
Proof.
  unfold normalise.
  change (@uni_lower ascii_unicode s) with (map ascii_lower s).
  rewrite scan_hyphens_squeeze, scan_not_slug_filter, scan_spaces_collapse.
  change (@uni_isspace ascii_unicode) with ascii_isspace.
  f_equal. rewrite filter_spaces_keep.
  change (py ".") with [46]. change (py " & ") with [32; 38; 32].
  change (py "'") with [39]. change (py "'s") with [39; 115].
  change (py "s") with [115]. change (py "-") with [HYPHEN].
  rewrite (keep_replace_all 46 [] []) by (intros u v H; exact H).
  rewrite (keep_replace_all 32 [38; 32] [HYPHEN]).
  2:{ intros u v H. change (keep [HYPHEN]) with [HYPHEN].
      change (keep [32; 38; 32]) with [HYPHEN; HYPHEN]. cbn [app].
      rewrite squeeze_absorb. apply squeeze_cons_congr, H. }
  rewrite (keep_replace_all 39 [] []) by (intros u v H; exact H).
  rewrite (keep_replace_all 39 [115] [115]); [reflexivity|].
  intros u v H. change (keep [115]) with [115].
  change (keep [39; 115]) with [115]. cbn [app].
  apply squeeze_cons_congr, H.
Qed.

Lemma lower_not_upper (c : N) : is_upper (ascii_lower c) = false.
Proof.
  unfold ascii_lower. destruct (is_upper c) eqn:E.
  - unfold is_upper in E. rewrite E. unfold is_upper in *.
    apply andb_true_iff in E. destruct E as [E1 E2].
    apply N.leb_le in E1, E2.
    apply andb_false_iff. right. apply N.leb_gt. lia.
  - unfold is_upper in E. rewrite E. exact E.
Qed.

Lemma lower_not_underscore (c : N) :
  c <> UNDERSCORE -> (ascii_lower c =? UNDERSCORE) = false.
Proof.
  intros H. apply N.eqb_neq. unfold ascii_lower.
  destruct ((65 <=? c) && (c <=? 90)) eqn:E; [|exact H].
  apply andb_true_iff in E. destruct E as [E1 E2].
  apply N.leb_le in E1, E2. unfold UNDERSCORE. lia.
Qed.

Lemma simple_filter_char (c : N) :
  is_upper c = false -> (c =? UNDERSCORE) = false ->
  negb (@cset_matches ascii_unicode cs_not_word_space_hyphen c)
  = slug_char c || ascii_isspace c.
Proof.
  intros Hu Hs. unfold cset_matches.
  cbn [cs_neg cs_atoms cs_not_word_space_hyphen existsb atom_matches xorb].
  change (@uni_isalnum ascii_unicode c) with (ascii_isalnum c).
  change (@uni_isspace ascii_unicode c) with (ascii_isspace c).
  rewrite Hs. unfold ascii_isalnum, slug_char.
  unfold is_upper in Hu. rewrite Hu.
  change (c =? HYPHEN) with (c =? 45).
  destruct ((48 <=? c) && (c <=? 57)), ((97 <=? c) && (c <=? 122)),
    (ascii_isspace c), (c =? 45); reflexivity.
Qed.

(** On the ASCII rows, and without an underscore in the name, so does the
    simple rule. *)
Lemma simple_ascii_keep (s : pystr) :
  ~ In UNDERSCORE s ->
  @simple_create_slug ascii_unicode s
  = Some (strip [HYPHEN] (squeeze (keep (map ascii_lower s)))).
Proof.
  intros Hs. unfold simple_create_slug.
  change (@uni_lower ascii_unicode s) with (map ascii_lower s).
  rewrite re_sub_literal by reflexivity. cbn [bind].
  rewrite re_sub_literal by reflexivity. cbn [bind].
  rewrite re_sub_literal by reflexivity. cbn [bind].
  change (py "-") with [HYPHEN].
  rewrite scan_hyphens_squeeze, scan_spaces_collapse.
  change (@uni_isspace ascii_unicode) with ascii_isspace.
  unfold re_not_word_space_hyphen. rewrite scan_one_delete.
  rewrite (filter_ext_in _ (fun c => slug_char c || ascii_isspace c)).
  - rewrite spaces_filter_keep. reflexivity.
  - intros c Hc. apply in_map_iff in Hc. destruct Hc as [d [<- Hd]].
    apply simple_filter_char; [apply lower_not_upper|].
    apply lower_not_underscore. intros ->. exact (Hs Hd).
Qed.

Lemma slug_rules_agree (U : UnicodeData) (s : pystr) :
  Forall is_ascii s -> ~ In LPAREN s -> ~ In UNDERSCORE s ->
  create_slug s = simple_create_slug s.
Proof.
  intros Ha Hp Hu.
  rewrite create_slug_ascii, simple_create_slug_ascii by exact Ha.
  rewrite create_slug_unfold, (paren_step_no_lparen _ Hp).
  cbn [option_map]. rewrite normalise_ascii_keep, (simple_ascii_keep _ Hu).
  reflexivity.
Qed.

(** *** Deleting one span after a closed prefix *)

Lemma run_length_app_short (f : N -> bool) (a b : pystr) :
  (run_length f a < length a)%nat -> run_length f (a ++ b) = run_length f a.
Proof.
  induction a as [|c a IH]; simpl; intros H; [lia|].
  destruct (f c); [|reflexivity]. f_equal. apply IH. lia.
Qed.

Lemma run_length_app_all (f : N -> bool) (a b : pystr) :
  forallb f a = true ->
  run_length f (a ++ b) = (length a + run_length f b)%nat.
Proof.
  induction a as [|c a IH]; simpl; intros H; [reflexivity|].
  apply andb_true_iff in H. destruct H as [Hc H].
  rewrite Hc, IH by exact H. reflexivity.
Qed.

Lemma skipn_app_length {A} (a b : list A) (n : nat) :
  skipn (length a + n) (a ++ b) = skipn n b.
Proof. induction a as [|c a IH]; simpl; [reflexivity|exact IH]. Qed.

Lemma skipn_app_inside {A} (a b : list A) (n : nat) :
  (n <= length a)%nat -> skipn n (a ++ b) = skipn n a ++ b.
Proof.
  intros H. rewrite skipn_app.
  replace (n - length a)%nat with 0%nat by lia. reflexivity.
Qed.

Lemma skipn_short_cons {A} (n : nat) (l : list A) :
  (n < length l)%nat -> exists c u, skipn n l = c :: u.
Proof.
  intros H. destruct (skipn n l) as [|c u] eqn:E; [|eauto].
  apply (f_equal (@length A)) in E. rewrite length_skipn in E.
  simpl in E. lia.
Qed.

Lemma rparen_stops_run (u : pystr) :
  existsb (N.eqb RPAREN) u = true ->
  (run_length not_rparen u < length u)%nat.
Proof.
  induction u as [|c u IH]; cbn [existsb run_length length]; [discriminate|].
  unfold not_rparen at 1. rewrite (N.eqb_sym RPAREN c).
  destruct (c =? RPAREN); cbn [negb orb]; [lia|].
  intros H. apply IH in H. lia.
Qed.

Lemma closed_parens_skipn (n : nat) (s : pystr) :
  closed_parens s = true -> closed_parens (skipn n s) = true.
Proof.
  revert s. induction n as [|n IH]; intros s H; [exact H|].
  destruct s as [|c t]; [reflexivity|].
  simpl in H. apply andb_true_iff in H. destruct H as [_ H].
  simpl. apply IH, H.
Qed.

Lemma closed_parens_head (u : pystr) :
  closed_parens (LPAREN :: u) = true -> existsb (N.eqb RPAREN) u = true.
Proof.
  simpl. intros H. apply andb_true_iff in H. destruct H as [H _]. exact H.
Qed.

Lemma existsb_rparen_In (t : pystr) :
  existsb (N.eqb RPAREN) t = true -> In RPAREN t.
Proof.
  intros H. apply existsb_exists in H. destruct H as [z [Hz Ez]].
  apply N.eqb_eq in Ez. subst z. exact Hz.
Qed.

Lemma no_state_code_join (pre mid post : pystr) :
  closed_parens pre = true ->
  (forall d, is_state_code (skipn d (pre ++ mid ++ post)) = false) ->
  forall d, is_state_code (skipn d (pre ++ post)) = false.
Proof.
  induction pre as [|c t IH]; intros Hc H d.
  - simpl. rewrite <- (skipn_app_length mid post d). apply (H _).
  - destruct d as [|d].
    + cbn [skipn app].
      destruct (is_state_code (c :: t ++ post)) eqn:E; [|reflexivity].
      exfalso. apply is_state_code_inv in E.
      destruct E as [x [y [r [E [Hx Hy]]]]].
      injection E as -> E.
      apply closed_parens_head, existsb_rparen_In in Hc.
      specialize (H 0%nat). cbn [skipn app] in H.
      assert (Hr : is_upper RPAREN = false) by reflexivity.
      destruct t as [|x' [|y' [|z' t']]]; cbn [app] in E, H.
      * destruct Hc.
      * injection E; intros; subst.
        destruct Hc as [Hc|[]]. congruence.
      * injection E; intros; subst.
        destruct Hc as [Hc|[Hc|[]]]; congruence.
      * injection E; intros; subst.
        cbn [is_state_code] in H. rewrite Hx, Hy in H. discriminate.
    + cbn [skipn app]. apply IH.
      * apply (closed_parens_skipn 1 (c :: t)), Hc.
      * intros e. exact (H (S e)).
Qed.

Section OneSpan.

Context {U : UnicodeData}.

Lemma ends_in_space_run (s : pystr) :
  s <> [] -> ends_in_space s = false ->
  (run_length uni_isspace s < length s)%nat.
Proof.
  intros Hs He.
  pose proof (run_length_le uni_isspace s) as L.
  destruct (Nat.eq_dec (run_length uni_isspace s) (length s)) as [E|E];
    [|lia].
  exfalso.
  assert (F : Forall (fun c => uni_isspace c = true) s).
  { apply run_length_full. rewrite E. apply skipn_all. }
  unfold ends_in_space in He.
  destruct (rev s) as [|c r] eqn:R.
  - apply Hs. rewrite <- (rev_involutive s), R. reflexivity.
  - rewrite Forall_forall in F. rewrite F in He; [discriminate|].
    apply in_rev. rewrite R. left. reflexivity.
Qed.

Lemma ends_in_space_skipn (n : nat) (s : pystr) :
  ends_in_space s = false -> ends_in_space (skipn n s) = false.
Proof.
  unfold ends_in_space. intros H.
  rewrite <- (firstn_skipn n s), rev_app_distr in H.
  destruct (rev (skipn n s)); [reflexivity|exact H].
Qed.

Lemma match_ws_paren_app (pre rest : pystr) :
  pre <> [] -> closed_parens pre = true -> ends_in_space pre = false ->
  match_here re_ws_paren (pre ++ rest) = match_here re_ws_paren pre.
Proof.
  intros Hne Hc He. rewrite !match_ws_paren.
  pose proof (ends_in_space_run _ Hne He) as K.
  rewrite run_length_app_short by exact K.
  rewrite skipn_app_inside by lia.
  destruct (skipn_short_cons _ _ K) as [c [u E]]. rewrite E.
  cbn [app]. destruct (c =? LPAREN) eqn:C; [|reflexivity].
  apply N.eqb_eq in C. subst c.
  pose proof (closed_parens_skipn (run_length uni_isspace pre) _ Hc) as Hu.
  rewrite E in Hu. apply closed_parens_head, rparen_stops_run in Hu.
  rewrite run_length_app_short by exact Hu.
  rewrite skipn_app_inside by lia.
  destruct (skipn_short_cons _ _ Hu) as [d [v ->]]. reflexivity.
Qed.

Lemma scan_paren_app (n : nat) (pre rest : pystr) :
  (length pre <= n)%nat ->
  closed_parens pre = true -> ends_in_space pre = false ->
  scan (match_here re_ws_paren) [] 0 (pre ++ rest) =
  scan (match_here re_ws_paren) [] 0 pre
  ++ scan (match_here re_ws_paren) [] 0 rest.
Proof.
  revert pre. induction n as [|n IH]; intros pre Hlen Hc He.
  - destruct pre; [|simpl in Hlen; lia].
    rewrite scan_nil, match_ws_paren. reflexivity.
  - destruct pre as [|c t]; [rewrite scan_nil, match_ws_paren; reflexivity|].
    assert (M : match_here re_ws_paren ((c :: t) ++ rest)
                = match_here re_ws_paren (c :: t))
      by (apply match_ws_paren_app; [discriminate|assumption..]).
    destruct (match_here re_ws_paren (c :: t)) as [[|k]|] eqn:Mp.
    + rewrite match_ws_paren in Mp.
      destruct (skipn _ (c :: t)) as [|c' u]; [discriminate|].
      destruct (c' =? LPAREN); [|discriminate].
      destruct (skipn _ u); [discriminate|]. injection Mp as Mp. lia.
    + rewrite (scan_some _ _ _ _ (match_here_bounded _) M).
      rewrite (scan_some _ _ _ _ (match_here_bounded _) Mp).
      pose proof (match_here_bounded _ _ _ Mp) as B.
      rewrite skipn_app_inside by exact B.
      apply IH.
      * rewrite length_skipn. simpl in *. lia.
      * apply closed_parens_skipn, Hc.
      * apply ends_in_space_skipn, He.
    + change ((c :: t) ++ rest) with (c :: (t ++ rest)) in *.
      rewrite !scan_cons, M, Mp. cbn [app]. f_equal.
      apply IH.
      * simpl in Hlen. lia.
      * apply (closed_parens_skipn 1 (c :: t)), Hc.
      * apply (ends_in_space_skipn 1 (c :: t)), He.
Qed.

Lemma scan_paren_span (ws content post : pystr) :
  forallb uni_isspace ws = true ->
  existsb (N.eqb RPAREN) content = false ->
  scan (match_here re_ws_paren) [] 0
    (ws ++ LPAREN :: content ++ RPAREN :: post)
  = scan (match_here re_ws_paren) [] 0 post.
Proof.
  intros Hws Hcontent.
  assert (R : run_length not_rparen (content ++ RPAREN :: post)
              = length content).
  { rewrite run_length_app_all.
    - change (run_length not_rparen (RPAREN :: post)) with 0%nat. lia.
    - apply forallb_forall. intros c Hc. unfold not_rparen.
      destruct (c =? RPAREN) eqn:E; [|reflexivity].
      apply N.eqb_eq in E. subst c.
      assert (X : existsb (N.eqb RPAREN) content = true)
        by (apply existsb_exists; exists RPAREN; split;
            [exact Hc|apply N.eqb_refl]).
      congruence. }
  assert (M : match_here re_ws_paren (ws ++ LPAREN :: content ++ RPAREN :: post)
              = Some (S (length ws + (length content + 1)))).
  { rewrite match_ws_paren, run_length_app_all by exact Hws.
    rewrite lparen_not_space_run, Nat.add_0_r.
    rewrite <- (Nat.add_0_r (length ws)) at 1.
    rewrite skipn_app_length. cbn [skipn].
    change (LPAREN =? LPAREN) with true. cbv iota.
    rewrite R.
    rewrite <- (Nat.add_0_r (length content)) at 1.
    rewrite skipn_app_length. cbn [skipn]. f_equal. lia. }
  rewrite (scan_some _ _ _ _ (match_here_bounded _) M). cbn [app].
  f_equal.
  replace (S (length ws + (length content + 1)))
    with (length ws + (1 + (length content + 1)))%nat by lia.
  rewrite skipn_app_length. cbn [skipn Nat.add].
  rewrite skipn_app_length. reflexivity.
Qed.

End OneSpan.

(** * The claims about create_slugs.py and get_all_teams.py *)

(** C1. For every input string [create_slug] returns a string made of
    lowercase ASCII letters, digits and hyphens only, with no hyphen at either
    end and no two hyphens in a row. *)
Theorem create_slug_valid (U : UnicodeData) (school_name : pystr) :
  exists slug, create_slug school_name = Some slug /\ valid_slug slug.
Proof.
  destruct (create_slug_returns school_name) as [p [_ H]].
  exists (normalise p). split; [exact H|].
  unfold normalise. apply finish_valid.
Qed.

(** C2, as stated, fails: with two parenthesised spans in the name the step
    rewrites both ("(OH)" even gets the letters of "(FL)"), or deletes
    both. *)
Lemma paren_step_two_spans :
  (forall U : UnicodeData,
     paren_step (py "Miami (FL) (OH)") = Some (py "Miami-fl-fl"))
  /\ (forall U : UnicodeData, paren_step (py "A (x) (y)") = Some (py "A")).
Proof.
  split; intros U;
    rewrite paren_step_ascii by (apply is_asciib_sound; reflexivity);
    reflexivity.
Qed.

(** C2, amended.  Only the first parenthesised pair of capitals is looked
    at: it chooses the branch and the letters.  The branch then acts on every
    span of its kind: with a state code in the name no parenthesised pair of
    capitals is left, without one no opening parenthesis with a closing one
    after it is left. *)
Theorem paren_step_all_spans (U : UnicodeData) (s : pystr) :
  exists out,
    paren_step s = Some out
    /\ ((exists i x y t,
           skipn i s = LPAREN :: x :: y :: RPAREN :: t
           /\ is_upper x = true /\ is_upper y = true
           /\ (forall j, (j < i)%nat -> is_state_code (skipn j s) = false)
           /\ out = scan (match_here re_ws_state_code)
                      [HYPHEN; ascii_lower x; ascii_lower y] 0 s
           /\ ~ has_state_code out)
        \/ (~ has_state_code s
            /\ out = scan (match_here re_ws_paren) [] 0 s
            /\ ~ has_paren_span out)).
Proof.
  destruct (re_search re_state_code s) as [[i n]|] eqn:E.
  - destruct (paren_step_state _ _ _ E) as [x [y [t [Hs [Hx [Hy H]]]]]].
    eexists. split; [exact H|]. left.
    exists i, x, y, t. repeat (split; [assumption|]).
    split; [|split; [reflexivity|]].
    + intros j Hj.
      pose proof (search_from_first _ _ _ _ _ E j Hj) as F.
      rewrite match_state_code in F.
      destruct (is_state_code (skipn j s)); [discriminate|reflexivity].
    + intros C. apply has_state_code_at in C. destruct C as [d C].
      rewrite (state_codes_all_rewritten _ _ (length s)) in C;
        [discriminate| | |apply Nat.le_refl];
        apply lower_upper_not_lparen; assumption.
  - eexists. split; [exact (paren_step_plain _ E)|]. right.
    split; [|split; [reflexivity|]].
    + intros C. apply has_state_code_at in C. destruct C as [d C].
      pose proof (search_from_found _ _ _ E d) as F.
      rewrite match_state_code, C in F. discriminate.
    + intros C. apply has_paren_span_in in C.
      rewrite (paren_spans_all_deleted (length s)) in C;
        [discriminate|apply Nat.le_refl].
Qed.

(** C3. On a string that already is a slug, [create_slug] returns it
    unchanged. *)
Theorem create_slug_idempotent (U : UnicodeData) (s : pystr) :
  valid_slug s -> create_slug s = Some s.
Proof.
  intros H. rewrite create_slug_unfold, paren_step_no_lparen.
  - simpl. f_equal. apply normalise_slug, H.
  - destruct H as [H _]. apply not_slug_char_absent; [exact H|reflexivity].
Qed.

Lemma create_slug_idempotent_iowa_state :
  valid_slug (py "iowa-state")
  /\ forall U : UnicodeData, create_slug (py "iowa-state") = Some (py "iowa-state").
Proof.
  assert (V : valid_slug (py "iowa-state"))
    by (apply valid_slugb_sound; reflexivity).
  split; [exact V|].
  intros U. exact (create_slug_idempotent U (py "iowa-state") V).
Defined.

(** C4. Seven of the eight named examples give the slug that is claimed.
    "Albany (NY)" does not give "albany": "(NY)" is a parenthesised pair of
    capitals, so the state-code branch runs and the result is "albany-ny".
    The docstring of [create_slug] and the comment above the branch both
    promise "albany". *)
Theorem create_slug_named_examples (U : UnicodeData) :
  create_slug (py "Miami (FL)") = Some (py "miami-fl")
  /\ create_slug (py "Saint Mary's (CA)") = Some (py "saint-marys-ca")
  /\ create_slug (py "Iowa State") = Some (py "iowa-state")
  /\ create_slug (py "Arkansas-Pine Bluff") = Some (py "arkansas-pine-bluff")
  /\ create_slug (py "William & Mary") = Some (py "william-mary")
  /\ create_slug (py "St. John's") = Some (py "st-johns")
  /\ create_slug (py "") = Some (py "")
  /\ create_slug (py "Albany (NY)") = Some (py "albany-ny")
  /\ create_slug (py "Albany (NY)") <> Some (py "albany").
Proof.
  split; [apply create_slug_miami_fl|].
  split; [apply create_slug_saint_marys_ca|].
  split; [apply create_slug_iowa_state|].
  split; [apply create_slug_arkansas_pine_bluff|].
  split; [apply create_slug_william_mary|].
  split; [apply create_slug_st_johns|].
  split; [apply create_slug_empty|].
  assert (E : create_slug (py "Albany (NY)") = Some (py "albany-ny"))
    by run_ascii.
  split; [exact E|]. rewrite E. discriminate.
Qed.

(** C5, as stated, fails: after a state code the descriptive "(Ohio)" is
    kept, and its letters reach the slug. *)
Lemma create_slug_keeps_description :
  py "Miami (FL) (Ohio)"
  = py "Miami (FL)" ++ py " " ++ LPAREN :: py "Ohio" ++ RPAREN :: []
  /\ forall U : UnicodeData,
       create_slug (py "Miami (FL) (Ohio)") = Some (py "miami-fl-ohio").
Proof. split; [reflexivity|run_ascii]. Qed.

(** C5, amended.  In a name without a parenthesised pair of capitals, a span
    from an opening parenthesis to the next closing one, together with the
    white space before it, is removed by the parenthetical step: the slug is
    that of the name without the span.  The span may follow other spans: the
    text before it has every opening parenthesis closed, and does not end in
    white space (which would belong to the span). *)
Theorem descriptive_span_removed (U : UnicodeData)
    (pre ws content post : pystr) :
  re_search re_state_code (pre ++ ws ++ LPAREN :: content ++ RPAREN :: post)
  = None ->
  closed_parens pre = true ->
  ends_in_space pre = false ->
  forallb uni_isspace ws = true ->
  existsb (N.eqb RPAREN) content = false ->
  paren_step (pre ++ ws ++ LPAREN :: content ++ RPAREN :: post)
  = paren_step (pre ++ post)
  /\ create_slug (pre ++ ws ++ LPAREN :: content ++ RPAREN :: post)
     = create_slug (pre ++ post).
Proof.
  intros Hnone Hclosed Hend Hws Hcontent.
  assert (P : paren_step (pre ++ ws ++ LPAREN :: content ++ RPAREN :: post)
              = paren_step (pre ++ post)).
  { rewrite (paren_step_plain _ Hnone).
    rewrite (scan_paren_app (length pre)), scan_paren_span
      by (assumption || apply Nat.le_refl).
    rewrite paren_step_plain.
    - rewrite (scan_paren_app (length pre))
        by (assumption || apply Nat.le_refl).
      reflexivity.
    - apply search_from_none. intros d. rewrite match_state_code.
      rewrite (no_state_code_join pre (ws ++ LPAREN :: content ++ [RPAREN]));
        [reflexivity|exact Hclosed|].
      intros e.
      pose proof (search_from_found _ _ _ Hnone e) as F.
      rewrite match_state_code in F.
      replace (pre ++ (ws ++ LPAREN :: content ++ [RPAREN]) ++ post)
        with (pre ++ ws ++ LPAREN :: content ++ RPAREN :: post).
      + destruct (is_state_code _); [discriminate|reflexivity].
      + rewrite <- (app_assoc ws). cbn [app]. rewrite <- (app_assoc content).
        reflexivity. }
  split; [exact P|].
  rewrite !create_slug_unfold, P. reflexivity.
Qed.

Lemma descriptive_span_removed_second :
  @create_slug ascii_unicode (py "A (x) (y) B")
  = @create_slug ascii_unicode (py "A (x) B").
Proof.
  exact (proj2 (descriptive_span_removed ascii_unicode
                  (py "A (x)") (py " ") (py "y") (py " B")
                  eq_refl eq_refl eq_refl eq_refl eq_refl)).
Defined.

(** C6, as stated, fails: "William & Mary" holds an ampersand and both rules
    give it the same slug. *)
Lemma slug_rules_agree_william_mary :
  In 38 (py "William & Mary")
  /\ forall U : UnicodeData,
       create_slug (py "William & Mary")
       = simple_create_slug (py "William & Mary").
Proof. split; [simpl; tauto|run_ascii]. Qed.

(** C6, amended.  An apostrophe or an ampersand never makes the two rules
    disagree: they return the same slug for every ASCII name without an
    opening parenthesis and without an underscore, and also for a name with
    a state code such as "Miami (FL)".  They disagree on names with a
    descriptive parenthetical, such as "Loyola (Chicago)". *)
Theorem slug_rules_compared (U : UnicodeData) :
  (forall name,
     Forall is_ascii name -> ~ In LPAREN name -> ~ In UNDERSCORE name ->
     create_slug name = simple_create_slug name)
  /\ create_slug (py "Miami (FL)") = simple_create_slug (py "Miami (FL)")
  /\ (In LPAREN (py "Loyola (Chicago)")
      /\ create_slug (py "Loyola (Chicago)") = Some (py "loyola")
      /\ simple_create_slug (py "Loyola (Chicago)")
         = Some (py "loyola-chicago")).
Proof.
  split; [apply slug_rules_agree|].
  split; [run_ascii|].
  split; [simpl; tauto|split; run_ascii].
Qed.

Lemma slug_rules_compared_st_johns :
  @create_slug ascii_unicode (py "St. John's")
  = @simple_create_slug ascii_unicode (py "St. John's").
Proof.
  apply (proj1 (slug_rules_compared ascii_unicode)).
  - apply is_asciib_sound. reflexivity.
  - apply not_In_b. reflexivity.
  - apply not_In_b. reflexivity.
Defined.

(** C7. [create_slug] returns a string for every input string, and the empty
    string for an input made of white space only (the empty input
    included). *)
Theorem create_slug_total (U : UnicodeData) (school_name : pystr) :
  (exists slug, create_slug school_name = Some slug)
  /\ (Forall (fun c => uni_isspace c = true) school_name ->
      create_slug school_name = Some []).
Proof.
  split.
  - destruct (create_slug_returns school_name) as [p [_ H]]. eauto.
  - intros H. rewrite create_slug_unfold, paren_step_no_lparen.
    + simpl. f_equal. apply normalise_spaces, H.
    + apply space_absent; [exact H| |reflexivity]. unfold is_ascii, LPAREN. lia.
Qed.

Lemma create_slug_total_blank :
  @create_slug ascii_unicode [32; 9; 10; 32] = Some [].
Proof.
  exact (proj2 (create_slug_total ascii_unicode [32; 9; 10; 32])
           ltac:(repeat constructor)).
Defined.

(** C8. The simple rule does not keep to [[a-z0-9-]]: "a_b" comes back
    with its underscore.  The cause is the filter r'[^\w\s-]', which deletes
    no word character: no underscore and nothing the database calls
    alphanumeric, ASCII or not. *)
Theorem simple_create_slug_keeps_underscore (U : UnicodeData) :
  (exists name slug c,
     simple_create_slug name = Some slug
     /\ In c slug /\ slug_char c = false)
  /\ (forall s c,
        In c s -> uni_isalnum c = true \/ c = UNDERSCORE ->
        exists kept,
          re_sub re_not_word_space_hyphen [] s = Some kept /\ In c kept).
Proof.
  split.
  - exists (py "a_b"), (py "a_b"), UNDERSCORE.
    split; [run_ascii|]. split; [|reflexivity].
    right. left. reflexivity.
  - intros s c Hin Hw. eexists. split; [reflexivity|].
    unfold re_not_word_space_hyphen. rewrite scan_one_delete.
    apply filter_In. split; [exact Hin|].
    rewrite word_char_not_deleted by exact Hw. reflexivity.
Qed.

Lemma simple_create_slug_keeps_underscore_filter :
  exists kept,
    @re_sub ascii_unicode re_not_word_space_hyphen [] (py "a_b") = Some kept
    /\ In UNDERSCORE kept.
Proof.
  apply (proj2 (simple_create_slug_keeps_underscore ascii_unicode)
           (py "a_b") UNDERSCORE).
  - right. left. reflexivity.
  - right. reflexivity.
Defined.

(** C9. The parenthetical is looked at before the name is lowered: "(FL)" is
    kept as a state code, "(fl)" is dropped as a description. *)
Theorem create_slug_paren_case_sensitive (U : UnicodeData) :
  create_slug (py "Miami (FL)") = Some (py "miami-fl")
  /\ create_slug (py "Miami (fl)") = Some (py "miami")
  /\ map ascii_lower (py "Miami (FL)") = map ascii_lower (py "Miami (fl)")
  /\ create_slug (py "Miami (FL)") <> create_slug (py "Miami (fl)").
Proof.
  assert (E1 : create_slug (py "Miami (FL)") = Some (py "miami-fl"))
    by run_ascii.
  assert (E2 : create_slug (py "Miami (fl)") = Some (py "miami"))
    by run_ascii.
  split; [exact E1|]. split; [exact E2|]. split; [reflexivity|].
  rewrite E1, E2. discriminate.
Qed.

(** * scraper.py: locating the game-log table

    The network, the HTML parser and pandas are outside the repository.  A
    call of [scrape_team_gamelogs] sees them through three functions: what
    [requests.get] followed by [raise_for_status] does for a URL, the
    [<table>] elements of a page in document order, and what steps 5-9 make
    of the table that was found.  What the function prints is left out. *)
Module Scraper.

Local Open Scope string_scope.

(** What the lookups read of a [<table>] element. *)
Record Tag := {
  tag_id : option string;       (* the id attribute, when present *)
  tag_class : list string       (* the class attribute, split at blanks *)
}.

(** The outcome of a call: a returned value or a raised exception. *)
Inductive outcome (A E : Type) :=
| Return (a : A)
| Raise (e : E).
Arguments Return {A E} a.
Arguments Raise {A E} e.

(** The outcome of lines 53-54. *)
Inductive fetched (C E : Type) :=
| Response (content : C)
| RequestException
| OtherException (e : E).
Arguments Response {C E} content.
Arguments RequestException {C E}.
Arguments OtherException {C E} e.

Definition possible_ids : list string :=
  ["sgl-basic"; "gamelog"; "games"; "schedule"].

(** [soup.find('table', {'id': i})] *)
Definition find_by_id (tables : list Tag) (i : string) : option Tag :=
  find (fun t => match tag_id t with
                 | Some j => String.eqb j i
                 | None => false
                 end) tables.

(** [soup.find('table', class_=c)] *)
Definition find_by_class (tables : list Tag) (c : string) : option Tag :=
  find (fun t => existsb (String.eqb c) (tag_class t)) tables.

(** Lines 85-89: [table] holds the last lookup, the loop leaves at the first
    hit. *)
Fixpoint id_loop (tables : list Tag) (ids : list string)
    (table : option Tag) : option Tag :=
  match ids with
  | [] => table
  | table_id :: rest =>
      let table := find_by_id tables table_id in
      match table with
      | Some _ => table
      | None => id_loop tables rest table
      end
  end.

Definition has_known_id (t : Tag) : Prop :=
  exists i, tag_id t = Some i /\ In i possible_ids.

Definition has_stats_class (t : Tag) : Prop :=
  In "stats_table" (tag_class t).

Section Scrape.

Variables Content DataFrame Exn : Type.
Variable show_year : nat -> string.
Variable requests_get : string -> fetched Content Exn.
Variable find_all_tables : Content -> list Tag.
Variable extract_and_save :
  Tag -> string -> nat -> string -> outcome DataFrame Exn.

Definition scrape_team_gamelogs (school_slug : string) (year : nat)
    (save_path : string) : outcome (option DataFrame) Exn :=
  let url := "https://www.sports-reference.com/cbb/schools/" ++ school_slug
             ++ "/men/" ++ show_year year ++ "-gamelogs.html" in
  match requests_get url with
  | RequestException => Return None
  | OtherException e => Raise e
  | Response content =>
      let all_tables := find_all_tables content in
      let table := id_loop all_tables possible_ids None in
      let table := match table with
                   | None => find_by_class all_tables "stats_table"
                   | Some _ => table
                   end in
      match table with
      | None => Return None
      | Some t =>
          match extract_and_save t school_slug year save_path with
          | Return df => Return (Some df)
          | Raise e => Raise e
          end
      end
  end.

Definition gamelog_url (school_slug : string) (year : nat) : string :=
  "https://www.sports-reference.com/cbb/schools/" ++ school_slug
  ++ "/men/" ++ show_year year ++ "-gamelogs.html".

Lemma find_by_id_none (tables : list Tag) (i : string) :
  In i possible_ids ->
  (forall t, In t tables -> ~ has_known_id t) ->
  find_by_id tables i = None.
Proof.
  intros Hi H. unfold find_by_id.
  destruct (find _ tables) as [t|] eqn:E; [|reflexivity].
  apply find_some in E. destruct E as [Hin Ht].
  destruct (tag_id t) as [j|] eqn:J; [|discriminate].
  apply String.eqb_eq in Ht. subst j.
  exfalso. apply (H t Hin). exists i. split; assumption.
Qed.

Lemma find_by_id_some (tables : list Tag) (i : string) (t : Tag) :
  find_by_id tables i = Some t -> In t tables /\ tag_id t = Some i.
Proof.
  unfold find_by_id. intros E. apply find_some in E.
  destruct E as [Hin Ht]. split; [exact Hin|].
  destruct (tag_id t) as [j|]; [|discriminate].
  apply String.eqb_eq in Ht. subst j. reflexivity.
Qed.

Lemma id_loop_none (tables : list Tag) (ids : list string) :
  incl ids possible_ids ->
  (forall t, In t tables -> ~ has_known_id t) ->
  id_loop tables ids None = None.
Proof.
  intros Hids H. induction ids as [|i rest IH]; [reflexivity|].
  simpl. rewrite find_by_id_none; [|apply Hids; left; reflexivity|exact H].
  apply IH. intros j Hj. apply Hids. right. exact Hj.
Qed.

Lemma id_loop_some (tables : list Tag) (ids : list string) (t : Tag) :
  id_loop tables ids None = Some t ->
  In t tables /\ exists i, tag_id t = Some i /\ In i ids.
Proof.
  induction ids as [|i rest IH]; [discriminate|].
  simpl. destruct (find_by_id tables i) as [u|] eqn:E.
  - intros H. injection H as ->. apply find_by_id_some in E.
    destruct E as [Hin Hid]. split; [exact Hin|].
    exists i. split; [exact Hid|left; reflexivity].
  - intros H. apply IH in H. destruct H as [Hin [j [Hid Hj]]].
    split; [exact Hin|]. exists j. split; [exact Hid|right; exact Hj].
Qed.

Lemma find_by_class_none (tables : list Tag) :
  (forall t, In t tables -> ~ has_stats_class t) ->
  find_by_class tables "stats_table" = None.
Proof.
  intros H. unfold find_by_class.
  destruct (find _ tables) as [t|] eqn:E; [|reflexivity].
  apply find_some in E. destruct E as [Hin Ht].
  exfalso. apply (H t Hin). unfold has_stats_class.
  apply existsb_exists in Ht. destruct Ht as [c [Hc Heq]].
  apply String.eqb_eq in Heq. subst c. exact Hc.
Qed.

Lemma find_by_class_some (tables : list Tag) (t : Tag) :
  find_by_class tables "stats_table" = Some t ->
  In t tables /\ has_stats_class t.
Proof.
  unfold find_by_class. intros E. apply find_some in E.
  destruct E as [Hin Ht]. split; [exact Hin|].
  apply existsb_exists in Ht. destruct Ht as [c [Hc Heq]].
  apply String.eqb_eq in Heq. subst c. exact Hc.
Qed.

(** C10. A failed fetch and a page without a game-log table both make
    [scrape_team_gamelogs] return [None]; a data frame is returned only after
    a fetch that succeeded, for a table with one of the four ids or the class
    [stats_table]. *)
Theorem scrape_team_gamelogs_none (school_slug : string) (year : nat)
    (save_path : string) :
  (requests_get (gamelog_url school_slug year) = RequestException ->
   scrape_team_gamelogs school_slug year save_path = Return None)
  /\ (forall content,
        requests_get (gamelog_url school_slug year) = Response content ->
        (forall t, In t (find_all_tables content) ->
                   ~ has_known_id t /\ ~ has_stats_class t) ->
        scrape_team_gamelogs school_slug year save_path = Return None)
  /\ (forall df,
        scrape_team_gamelogs school_slug year save_path = Return (Some df) ->
        exists content t,
          requests_get (gamelog_url school_slug year) = Response content
          /\ In t (find_all_tables content)
          /\ (has_known_id t \/ has_stats_class t)).
Proof.
  unfold scrape_team_gamelogs, gamelog_url.
  split; [|split].
  - intros ->. reflexivity.
  - intros content -> H. cbv zeta.
    rewrite id_loop_none;
      [|apply incl_refl|intros t Ht; apply (H t Ht)].
    rewrite find_by_class_none by (intros t Ht; apply (H t Ht)).
    reflexivity.
  - intros df.
    destruct (requests_get _) as [content| |e]; try discriminate.
    cbv zeta.
    destruct (id_loop (find_all_tables content) possible_ids None)
      as [t|] eqn:L.
    + intros _. apply id_loop_some in L. destruct L as [Hin [i [Hid Hi]]].
      exists content, t. repeat split; try assumption.
      left. exists i. split; assumption.
    + destruct (find_by_class (find_all_tables content) "stats_table")
        as [t|] eqn:C; [|discriminate].
      intros _. apply find_by_class_some in C. destruct C as [Hin Hc].
      exists content, t. repeat split; try assumption. right. exact Hc.
Qed.

End Scrape.

(** A page whose only table has neither a known id nor the class. *)
Lemma scrape_team_gamelogs_none_other_table :
  scrape_team_gamelogs (list Tag) Tag unit (fun _ => "2026")
    (fun _ => Response [ {| tag_id := None; tag_class := ["sortable"] |} ])
    (fun content => content) (fun t _ _ _ => Return t)
    "iowa-state" 2026 "data/basketball/raw"
  = Return None.
Proof.
  apply (proj1 (proj2 (scrape_team_gamelogs_none (list Tag) Tag unit
                         (fun _ => "2026")
                         (fun _ => Response
                            [ {| tag_id := None; tag_class := ["sortable"] |} ])
                         (fun content => content) (fun t _ _ _ => Return t)
                         "iowa-state" 2026 "data/basketball/raw"))
           [ {| tag_id := None; tag_class := ["sortable"] |} ] eq_refl).
  intros t [<-|[]]. split.
  - intros [i [Hi _]]. discriminate.
  - intros [H|[]]. discriminate.
Defined.

End Scraper.

(** * Further properties of the two slug rules *)

(** A string of [P]-characters and single hyphens, with no hyphen at either
    end.  [valid_slug] is the case of [[a-z0-9-]]. *)
Definition hyphenated (P : N -> Prop) (s : pystr) : Prop :=
  Forall P s
  /\ (forall t, s <> HYPHEN :: t)
  /\ (forall t, s <> t ++ [HYPHEN])
  /\ (forall pre post, s <> pre ++ [HYPHEN; HYPHEN] ++ post).

(** A hyphen, or a word character of r'\w' that is not white space. *)
Definition word_or_hyphen {U : UnicodeData} (c : N) : Prop :=
  c = HYPHEN
  \/ ((uni_isalnum c = true \/ c = UNDERSCORE) /\ uni_isspace c = false).

(** The lowercase letters and the digits. *)
Definition lower_alnum (c : N) : bool := slug_char c && negb (is_hyphen c).

Lemma strip_hyphen_shape (P : N -> Prop) (s : pystr) :
  Forall P s ->
  (forall pre post, s <> pre ++ [HYPHEN; HYPHEN] ++ post) ->
  hyphenated P (strip [HYPHEN] s).
Proof.
  intros Hchars Hdouble.
  destruct (strip_inside [HYPHEN] s) as [pre [suf E]].
  repeat split.
  - rewrite E in Hchars.
    apply Forall_app in Hchars. destruct Hchars as [_ Hchars].
    apply Forall_app in Hchars. tauto.
  - intros t F. unfold strip in F.
    destruct (rstrip_prefix [HYPHEN] (lstrip [HYPHEN] s)) as [suf' G].
    rewrite F in G. cbn [app] in G. apply lstrip_head in G.
    discriminate.
  - intros t F. unfold strip in F. apply rstrip_last in F. discriminate.
  - intros pre' post' F. rewrite F in E.
    apply (Hdouble (pre ++ pre') (post' ++ suf)).
    rewrite E. rewrite <- !app_assoc. reflexivity.
Qed.

Lemma collapse_runs_Forall (P : N -> Prop) (f : N -> bool) (r : N)
    (s : pystr) :
  P r -> Forall (fun c => f c = false -> P c) s ->
  Forall P (collapse_runs f r s).
Proof.
  intros Hr. induction 1 as [|c t Hc _ IH]; [constructor|].
  rewrite collapse_runs_cons. destruct (f c) eqn:C.
  - destruct (hd_in f t); [exact IH|constructor; assumption].
  - constructor; [apply Hc; reflexivity|exact IH].
Qed.

Lemma create_slug_fixes_slug {U : UnicodeData} (s : pystr) :
  valid_slug s -> create_slug s = Some s.
Proof.
  intros H. rewrite create_slug_unfold, paren_step_no_lparen.
  - cbn [option_map]. f_equal. apply normalise_slug, H.
  - destruct H as [H _]. apply not_slug_char_absent; [exact H|reflexivity].
Qed.

Lemma create_slug_gives_slug {U : UnicodeData} (s : pystr) :
  exists slug, create_slug s = Some slug /\ valid_slug slug.
Proof.
  destruct (create_slug_returns s) as [p [_ H]].
  exists (normalise p). split; [exact H|].
  unfold normalise. apply finish_valid.
Qed.

(** X1. Applying [create_slug] to its own result changes nothing. *)
Theorem create_slug_twice (U : UnicodeData) (school_name : pystr) :
  bind (create_slug school_name) create_slug = create_slug school_name.
Proof.
  destruct (create_slug_gives_slug school_name) as [slug [E V]].
  rewrite E. cbn [bind]. apply create_slug_fixes_slug, V.
Qed.

Lemma valid_slug_no_underscore (s : pystr) :
  valid_slug s -> ~ In UNDERSCORE s.
Proof.
  intros [H _]. apply not_slug_char_absent; [exact H|reflexivity].
Qed.

Lemma valid_slug_no_lparen (s : pystr) : valid_slug s -> ~ In LPAREN s.
Proof.
  intros [H _]. apply not_slug_char_absent; [exact H|reflexivity].
Qed.

Lemma valid_slug_ascii (s : pystr) : valid_slug s -> Forall is_ascii s.
Proof.
  intros [H _]. eapply Forall_impl; [|exact H]. apply slug_char_ascii.
Qed.

Lemma simple_create_slug_fixes_slug {U : UnicodeData} (s : pystr) :
  valid_slug s -> simple_create_slug s = Some s.
Proof.
  intros V.
  rewrite <- (slug_rules_agree U s (valid_slug_ascii _ V)
                (valid_slug_no_lparen _ V) (valid_slug_no_underscore _ V)).
  apply create_slug_fixes_slug, V.
Qed.

(** X2. The simple rule of get_all_teams.py returns a slug unchanged; so a
    slug made by create_slugs.py passes through it as it is. *)
Theorem simple_create_slug_on_slugs (U : UnicodeData) (s : pystr) :
  (valid_slug s -> simple_create_slug s = Some s)
  /\ bind (create_slug s) simple_create_slug = create_slug s.
Proof.
  split; [apply simple_create_slug_fixes_slug|].
  destruct (create_slug_gives_slug s) as [slug [E V]].
  rewrite E. cbn [bind]. apply simple_create_slug_fixes_slug, V.
Qed.

Lemma simple_create_slug_on_slugs_uc_irvine :
  @simple_create_slug ascii_unicode (py "uc-irvine") = Some (py "uc-irvine").
Proof.
  apply (proj1 (simple_create_slug_on_slugs ascii_unicode (py "uc-irvine"))).
  apply valid_slugb_sound. reflexivity.
Defined.

Lemma simple_create_slug_unfold {U : UnicodeData} (s : pystr) :
  simple_create_slug s
  = Some (strip [HYPHEN]
            (scan (match_here re_hyphens) [HYPHEN] 0
               (scan (match_here re_spaces) [HYPHEN] 0
                  (scan (match_here re_not_word_space_hyphen) [] 0
                     (uni_lower s))))).
Proof. reflexivity. Qed.

Lemma kept_by_simple_filter {U : UnicodeData} (c : N) :
  cset_matches cs_not_word_space_hyphen c = false ->
  uni_isspace c = false -> word_or_hyphen c.
Proof.
  unfold cset_matches, word_or_hyphen.
  cbn [cs_neg cs_atoms cs_not_word_space_hyphen existsb atom_matches xorb].
  intros H Hs. rewrite Hs in *.
  destruct (uni_isalnum c) eqn:A; [right; split; [left|]; reflexivity|].
  destruct (c =? UNDERSCORE) eqn:B.
  { apply N.eqb_eq in B. right. split; [right; exact B|reflexivity]. }
  destruct (c =? HYPHEN) eqn:C; [|discriminate].
  apply N.eqb_eq in C. left. exact C.
Qed.

(** X3. Whatever the name, the simple rule returns hyphen-separated word
    characters: every character is a hyphen or a non-blank character of
    r'\w', no hyphen stands at either end and no two hyphens are adjacent. *)
Theorem simple_create_slug_shape (U : UnicodeData) (school_name : pystr) :
  exists slug,
    simple_create_slug school_name = Some slug
    /\ hyphenated word_or_hyphen slug.
Proof.
  eexists. split; [apply simple_create_slug_unfold|].
  apply strip_hyphen_shape.
  - apply scan_Forall; [repeat constructor; left; reflexivity|].
    rewrite scan_spaces_collapse.
    apply collapse_runs_Forall; [left; reflexivity|].
    unfold re_not_word_space_hyphen. rewrite scan_one_delete.
    apply Forall_forall. intros c Hc Hs. apply filter_In in Hc.
    destruct Hc as [_ Hc]. apply negb_true_iff in Hc.
    apply kept_by_simple_filter; assumption.
  - apply no_double_hyphen_spec.
    eapply collapse_hyphens_shape. apply Nat.le_refl.
Qed.

Lemma keep_slug_chars (t : pystr) :
  Forall (fun c => slug_char c = true) (keep t).
Proof.
  induction t as [|c t IH]; [constructor|].
  unfold keep. cbn [flat_map]. apply Forall_app. split; [|exact IH].
  unfold keep_char. destruct (slug_char c) eqn:S.
  - repeat constructor. exact S.
  - destruct (ascii_isspace c); repeat constructor.
Qed.

Lemma strip_squeeze_keep_valid (t : pystr) :
  valid_slug (strip [HYPHEN] (squeeze (keep t))).
Proof.
  pose proof (@scan_hyphens_squeeze ascii_unicode (keep t)) as E.
  rewrite <- E. apply strip_hyphen_valid.
  - apply scan_Forall; [repeat constructor|apply keep_slug_chars].
  - apply no_double_hyphen_spec.
    eapply (@collapse_hyphens_shape ascii_unicode). apply Nat.le_refl.
Qed.

(** X4. On an ASCII name without an underscore the simple rule does return a
    slug of [[a-z0-9-]]. *)
Theorem simple_create_slug_ascii_valid (U : UnicodeData) (school_name : pystr) :
  Forall is_ascii school_name -> ~ In UNDERSCORE school_name ->
  exists slug, simple_create_slug school_name = Some slug /\ valid_slug slug.
Proof.
  intros Ha Hu. eexists. split.
  - rewrite simple_create_slug_ascii by exact Ha.
    apply simple_ascii_keep, Hu.
  - apply strip_squeeze_keep_valid.
Qed.

Lemma simple_create_slug_ascii_valid_loyola :
  exists slug,
    @simple_create_slug ascii_unicode (py "Loyola (Chicago)") = Some slug
    /\ valid_slug slug.
Proof.
  apply (simple_create_slug_ascii_valid ascii_unicode (py "Loyola (Chicago)")).
  - apply is_asciib_sound. reflexivity.
  - apply not_In_b. reflexivity.
Defined.

(** *** Letters and digits *)

Lemma filter_lstrip_hyphen (s : pystr) :
  filter (fun c => negb (is_hyphen c)) (lstrip [HYPHEN] s)
  = filter (fun c => negb (is_hyphen c)) s.
Proof.
  induction s as [|c t IH]; [reflexivity|].
  cbn [lstrip existsb filter]. rewrite orb_false_r.
  change (is_hyphen c) with (c =? HYPHEN).
  destruct (c =? HYPHEN) eqn:C; cbn [negb]; [exact IH|].
  cbn [filter]. change (is_hyphen c) with (c =? HYPHEN). rewrite C.
  reflexivity.
Qed.

Lemma filter_strip_hyphen (s : pystr) :
  filter (fun c => negb (is_hyphen c)) (strip [HYPHEN] s)
  = filter (fun c => negb (is_hyphen c)) s.
Proof.
  unfold strip, rstrip.
  rewrite filter_rev, filter_lstrip_hyphen, filter_rev, rev_involutive.
  apply filter_lstrip_hyphen.
Qed.

Lemma filter_squeeze (s : pystr) :
  filter (fun c => negb (is_hyphen c)) (squeeze s)
  = filter (fun c => negb (is_hyphen c)) s.
Proof.
  unfold squeeze. induction s as [|c t IH]; [reflexivity|].
  rewrite collapse_runs_cons. cbn [filter].
  destruct (is_hyphen c) eqn:C; cbn [negb].
  - destruct (hd_in is_hyphen t); [exact IH|].
    cbn [filter]. change (is_hyphen HYPHEN) with true. cbn [negb]. exact IH.
  - cbn [filter]. rewrite C. cbn [negb]. rewrite IH. reflexivity.
Qed.

Lemma filter_keep (t : pystr) :
  filter (fun c => negb (is_hyphen c)) (keep t) = filter lower_alnum t.
Proof.
  induction t as [|c t IH]; [reflexivity|].
  unfold keep. cbn [flat_map]. rewrite filter_app. fold (keep t).
  rewrite IH. cbn [filter]. unfold keep_char, lower_alnum at 2.
  destruct (slug_char c) eqn:S.
  - cbn [filter app andb]. destruct (negb (is_hyphen c)); reflexivity.
  - cbn [andb]. destruct (ascii_isspace c); reflexivity.
Qed.

(** X5. On an ASCII name without an opening parenthesis, [create_slug] keeps
    every letter and digit of the lowered name, in order, and adds nothing
    but hyphens. *)
Theorem create_slug_keeps_letters (U : UnicodeData) (school_name : pystr) :
  Forall is_ascii school_name -> ~ In LPAREN school_name ->
  exists slug,
    create_slug school_name = Some slug
    /\ filter (fun c => negb (is_hyphen c)) slug
       = filter lower_alnum (map ascii_lower school_name).
Proof.
  intros Ha Hp. eexists. split.
  - rewrite create_slug_ascii by exact Ha.
    rewrite create_slug_unfold, (paren_step_no_lparen _ Hp).
    cbn [option_map]. rewrite normalise_ascii_keep. reflexivity.
  - rewrite filter_strip_hyphen, filter_squeeze. apply filter_keep.
Qed.

Lemma create_slug_keeps_letters_st_johns :
  exists slug,
    @create_slug ascii_unicode (py "St. John's") = Some slug
    /\ filter (fun c => negb (is_hyphen c)) slug = py "stjohns".
Proof.
  apply (create_slug_keeps_letters ascii_unicode (py "St. John's")).
  - apply is_asciib_sound. reflexivity.
  - apply not_In_b. reflexivity.
Defined.

(** X6. On an ASCII name without an underscore, the simple rule keeps every
    letter and digit of the lowered name, parentheticals included. *)
Theorem simple_create_slug_keeps_letters (U : UnicodeData)
    (school_name : pystr) :
  Forall is_ascii school_name -> ~ In UNDERSCORE school_name ->
  exists slug,
    simple_create_slug school_name = Some slug
    /\ filter (fun c => negb (is_hyphen c)) slug
       = filter lower_alnum (map ascii_lower school_name).
Proof.
  intros Ha Hu. eexists. split.
  - rewrite simple_create_slug_ascii by exact Ha.
    apply simple_ascii_keep, Hu.
  - rewrite filter_strip_hyphen, filter_squeeze. apply filter_keep.
Qed.

Lemma simple_create_slug_keeps_letters_albany :
  exists slug,
    @simple_create_slug ascii_unicode (py "Albany (NY)") = Some slug
    /\ filter (fun c => negb (is_hyphen c)) slug = py "albanyny".
Proof.
  apply (simple_create_slug_keeps_letters ascii_unicode (py "Albany (NY)")).
  - apply is_asciib_sound. reflexivity.
  - apply not_In_b. reflexivity.
Defined.

(** *** Case, punctuation and separators *)

Lemma lower_lparen (c : N) : ascii_lower c = LPAREN -> c = LPAREN.
Proof.
  unfold ascii_lower, LPAREN.
  destruct ((65 <=? c) && (c <=? 90)) eqn:E; [|trivial].
  apply andb_true_iff in E. destruct E as [E _]. apply N.leb_le in E. lia.
Qed.

Lemma lowered_no_lparen (a b : pystr) :
  map ascii_lower a = map ascii_lower b -> ~ In LPAREN a -> ~ In LPAREN b.
Proof.
  intros E Ha Hb. apply Ha.
  apply (in_map ascii_lower) in Hb. rewrite <- E in Hb.
  apply in_map_iff in Hb. destruct Hb as [c [Hc Hin]].
  apply lower_lparen in Hc. subst c. exact Hin.
Qed.

Lemma create_slug_plain_ascii {U : UnicodeData} (s : pystr) :
  Forall is_ascii s -> ~ In LPAREN s ->
  create_slug s = Some (strip [HYPHEN] (squeeze (keep (map ascii_lower s)))).
Proof.
  intros Ha Hp. rewrite create_slug_ascii by exact Ha.
  rewrite create_slug_unfold, (paren_step_no_lparen _ Hp).
  cbn [option_map]. rewrite normalise_ascii_keep. reflexivity.
Qed.

(** X7. Two ASCII names that differ only in the case of their letters get
    the same slug from the simple rule, and from [create_slug] when they hold
    no opening parenthesis. *)
Theorem slug_rules_ignore_case (U : UnicodeData) (a b : pystr) :
  Forall is_ascii a -> Forall is_ascii b ->
  map ascii_lower a = map ascii_lower b ->
  simple_create_slug a = simple_create_slug b
  /\ (~ In LPAREN a -> create_slug a = create_slug b).
Proof.
  intros Ha Hb E. split.
  - rewrite (simple_create_slug_ascii a), (simple_create_slug_ascii b)
      by assumption.
    rewrite (@simple_create_slug_unfold ascii_unicode a).
    rewrite (@simple_create_slug_unfold ascii_unicode b).
    change (@uni_lower ascii_unicode) with (map ascii_lower).
    rewrite E. reflexivity.
  - intros Hp.
    rewrite (create_slug_plain_ascii a) by assumption.
    rewrite (create_slug_plain_ascii b)
      by (assumption || exact (lowered_no_lparen _ _ E Hp)).
    rewrite E. reflexivity.
Qed.

Lemma slug_rules_ignore_case_iowa_state :
  @simple_create_slug ascii_unicode (py "IOWA State")
  = @simple_create_slug ascii_unicode (py "Iowa state")
  /\ @create_slug ascii_unicode (py "IOWA State")
     = @create_slug ascii_unicode (py "Iowa state").
Proof.
  destruct (slug_rules_ignore_case ascii_unicode
              (py "IOWA State") (py "Iowa state")) as [H1 H2];
    [apply is_asciib_sound; reflexivity
    |apply is_asciib_sound; reflexivity
    |reflexivity|].
  split; [exact H1|]. apply H2. apply not_In_b. reflexivity.
Defined.

Lemma keep_lower_app (a b : pystr) :
  keep (map ascii_lower (a ++ b))
  = keep (map ascii_lower a) ++ keep (map ascii_lower b).
Proof. rewrite map_app. apply keep_app. Qed.

Lemma not_alnum_lower (c : N) :
  ascii_isalnum c = false -> ascii_lower c = c /\ lower_alnum c = false.
Proof.
  unfold ascii_isalnum, ascii_lower, lower_alnum, slug_char. intros H.
  apply orb_false_iff in H. destruct H as [H H3].
  apply orb_false_iff in H. destruct H as [H1 H2].
  rewrite H1, H2, H3. cbn [orb]. split; [reflexivity|].
  unfold is_hyphen. destruct (c =? 45) eqn:E; [|reflexivity].
  change (c =? HYPHEN) with (c =? 45). rewrite E. reflexivity.
Qed.

Lemma space_lower (c : N) : ascii_isspace c = true -> ascii_lower c = c.
Proof.
  intros H. unfold ascii_lower.
  destruct ((65 <=? c) && (c <=? 90)) eqn:E; [|reflexivity].
  apply andb_true_iff in E. destruct E as [E _]. apply N.leb_le in E.
  unfold ascii_isspace in H. apply orb_true_iff in H.
  destruct H as [H|H]; apply andb_true_iff in H; destruct H as [_ H];
    apply N.leb_le in H; lia.
Qed.

Lemma Forall_app_cons {A} (P : A -> Prop) (a : list A) (c : A) (b : list A) :
  Forall P (a ++ c :: b) -> Forall P (a ++ b) /\ P c.
Proof.
  intros H. apply Forall_app in H. destruct H as [Ha H].
  inversion H; subst. split; [apply Forall_app; split|]; assumption.
Qed.

Lemma not_In_app_cons {A} (x : A) (a : list A) (c : A) (b : list A) :
  ~ In x (a ++ c :: b) -> ~ In x (a ++ b) /\ x <> c.
Proof.
  intros H. split.
  - intros Hin. apply H. apply in_app_or in Hin. apply in_or_app.
    destruct Hin; [left|right; right]; assumption.
  - intros ->. apply H. apply in_or_app. right. left. reflexivity.
Qed.

(** X8. In an ASCII name without an opening parenthesis, a character that is
    no letter, digit, white space or hyphen (a period, an apostrophe, an
    ampersand, a comma, ...) has no influence on the slug. *)
Theorem create_slug_ignores_punctuation (U : UnicodeData)
    (a : pystr) (c : N) (b : pystr) :
  Forall is_ascii (a ++ c :: b) -> ~ In LPAREN (a ++ c :: b) ->
  ascii_isalnum c = false -> ascii_isspace c = false -> c <> HYPHEN ->
  create_slug (a ++ c :: b) = create_slug (a ++ b).
Proof.
  intros Ha Hp Hn Hs Hh.
  destruct (Forall_app_cons _ _ _ _ Ha) as [Ha' _].
  destruct (not_In_app_cons _ _ _ _ Hp) as [Hp' _].
  rewrite (create_slug_plain_ascii (a ++ c :: b)) by assumption.
  rewrite (create_slug_plain_ascii (a ++ b)) by assumption.
  rewrite !keep_lower_app. cbn [map].
  destruct (not_alnum_lower _ Hn) as [L K]. rewrite L.
  assert (S : slug_char c = false).
  { unfold lower_alnum in K. apply andb_false_iff in K.
    destruct K as [K|K]; [exact K|].
    apply negb_false_iff in K. unfold is_hyphen in K.
    apply N.eqb_eq in K. contradiction. }
  rewrite (keep_other _ _ S Hs). reflexivity.
Qed.

Lemma create_slug_ignores_punctuation_comma :
  @create_slug ascii_unicode (py "Texas A,M")
  = @create_slug ascii_unicode (py "Texas AM").
Proof.
  apply (create_slug_ignores_punctuation ascii_unicode (py "Texas A") 44
           (py "M")).
  - apply is_asciib_sound. reflexivity.
  - apply not_In_b. reflexivity.
  - reflexivity.
  - reflexivity.
  - discriminate.
Defined.

(** X9. In an ASCII name without an opening parenthesis, a white-space
    character and a hyphen are the same separator: "Arkansas-Pine Bluff" and
    "Arkansas Pine Bluff" get one slug, so [create_slug] is not injective. *)
Theorem create_slug_space_is_hyphen (U : UnicodeData)
    (a : pystr) (c : N) (b : pystr) :
  Forall is_ascii (a ++ c :: b) -> ~ In LPAREN (a ++ c :: b) ->
  ascii_isspace c = true ->
  create_slug (a ++ c :: b) = create_slug (a ++ HYPHEN :: b).
Proof.
  intros Ha Hp Hs.
  assert (Ha' : Forall is_ascii (a ++ HYPHEN :: b)).
  { apply Forall_app in Ha. destruct Ha as [H1 H2].
    inversion H2; subst. apply Forall_app. split; [exact H1|].
    constructor; [unfold is_ascii, HYPHEN; lia|assumption]. }
  assert (Hp' : ~ In LPAREN (a ++ HYPHEN :: b)).
  { intros Hin. apply Hp. apply in_app_or in Hin. apply in_or_app.
    destruct Hin as [Hin|[Hin|Hin]];
      [left; exact Hin|discriminate|right; right; exact Hin]. }
  rewrite (create_slug_plain_ascii (a ++ c :: b)) by assumption.
  rewrite (create_slug_plain_ascii (a ++ HYPHEN :: b)) by assumption.
  rewrite !keep_lower_app. cbn [map].
  rewrite (space_lower _ Hs), (keep_space _ _ Hs).
  change (ascii_lower HYPHEN) with HYPHEN.
  rewrite (keep_slug_char HYPHEN) by reflexivity. reflexivity.
Qed.

Lemma create_slug_space_is_hyphen_arkansas :
  @create_slug ascii_unicode (py "Arkansas Pine Bluff")
  = @create_slug ascii_unicode (py "Arkansas-Pine Bluff").
Proof.
  apply (create_slug_space_is_hyphen ascii_unicode (py "Arkansas") 32
           (py "Pine Bluff")).
  - apply is_asciib_sound. reflexivity.
  - apply not_In_b. reflexivity.
  - reflexivity.
Defined.

(** *** A state code after a plain name *)

Section StateCode.

Context {U : UnicodeData}.

Lemma state_code_no_match_without_lparen (s : pystr) :
  ~ In LPAREN s -> match_here re_ws_state_code s = None.
Proof.
  intros H. rewrite match_ws_state_code.
  destruct (is_state_code (skipn (run_length uni_isspace s) s)) eqn:E;
    [|reflexivity].
  exfalso. apply H. apply (In_skipn _ (run_length uni_isspace s)).
  apply is_state_code_head, E.
Qed.

Lemma scan_state_code_plain (repl s : pystr) :
  ~ In LPAREN s -> scan (match_here re_ws_state_code) repl 0 s = s.
Proof.
  intros H. apply scan_no_match. intros i.
  apply state_code_no_match_without_lparen.
  intros Hin. apply H. exact (In_skipn _ _ _ Hin).
Qed.

Lemma scan_state_code_prefix (repl w rest : pystr) :
  ~ In LPAREN w -> ends_in_space w = false ->
  scan (match_here re_ws_state_code) repl 0 (w ++ rest)
  = w ++ scan (match_here re_ws_state_code) repl 0 rest.
Proof.
  induction w as [|c t IH]; intros Hp He; [reflexivity|].
  assert (M : match_here re_ws_state_code ((c :: t) ++ rest) = None).
  { rewrite match_ws_state_code.
    assert (K : (run_length uni_isspace (c :: t) < length (c :: t))%nat)
      by (apply ends_in_space_run; [discriminate|exact He]).
    rewrite run_length_app_short by exact K.
    rewrite skipn_app_inside by lia.
    destruct (skipn_short_cons _ _ K) as [d [u E]]. rewrite E. cbn [app].
    rewrite is_state_code_head_false; [reflexivity|].
    apply N.eqb_neq. intros ->. apply Hp.
    apply (In_skipn _ (run_length uni_isspace (c :: t))). rewrite E.
    left. reflexivity. }
  change ((c :: t) ++ rest) with (c :: (t ++ rest)) in *.
  rewrite scan_cons, M. cbn [app]. f_equal. apply IH.
  - intros Hin. apply Hp. right. exact Hin.
  - apply (ends_in_space_skipn 1 (c :: t)), He.
Qed.

Lemma scan_state_code_hit (repl ws : pystr) (x y : N) (post : pystr) :
  forallb uni_isspace ws = true ->
  is_upper x = true -> is_upper y = true ->
  scan (match_here re_ws_state_code) repl 0
    (ws ++ LPAREN :: x :: y :: RPAREN :: post)
  = repl ++ scan (match_here re_ws_state_code) repl 0 post.
Proof.
  intros Hws Hx Hy.
  assert (M : match_here re_ws_state_code
                (ws ++ LPAREN :: x :: y :: RPAREN :: post)
              = Some (S (length ws + 3))).
  { rewrite match_ws_state_code, run_length_app_all by exact Hws.
    rewrite lparen_not_space_run, Nat.add_0_r.
    rewrite <- (Nat.add_0_r (length ws)) at 1.
    rewrite skipn_app_length. cbn [skipn is_state_code].
    rewrite Hx, Hy. change (LPAREN =? LPAREN) with true.
    change (RPAREN =? RPAREN) with true. cbn [andb]. f_equal. lia. }
  rewrite (scan_some _ _ _ _ (match_here_bounded _) M). f_equal.
  replace (S (length ws + 3)) with (length ws + 4)%nat by lia.
  rewrite skipn_app_length. reflexivity.
Qed.

Lemma only_lparen (pre rest : pystr) (i : nat) (t : pystr) :
  ~ In LPAREN pre -> ~ In LPAREN rest ->
  skipn i (pre ++ LPAREN :: rest) = LPAREN :: t -> t = rest.
Proof.
  revert i. induction pre as [|c pre IH]; intros i Hp Hr E.
  - destruct i as [|i]; cbn [app skipn] in E.
    + injection E as E. symmetry. exact E.
    + exfalso. apply Hr. apply (In_skipn _ i). rewrite E. left. reflexivity.
  - destruct i as [|i]; cbn [app skipn] in E.
    + injection E as E _. exfalso. apply Hp. left. exact E.
    + apply (IH i); [|exact Hr|exact E].
      intros Hin. apply Hp. right. exact Hin.
Qed.

Lemma spaces_no_lparen (ws : pystr) :
  forallb uni_isspace ws = true -> ~ In LPAREN ws.
Proof.
  intros H Hin. rewrite forallb_forall in H. apply H in Hin.
  apply space_not_lparen in Hin. discriminate.
Qed.

Lemma upper_not_lparen (x : N) : is_upper x = true -> LPAREN <> x.
Proof. intros H <-. discriminate. Qed.

Lemma paren_step_one_state_code (w ws : pystr) (x y : N) (post : pystr) :
  ~ In LPAREN w -> ends_in_space w = false ->
  forallb uni_isspace ws = true ->
  is_upper x = true -> is_upper y = true -> ~ In LPAREN post ->
  paren_step (w ++ ws ++ LPAREN :: x :: y :: RPAREN :: post)
  = Some (w ++ HYPHEN :: ascii_lower x :: ascii_lower y :: post).
Proof.
  intros Hw He Hws Hx Hy Hpost.
  assert (Hpre : ~ In LPAREN (w ++ ws)).
  { intros Hin. apply in_app_or in Hin.
    destruct Hin as [Hin|Hin]; [exact (Hw Hin)|].
    exact (spaces_no_lparen _ Hws Hin). }
  assert (Hrest : ~ In LPAREN (x :: y :: RPAREN :: post)).
  { intros [Hin|[Hin|[Hin|Hin]]];
      [exact (upper_not_lparen _ Hx (eq_sym Hin))
      |exact (upper_not_lparen _ Hy (eq_sym Hin))
      |discriminate|exact (Hpost Hin)]. }
  destruct (re_search re_state_code
              (w ++ ws ++ LPAREN :: x :: y :: RPAREN :: post))
    as [[i n]|] eqn:E.
  - destruct (paren_step_state _ _ _ E) as [x' [y' [t [Hs [_ [_ H]]]]]].
    rewrite app_assoc in Hs.
    apply only_lparen in Hs; [|assumption..].
    injection Hs as -> -> _.
    rewrite H, scan_state_code_prefix, scan_state_code_hit by assumption.
    rewrite scan_state_code_plain by exact Hpost. reflexivity.
  - exfalso.
    pose proof (search_from_found _ _ _ E (length (w ++ ws))) as F.
    rewrite app_assoc, <- (Nat.add_0_r (length (w ++ ws))) in F.
    rewrite skipn_app_length in F. cbn [skipn] in F.
    rewrite match_state_code in F. cbn [is_state_code] in F.
    rewrite Hx, Hy in F. discriminate.
Qed.

End StateCode.

(** X10. A parenthesised pair of capitals after a name that holds no
    parenthesis is always kept as a state code: "Name (XY)" gets the slug of
    "Name-xy", whatever the name, as for "Miami (FL)", and as for
    "Albany (NY)". *)
Theorem create_slug_state_code (U : UnicodeData)
    (w ws : pystr) (x y : N) (post : pystr) :
  ~ In LPAREN w -> ends_in_space w = false ->
  forallb uni_isspace ws = true ->
  is_upper x = true -> is_upper y = true -> ~ In LPAREN post ->
  create_slug (w ++ ws ++ LPAREN :: x :: y :: RPAREN :: post)
  = create_slug (w ++ HYPHEN :: ascii_lower x :: ascii_lower y :: post).
Proof.
  intros Hw He Hws Hx Hy Hpost.
  rewrite !create_slug_unfold.
  rewrite paren_step_one_state_code by assumption.
  rewrite paren_step_no_lparen; [reflexivity|].
  intros Hin. apply in_app_or in Hin.
  destruct Hin as [Hin|[Hin|[Hin|[Hin|Hin]]]];
    [exact (Hw Hin)|discriminate| | |exact (Hpost Hin)].
  - apply lower_lparen in Hin.
    exact (upper_not_lparen _ Hx (eq_sym Hin)).
  - apply lower_lparen in Hin.
    exact (upper_not_lparen _ Hy (eq_sym Hin)).
Qed.

Lemma create_slug_state_code_saint_marys :
  @create_slug ascii_unicode (py "Saint Mary's (CA)")
  = @create_slug ascii_unicode (py "Saint Mary's-ca").
Proof.
  apply (create_slug_state_code ascii_unicode (py "Saint Mary's") (py " ")
           67 65 []).
  - apply not_In_b. reflexivity.
  - reflexivity.
  - reflexivity.
  - reflexivity.
  - reflexivity.
  - intros [].
Defined.

(** * get_all_teams.py: the list of active teams

    [get_all_d1_teams_from_csv] fetches the schools page, looks for the table
    with id [NCAAM_schools], reads it into rows, keeps the rows whose [To] is
    2026, gives each its slug and sorts by name.  The request is not guarded:
    an exception of [requests.get] leaves the function.  The page, its tables
    and [pd.read_html] are parameters. *)
Module Teams.

(** A row of the table that was read: the two columns the function uses. *)
Record row := { School : pystr; To : Z }.

(** A row of the result: [school_name] and [slug]. *)
Definition team : Type := pystr * pystr.

Inductive got (C E : Type) :=
| Got (content : C)
| Failed (e : E).
Arguments Got {C E} content.
Arguments Failed {C E} e.

(** The order of Python strings: code point by code point, a proper prefix
    first. *)
Fixpoint str_leb (a b : pystr) : bool :=
  match a, b with
  | [], _ => true
  | _ :: _, [] => false
  | x :: a', y :: b' =>
      if x <? y then true else if x =? y then str_leb a' b' else false
  end.

Definition by_name (r1 r2 : team) : Prop := str_leb (fst r1) (fst r2) = true.

Fixpoint insert_team (r : team) (l : list team) : list team :=
  match l with
  | [] => [r]
  | h :: t => if str_leb (fst r) (fst h) then r :: l else h :: insert_team r t
  end.

(** [sort_values('school_name')].  pandas does not promise a stable sort
    here; [sort_values_unique] below shows that for these rows every sort
    gives the same list. *)
Definition sort_values (l : list team) : list team :=
  fold_right insert_team [] l.

Section GetAll.

Context {U : UnicodeData}.
Variables Content Exn : Type.
Variable re_error : Exn.
Variable requests_get : string -> got Content Exn.
Variable find_all_tables : Content -> list Scraper.Tag.
Variable read_html : Scraper.Tag -> Scraper.outcome (list row) Exn.

(** [df_active['School'].apply(create_slug)], beside the names. *)
Fixpoint apply_create_slug (names : list pystr) : option (list team) :=
  match names with
  | [] => Some []
  | name :: rest =>
      slug <- simple_create_slug name ;;
      teams <- apply_create_slug rest ;;
      Some ((name, slug) :: teams)
  end.

Definition get_all_d1_teams_from_csv :
    Scraper.outcome (option (list team)) Exn :=
  let url := "https://www.sports-reference.com/cbb/schools/"%string in
  match requests_get url with
  | Failed e => Scraper.Raise e
  | Got content =>
      let table :=
        Scraper.find_by_id (find_all_tables content) "NCAAM_schools" in
      match table with
      | None => Scraper.Return None
      | Some t =>
          match read_html t with
          | Scraper.Raise e => Scraper.Raise e
          | Scraper.Return df =>
              let df_active := filter (fun r => (To r =? 2026)%Z) df in
              match apply_create_slug (map School df_active) with
              | None => Scraper.Raise re_error
              | Some teams_df => Scraper.Return (Some (sort_values teams_df))
              end
          end
      end
  end.

End GetAll.

(** *** The order of strings *)

Lemma str_leb_refl (a : pystr) : str_leb a a = true.
Proof.
  induction a as [|x a IH]; [reflexivity|]. cbn [str_leb].
  rewrite N.ltb_irrefl, N.eqb_refl. exact IH.
Qed.

Lemma str_leb_total (a b : pystr) : str_leb a b = true \/ str_leb b a = true.
Proof.
  revert b. induction a as [|x a IH]; intros b; [left; reflexivity|].
  destruct b as [|y b]; [right; reflexivity|]. cbn [str_leb].
  destruct (N.ltb_spec x y) as [L|L]; [left; reflexivity|].
  destruct (N.ltb_spec y x) as [L'|L']; [right; reflexivity|].
  assert (x = y) by lia. subst y. rewrite N.eqb_refl. apply IH.
Qed.

Lemma str_leb_antisym (a b : pystr) :
  str_leb a b = true -> str_leb b a = true -> a = b.
Proof.
  revert b. induction a as [|x a IH]; intros b.
  - destruct b; [reflexivity|discriminate].
  - destruct b as [|y b]; [discriminate|]. cbn [str_leb].
    destruct (N.ltb_spec x y) as [L|L].
    + destruct (N.ltb_spec y x) as [L'|L']; [lia|].
      destruct (N.eqb_spec y x); [lia|discriminate].
    + destruct (N.eqb_spec x y) as [->|]; [|discriminate].
      rewrite N.ltb_irrefl, N.eqb_refl. intros H1 H2.
      f_equal. apply IH; assumption.
Qed.

Lemma str_leb_trans (a b c : pystr) :
  str_leb a b = true -> str_leb b c = true -> str_leb a c = true.
Proof.
  revert b c. induction a as [|x a IH]; intros b c; [reflexivity|].
  destruct b as [|y b]; [discriminate|].
  destruct c as [|z c]; [intros _; discriminate|]. cbn [str_leb].
  destruct (N.ltb_spec x y) as [L|L].
  - intros _. destruct (N.ltb_spec y z) as [M|M].
    + intros _. destruct (N.ltb_spec x z); [reflexivity|lia].
    + destruct (N.eqb_spec y z) as [->|]; [|discriminate].
      intros _. destruct (N.ltb_spec x z); [reflexivity|lia].
  - destruct (N.eqb_spec x y) as [->|]; [|discriminate].
    intros H1. destruct (N.ltb_spec y z) as [M|M]; [reflexivity|].
    destruct (N.eqb_spec y z) as [->|]; [|discriminate].
    apply IH. exact H1.
Qed.

(** *** Sorting *)

Lemma insert_team_perm (r : team) (l : list team) :
  Permutation (insert_team r l) (r :: l).
Proof.
  induction l as [|h t IH]; [reflexivity|]. cbn [insert_team].
  destruct (str_leb (fst r) (fst h)); [reflexivity|].
  rewrite IH. apply perm_swap.
Qed.

Lemma sort_values_perm (l : list team) : Permutation (sort_values l) l.
Proof.
  induction l as [|r l IH]; [reflexivity|]. cbn [sort_values fold_right].
  rewrite insert_team_perm. apply perm_skip, IH.
Qed.

Lemma insert_team_sorted (r : team) (l : list team) :
  StronglySorted by_name l -> StronglySorted by_name (insert_team r l).
Proof.
  induction 1 as [|h t Ht IH Hh]; cbn [insert_team].
  - repeat constructor.
  - destruct (str_leb (fst r) (fst h)) eqn:E.
    + constructor; [constructor; assumption|].
      constructor; [exact E|].
      eapply Forall_impl; [|exact Hh]. intros x Hx.
      exact (str_leb_trans _ _ _ E Hx).
    + constructor; [exact IH|].
      eapply Permutation_Forall; [symmetry; apply insert_team_perm|].
      constructor; [|exact Hh].
      destruct (str_leb_total (fst r) (fst h)) as [T|T]; [congruence|exact T].
Qed.

Lemma sort_values_sorted (l : list team) :
  StronglySorted by_name (sort_values l).
Proof.
  induction l as [|r l IH]; [constructor|].
  cbn [sort_values fold_right]. apply insert_team_sorted, IH.
Qed.

(** Rows that are determined by their name have one sorted arrangement. *)
Lemma sorted_perm_unique (l l' : list team) :
  (forall r r', In r l -> In r' l -> fst r = fst r' -> r = r') ->
  StronglySorted by_name l -> StronglySorted by_name l' ->
  Permutation l l' -> l = l'.
Proof.
  revert l'. induction l as [|a t IH]; intros l' Hkey Hs Hs' Hp.
  - apply Permutation_nil in Hp. symmetry. exact Hp.
  - destruct l' as [|b t'].
    { symmetry in Hp. apply Permutation_nil in Hp. discriminate. }
    inversion Hs as [|? ? Hst Ha]; subst.
    inversion Hs' as [|? ? Hst' Hb]; subst.
    assert (Hba : In b (a :: t))
      by (apply (Permutation_in _ (Permutation_sym Hp)); left; reflexivity).
    assert (Hab : In a (b :: t'))
      by (apply (Permutation_in _ Hp); left; reflexivity).
    assert (E : a = b).
    { apply Hkey; [left; reflexivity|exact Hba|].
      apply str_leb_antisym.
      - destruct Hba as [<-|Hba]; [apply str_leb_refl|].
        rewrite Forall_forall in Ha. exact (Ha _ Hba).
      - destruct Hab as [<-|Hab]; [apply str_leb_refl|].
        rewrite Forall_forall in Hb. exact (Hb _ Hab). }
    subst b. f_equal. apply IH; try assumption.
    + intros r r' Hr Hr'. apply Hkey; right; assumption.
    + exact (Permutation_cons_inv Hp).
Qed.

Section GetAllFacts.

Context {U : UnicodeData}.

Lemma apply_create_slug_rows (names : list pystr) (teams : list team) :
  apply_create_slug names = Some teams ->
  map fst teams = names
  /\ forall r, In r teams -> simple_create_slug (fst r) = Some (snd r).
Proof.
  revert teams. induction names as [|name rest IH]; intros teams.
  - cbn [apply_create_slug]. intros H. injection H as <-.
    split; [reflexivity|intros r []].
  - cbn [apply_create_slug].
    destruct (simple_create_slug name) as [slug|] eqn:E; [|discriminate].
    cbn [bind].
    destruct (apply_create_slug rest) as [teams'|]; [|discriminate].
    cbn [bind]. intros H. injection H as <-.
    destruct (IH teams' eq_refl) as [IH1 IH2]. split.
    + cbn [map fst]. rewrite IH1. reflexivity.
    + intros r [<-|Hr]; [exact E|exact (IH2 r Hr)].
Qed.

End GetAllFacts.

(** X11. When [get_all_d1_teams_from_csv] returns a frame, the page was
    fetched and held a table with id [NCAAM_schools]; the frame lists exactly
    the schools of that table whose [To] is 2026, each with the slug of the
    simple rule, in the order of their names; and no other arrangement of
    these rows is sorted by name, so the result does not depend on how
    [sort_values] sorts. *)
Theorem get_all_d1_teams_sorted (U : UnicodeData) (Content Exn : Type)
    (re_error : Exn) (requests_get : string -> got Content Exn)
    (find_all_tables : Content -> list Scraper.Tag)
    (read_html : Scraper.Tag -> Scraper.outcome (list row) Exn)
    (teams_df : list team) :
  get_all_d1_teams_from_csv Content Exn re_error requests_get
    find_all_tables read_html = Scraper.Return (Some teams_df) ->
  exists content t df,
    requests_get "https://www.sports-reference.com/cbb/schools/"%string
    = Got content
    /\ Scraper.find_by_id (find_all_tables content) "NCAAM_schools" = Some t
    /\ read_html t = Scraper.Return df
    /\ Permutation (map fst teams_df)
         (map School (filter (fun r => (To r =? 2026)%Z) df))
    /\ (forall r, In r teams_df -> simple_create_slug (fst r) = Some (snd r))
    /\ StronglySorted by_name teams_df
    /\ (forall l, Permutation l teams_df -> StronglySorted by_name l ->
                  l = teams_df).
Proof.
  unfold get_all_d1_teams_from_csv.
  destruct (requests_get _) as [content|e]; [|discriminate].
  destruct (Scraper.find_by_id _ _) as [t|] eqn:Ft; [|discriminate].
  destruct (read_html t) as [df|e] eqn:R; [|discriminate].
  destruct (apply_create_slug _) as [teams|] eqn:A; [|discriminate].
  intros H. injection H as <-.
  destruct (apply_create_slug_rows _ _ A) as [Hn Hs].
  assert (Hs' : forall r, In r (sort_values teams) ->
                          simple_create_slug (fst r) = Some (snd r)).
  { intros r Hr. apply Hs. exact (Permutation_in _ (sort_values_perm _) Hr). }
  exists content, t, df.
  split; [reflexivity|]. split; [exact Ft|]. split; [exact R|].
  split; [rewrite <- Hn; apply Permutation_map, sort_values_perm|].
  split; [exact Hs'|].
  split; [apply sort_values_sorted|].
  intros l Hp Hl.
  apply sorted_perm_unique;
    [|exact Hl|apply sort_values_sorted|exact Hp].
  intros r r' Hr Hr' E.
  apply (Permutation_in _ Hp) in Hr. apply (Permutation_in _ Hp) in Hr'.
  apply Hs' in Hr. apply Hs' in Hr'. rewrite E in Hr.
  destruct r, r'. cbn [fst snd] in *. congruence.
Qed.

Definition sample_page : list Scraper.Tag :=
  [ {| Scraper.tag_id := Some "NCAAM_schools"%string;
       Scraper.tag_class := ["sortable"%string; "stats_table"%string] |} ].

Definition sample_rows : list row :=
  [ {| School := py "Duke"; To := 2026 |};
    {| School := py "Army"; To := 2026 |};
    {| School := py "Centenary (LA)"; To := 2011 |} ].

Lemma get_all_d1_teams_sorted_sample :
  exists content t df,
    (fun _ : string => @Got unit unit tt)
      "https://www.sports-reference.com/cbb/schools/"%string = Got content
    /\ Scraper.find_by_id ((fun _ : unit => sample_page) content)
         "NCAAM_schools" = Some t
    /\ (fun _ : Scraper.Tag => @Scraper.Return (list row) unit sample_rows) t
       = Scraper.Return df
    /\ Permutation (map fst [(py "Army", py "army"); (py "Duke", py "duke")])
         (map School (filter (fun r => (To r =? 2026)%Z) df))
    /\ (forall r, In r [(py "Army", py "army"); (py "Duke", py "duke")] ->
                  @simple_create_slug ascii_unicode (fst r) = Some (snd r))
    /\ StronglySorted by_name [(py "Army", py "army"); (py "Duke", py "duke")]
    /\ (forall l,
          Permutation l [(py "Army", py "army"); (py "Duke", py "duke")] ->
          StronglySorted by_name l ->
          l = [(py "Army", py "army"); (py "Duke", py "duke")]).
Proof.
  apply (get_all_d1_teams_sorted ascii_unicode unit unit tt
           (fun _ => Got tt) (fun _ => sample_page)
           (fun _ => Scraper.Return sample_rows)).
  reflexivity.
Defined.

Section GetAllReturns.

Context {U : UnicodeData}.

Lemma apply_create_slug_returns (names : list pystr) :
  exists teams,
    apply_create_slug names = Some teams /\ length teams = length names.
Proof.
  induction names as [|name rest [teams [IH L]]].
  - exists []. split; reflexivity.
  - eexists. cbn [apply_create_slug].
    rewrite simple_create_slug_unfold, IH. cbn [bind].
    split; [reflexivity|]. cbn [length]. rewrite L. reflexivity.
Qed.

End GetAllReturns.

(** X12. Once the page is fetched, [get_all_d1_teams_from_csv] returns
    [None] when no table has the id [NCAAM_schools]; when the table is found
    and read, it returns a frame with one row for each row whose [To] is
    2026: making the slugs never fails. *)
Theorem get_all_d1_teams_returns (U : UnicodeData) (Content Exn : Type)
    (re_error : Exn) (requests_get : string -> got Content Exn)
    (find_all_tables : Content -> list Scraper.Tag)
    (read_html : Scraper.Tag -> Scraper.outcome (list row) Exn)
    (content : Content) :
  requests_get "https://www.sports-reference.com/cbb/schools/"%string
  = Got content ->
  match Scraper.find_by_id (find_all_tables content) "NCAAM_schools" with
  | None =>
      get_all_d1_teams_from_csv Content Exn re_error requests_get
        find_all_tables read_html = Scraper.Return None
  | Some t =>
      forall df, read_html t = Scraper.Return df ->
      exists teams_df,
        get_all_d1_teams_from_csv Content Exn re_error requests_get
          find_all_tables read_html = Scraper.Return (Some teams_df)
        /\ length teams_df
           = length (filter (fun r => (To r =? 2026)%Z) df)
  end.
Proof.
  intros G. unfold get_all_d1_teams_from_csv. rewrite G.
  destruct (Scraper.find_by_id _ _) as [t|]; [|reflexivity].
  intros df R. rewrite R.
  destruct (apply_create_slug_returns
              (map School (filter (fun r => (To r =? 2026)%Z) df)))
    as [teams [A L]].
  rewrite A. eexists. split; [reflexivity|].
  rewrite (Permutation_length (sort_values_perm teams)), L.
  apply length_map.
Qed.

Lemma get_all_d1_teams_returns_sample :
  exists teams_df,
    @get_all_d1_teams_from_csv ascii_unicode unit unit tt
      (fun _ => Got tt) (fun _ => sample_page)
      (fun _ => Scraper.Return sample_rows)
    = Scraper.Return (Some teams_df)
    /\ length teams_df = 2%nat.
Proof.
  exact (get_all_d1_teams_returns ascii_unicode unit unit tt
           (fun _ => Got tt) (fun _ => sample_page)
           (fun _ => Scraper.Return sample_rows) tt eq_refl
           sample_rows eq_refl).
Defined.

End Teams.

(** * scraper.py: scraping several teams

    [scrape_multiple_teams] calls [scrape_team_gamelogs] once per slug and
    sleeps between two calls.  What a call returns depends on the world at
    that moment: the callee is a parameter that sees the events so far. *)
Module Batch.

Import Scraper.

Inductive event :=
| Requested (school_slug : string)
| Slept (delay : nat).

(** A Python dict: keys in the order of their first assignment, an
    assignment to a key that is present replaces its value in place. *)
Fixpoint dict_set {V} (k : string) (v : V) (d : list (string * V)) :
    list (string * V) :=
  match d with
  | [] => [(k, v)]
  | (k', v') :: t =>
      if String.eqb k' k then (k, v) :: t else (k', v') :: dict_set k v t
  end.

Fixpoint dict_get {V} (k : string) (d : list (string * V)) : option V :=
  match d with
  | [] => None
  | (k', v') :: t => if String.eqb k' k then Some v' else dict_get k t
  end.

(** A request per slug and a sleep between two of them. *)
Fixpoint polite (delay : nat) (slugs : list string) : list event :=
  match slugs with
  | [] => []
  | s :: t =>
      Requested s :: match t with
                     | [] => []
                     | _ :: _ => Slept delay :: polite delay t
                     end
  end.

(** A request per slug and a sleep after each of them. *)
Fixpoint paced (delay : nat) (slugs : list string) : list event :=
  match slugs with
  | [] => []
  | s :: t => Requested s :: Slept delay :: paced delay t
  end.

Section Many.

Variables DataFrame Exn : Type.
Variable scrape_team_gamelogs :
  list event -> string -> nat -> outcome (option DataFrame) Exn.

(** The loop of lines 166-179: [n] is [len(school_slugs)], [i] counts from
    1, [trace] lists what was done so far. *)
Fixpoint loop (n i : nat) (slugs : list string) (year delay : nat)
    (trace : list event) (all_data : list (string * DataFrame)) :
    list event * outcome (list (string * DataFrame)) Exn :=
  match slugs with
  | [] => (trace, Return all_data)
  | slug :: rest =>
      match scrape_team_gamelogs trace slug year with
      | Raise e => (trace ++ [Requested slug], Raise e)
      | Return df =>
          let trace := trace ++ [Requested slug] in
          let all_data := match df with
                          | Some d => dict_set slug d all_data
                          | None => all_data
                          end in
          let trace := if (i <? n)%nat then trace ++ [Slept delay]
                       else trace in
          loop n (S i) rest year delay trace all_data
      end
  end.

Definition scrape_multiple_teams (school_slugs : list string)
    (year delay : nat) :
    list event * outcome (list (string * DataFrame)) Exn :=
  loop (length school_slugs) 1 school_slugs year delay [] [].

(** *** The trace *)

Lemma polite_cons (delay : nat) (s : string) (t : list string) :
  polite delay (s :: t)
  = Requested s :: (if (0 <? length t)%nat then [Slept delay] else [])
    ++ polite delay t.
Proof. destruct t; reflexivity. Qed.

Lemma polite_paced (delay : nat) (done : list string) (s : string) :
  polite delay (done ++ [s]) = paced delay done ++ [Requested s].
Proof.
  induction done as [|a done IH]; [reflexivity|].
  change ((a :: done) ++ [s]) with (a :: (done ++ [s])).
  rewrite polite_cons, IH, length_app. cbn [length].
  replace (0 <? length done + 1)%nat with true
    by (symmetry; apply Nat.ltb_lt; lia).
  reflexivity.
Qed.

Lemma loop_trace (slugs : list string) :
  forall n i year delay trace all_data,
  (i + length slugs = S n)%nat ->
  match snd (loop n i slugs year delay trace all_data) with
  | Return _ =>
      fst (loop n i slugs year delay trace all_data)
      = trace ++ polite delay slugs
  | Raise e =>
      exists done s rest,
        slugs = done ++ s :: rest
        /\ fst (loop n i slugs year delay trace all_data)
           = (trace ++ paced delay done) ++ [Requested s]
        /\ scrape_team_gamelogs (trace ++ paced delay done) s year = Raise e
  end.
Proof.
  induction slugs as [|slug rest IH]; intros n i year delay trace all_data Hi.
  - cbn [loop snd fst polite]. rewrite app_nil_r. reflexivity.
  - cbn [loop].
    destruct (scrape_team_gamelogs trace slug year) as [df|e] eqn:E.
    + assert (Hlt : (i <? n)%nat = (0 <? length rest)%nat).
      { cbn [length] in Hi.
        destruct (Nat.ltb_spec i n), (Nat.ltb_spec 0 (length rest));
          try reflexivity; lia. }
      cbv zeta. rewrite Hlt.
      assert (Hi' : (S i + length rest = S n)%nat)
        by (cbn [length] in Hi; lia).
      specialize (IH n (S i) year delay
                    (if (0 <? length rest)%nat
                     then (trace ++ [Requested slug]) ++ [Slept delay]
                     else trace ++ [Requested slug])
                    match df with
                    | Some d => dict_set slug d all_data
                    | None => all_data
                    end Hi').
      destruct (snd (loop n (S i) rest year delay _ _)) as [d|e'].
      * rewrite IH, polite_cons.
        destruct (0 <? length rest)%nat; rewrite <- !app_assoc; reflexivity.
      * destruct IH as [done [s [rest' [Hr [Hf Hs]]]]].
        assert (Hne : (0 <? length rest)%nat = true).
        { rewrite Hr, length_app. cbn [length]. apply Nat.ltb_lt. lia. }
        rewrite Hne in *.
        exists (slug :: done), s, rest'.
        split; [rewrite Hr; reflexivity|].
        cbn [paced]. rewrite <- !app_assoc in *. cbn [app] in *.
        split; assumption.
    + cbn [snd fst]. exists [], slug, rest. cbn [paced app].
      rewrite app_nil_r. repeat split. exact E.
Qed.

(** *** The dict *)

Lemma dict_get_set_same {V} (k : string) (v : V) (d : list (string * V)) :
  dict_get k (dict_set k v d) = Some v.
Proof.
  induction d as [|[k' v'] t IH]; cbn [dict_set dict_get].
  - rewrite String.eqb_refl. reflexivity.
  - destruct (String.eqb k' k) eqn:E; cbn [dict_get].
    + rewrite String.eqb_refl. reflexivity.
    + rewrite E. exact IH.
Qed.

Lemma dict_get_set_other {V} (k k' : string) (v : V)
    (d : list (string * V)) :
  k <> k' -> dict_get k' (dict_set k v d) = dict_get k' d.
Proof.
  intros Hk. induction d as [|[k0 v0] t IH]; cbn [dict_set dict_get].
  - destruct (String.eqb_spec k k'); [contradiction|reflexivity].
  - destruct (String.eqb_spec k0 k) as [->|N]; cbn [dict_get].
    + destruct (String.eqb_spec k k'); [contradiction|reflexivity].
    + rewrite IH. reflexivity.
Qed.

Lemma dict_set_keys {V} (k : string) (v : V) (d : list (string * V))
    (x : string) :
  In x (map fst (dict_set k v d)) <-> x = k \/ In x (map fst d).
Proof.
  induction d as [|[k' v'] t IH]; cbn [dict_set map fst In].
  - intuition.
  - destruct (String.eqb_spec k' k) as [->|N]; cbn [map fst In].
    + intuition.
    + rewrite IH. intuition.
Qed.

Lemma dict_set_NoDup {V} (k : string) (v : V) (d : list (string * V)) :
  NoDup (map fst d) -> NoDup (map fst (dict_set k v d)).
Proof.
  induction d as [|[k' v'] t IH]; cbn [dict_set map fst]; intros H.
  - repeat constructor. intros [].
  - inversion H as [|? ? Hin Ht]; subst.
    destruct (String.eqb_spec k' k) as [->|N]; cbn [map fst].
    + constructor; assumption.
    + constructor; [|apply IH, Ht].
      rewrite dict_set_keys. intros [->|Hin']; [apply N; reflexivity|].
      exact (Hin Hin').
Qed.

Lemma loop_dict (slugs : list string) :
  forall n i year delay trace all_data d,
  snd (loop n i slugs year delay trace all_data) = Return d ->
  (NoDup (map fst all_data) -> NoDup (map fst d))
  /\ (forall k v, dict_get k d = Some v ->
        dict_get k all_data = Some v
        \/ (In k slugs
            /\ exists h, scrape_team_gamelogs h k year = Return (Some v)))
  /\ (forall k, dict_get k all_data <> None -> dict_get k d <> None)
  /\ (forall k, In k slugs ->
        (forall h, scrape_team_gamelogs h k year <> Return None) ->
        dict_get k d <> None).
Proof.
  induction slugs as [|slug rest IH];
    intros n i year delay trace all_data d.
  - cbn [loop snd]. intros H. injection H as <-.
    split; [auto|]. split; [intros k v Hk; left; exact Hk|].
    split; [auto|]. intros k [].
  - cbn [loop].
    destruct (scrape_team_gamelogs trace slug year) as [df|e] eqn:E;
      [|discriminate].
    cbv zeta. intros H. apply IH in H.
    destruct H as [H1 [H2 [H3 H4]]].
    destruct df as [v0|].
    + split; [intros Hn; apply H1, dict_set_NoDup, Hn|].
      split; [|split].
      * intros k v Hk. destruct (H2 k v Hk) as [Hd|[Hin Hh]].
        -- destruct (String.eqb_spec slug k) as [<-|N].
           ++ rewrite dict_get_set_same in Hd. injection Hd as ->.
              right. split; [left; reflexivity|]. exists trace. exact E.
           ++ rewrite dict_get_set_other in Hd by exact N. left. exact Hd.
        -- right. split; [right; exact Hin|exact Hh].
      * intros k Hk. apply H3.
        destruct (String.eqb_spec slug k) as [<-|N].
        -- rewrite dict_get_set_same. discriminate.
        -- rewrite dict_get_set_other by exact N. exact Hk.
      * intros k [<-|Hin] Hall.
        -- apply H3. rewrite dict_get_set_same. discriminate.
        -- apply H4; assumption.
    + split; [exact H1|]. split; [|split].
      * intros k v Hk. destruct (H2 k v Hk) as [Hd|[Hin Hh]].
        -- left. exact Hd.
        -- right. split; [right; exact Hin|exact Hh].
      * exact H3.
      * intros k [<-|Hin] Hall.
        -- exfalso. exact (Hall trace E).
        -- apply H4; assumption.
Qed.

End Many.

(** X13. [scrape_multiple_teams] is polite: when it returns, it has made one
    request per slug, in order, with exactly one sleep between two requests
    and none after the last.  When a call raises, the function raises at
    once: nothing is requested after the failing call. *)
Theorem scrape_multiple_teams_polite (DataFrame Exn : Type)
    (scrape_team_gamelogs :
       list event -> string -> nat -> outcome (option DataFrame) Exn)
    (school_slugs : list string) (year delay : nat) :
  match snd (scrape_multiple_teams DataFrame Exn scrape_team_gamelogs
               school_slugs year delay) with
  | Return _ =>
      fst (scrape_multiple_teams DataFrame Exn scrape_team_gamelogs
             school_slugs year delay)
      = polite delay school_slugs
  | Raise e =>
      exists done s rest,
        school_slugs = done ++ s :: rest
        /\ fst (scrape_multiple_teams DataFrame Exn scrape_team_gamelogs
                  school_slugs year delay)
           = polite delay (done ++ [s])
        /\ scrape_team_gamelogs (paced delay done) s year = Raise e
  end.
Proof.
  unfold scrape_multiple_teams.
  pose proof (loop_trace DataFrame Exn scrape_team_gamelogs school_slugs
                (length school_slugs) 1 year delay [] [] eq_refl) as H.
  destruct (snd (loop _ _ _ _ _ _ _ _ _ _)) as [d|e]; [exact H|].
  destruct H as [done [s [rest [H1 [H2 H3]]]]].
  exists done, s, rest. rewrite polite_paced. cbn [app] in H2, H3.
  repeat split; assumption.
Qed.

(** X14. The dict that [scrape_multiple_teams] returns has one entry per
    key; every entry belongs to a slug of the list and holds a frame that a
    call for that slug returned; and a slug whose calls never return [None]
    is a key of the dict. *)
Theorem scrape_multiple_teams_dict (DataFrame Exn : Type)
    (scrape_team_gamelogs :
       list event -> string -> nat -> outcome (option DataFrame) Exn)
    (school_slugs : list string) (year delay : nat)
    (all_data : list (string * DataFrame)) :
  snd (scrape_multiple_teams DataFrame Exn scrape_team_gamelogs
         school_slugs year delay) = Return all_data ->
  NoDup (map fst all_data)
  /\ (forall k v, dict_get k all_data = Some v ->
        In k school_slugs
        /\ exists h, scrape_team_gamelogs h k year = Return (Some v))
  /\ (forall k, In k school_slugs ->
        (forall h, scrape_team_gamelogs h k year <> Return None) ->
        dict_get k all_data <> None).
Proof.
  unfold scrape_multiple_teams. intros H.
  apply loop_dict in H. destruct H as [H1 [H2 [_ H4]]].
  split; [apply H1; constructor|]. split; [|exact H4].
  intros k v Hk. destruct (H2 k v Hk) as [Hd|Hd]; [discriminate|exact Hd].
Qed.

Lemma scrape_multiple_teams_dict_sample :
  NoDup (map fst [("duke"%string, 7%nat)])
  /\ (forall k v, dict_get k [("duke"%string, 7%nat)] = Some v ->
        In k ["duke"%string; "nowhere"%string; "duke"%string]
        /\ exists h,
             (fun (_ : list event) (s : string) (_ : nat) =>
                if String.eqb s "duke"
                then @Return (option nat) unit (Some 7%nat)
                else Return None) h k 2026%nat = Return (Some v))
  /\ (forall k, In k ["duke"%string; "nowhere"%string; "duke"%string] ->
        (forall h,
           (fun (_ : list event) (s : string) (_ : nat) =>
              if String.eqb s "duke"
              then @Return (option nat) unit (Some 7%nat)
              else Return None) h k 2026%nat <> Return None) ->
        dict_get k [("duke"%string, 7%nat)] <> None).
Proof.
  apply (scrape_multiple_teams_dict nat unit
           (fun _ s _ => if String.eqb s "duke" then Return (Some 7%nat)
                         else Return None)
           ["duke"%string; "nowhere"%string; "duke"%string] 2026 2).
  reflexivity.
Defined.

End Batch.

(** * scraper.py: which table is used, and what becomes of it *)
Module GameLog.

Import Scraper.
Local Open Scope string_scope.

(** Lines 82-95 as one lookup. *)
Definition selected_table (tables : list Tag) : option Tag :=
  match id_loop tables possible_ids None with
  | None => find_by_class tables "stats_table"
  | Some t => Some t
  end.

(** [t] is the table that lines 82-95 select among [tables]: the first
    table with the earliest id of [possible_ids] that occurs on the page,
    or, when no table has one of these ids, the first table of class
    [stats_table]. *)
Definition chosen (tables : list Tag) (t : Tag) : Prop :=
  (exists before i after pre post,
     possible_ids = (before ++ i :: after)%list
     /\ tag_id t = Some i
     /\ tables = (pre ++ t :: post)%list
     /\ (forall u, In u pre -> tag_id u <> Some i)
     /\ (forall j u, In j before -> In u tables -> tag_id u <> Some j))
  \/ ((forall u, In u tables -> ~ has_known_id u)
      /\ has_stats_class t
      /\ exists pre post,
           tables = (pre ++ t :: post)%list
           /\ forall u, In u pre -> ~ has_stats_class u).

(** A row of the table: its classes and its cells, a cell being a [th]
    ([true]) or a [td] with its stripped text. *)
Record tr := { tr_class : list string; tr_cells : list (bool * string) }.

(** [[th.get_text(strip=True) for th in row.find_all('th')]] *)
Definition header_texts (r : tr) : list string :=
  map snd (filter fst (tr_cells r)).

(** [[cell.get_text(strip=True) for cell in row.find_all(['th', 'td'])]] *)
Definition row_texts (r : tr) : list string := map snd (tr_cells r).

(** Lines 112-124. *)
Fixpoint game_rows (rows : list tr) : list (list string) :=
  match rows with
  | [] => []
  | row :: rest =>
      if existsb (String.eqb "thead") (tr_class row) then game_rows rest
      else
        let row_data := row_texts row in
        match row_data with
        | first :: _ =>
            if String.eqb first "" then game_rows rest
            else row_data :: game_rows rest
        | [] => game_rows rest
        end
  end.

(** A body row that line 124 appends: not a section header, and with a
    first cell that is not empty. *)
Definition is_game (row : tr) : bool :=
  negb (existsb (String.eqb "thead") (tr_class row))
  && match row_texts row with
     | first :: _ => negb (String.eqb first "")
     | [] => false
     end.

Section Steps.

Variables Content DataFrame Exn : Type.
Variable show_year : nat -> string.
Variable requests_get : string -> fetched Content Exn.
Variable find_all_tables : Content -> list Tag.
(** What [None.find_all] and [[][-1]] raise. *)
Variables attribute_error index_error : Exn.
(** [table.find('thead')] and [table.find('tbody')], with their rows. *)
Variable thead_rows : Tag -> option (list tr).
Variable tbody_rows : Tag -> option (list tr).
(** Steps 7-9: the frame, its three added columns, the CSV file. *)
Variable make_frame :
  list (list string) -> list string -> string -> nat -> string ->
  outcome DataFrame Exn.

(** Steps 5-9 of [scrape_team_gamelogs]. *)
Definition extract_and_save (table : Tag) (school_slug : string)
    (year : nat) (save_path : string) : outcome DataFrame Exn :=
  match thead_rows table with
  | None => Raise attribute_error
  | Some head =>
      match rev head with
      | [] => Raise index_error
      | headers_row :: _ =>
          let headers := header_texts headers_row in
          match tbody_rows table with
          | None => Raise attribute_error
          | Some rows =>
              let game_data := game_rows rows in
              make_frame game_data headers school_slug year save_path
          end
      end
  end.

(** Lines 23-142: the lookups of [Scraper] followed by steps 5-9. *)
Definition scrape_team_gamelogs (school_slug : string) (year : nat)
    (save_path : string) : outcome (option DataFrame) Exn :=
  Scraper.scrape_team_gamelogs Content DataFrame Exn show_year requests_get
    find_all_tables extract_and_save school_slug year save_path.

(** *** Lookups *)

Lemma find_first {A} (f : A -> bool) (l : list A) (x : A) :
  find f l = Some x ->
  exists pre post,
    l = (pre ++ x :: post)%list /\ f x = true
    /\ forall u, In u pre -> f u = false.
Proof.
  induction l as [|a l IH]; [discriminate|]. cbn [find].
  destruct (f a) eqn:E.
  - intros H. injection H as <-. exists [], l.
    split; [reflexivity|]. split; [exact E|intros u []].
  - intros H. destruct (IH H) as [pre [post [-> [Hx Hpre]]]].
    exists (a :: pre), post. split; [reflexivity|]. split; [exact Hx|].
    intros u [<-|Hu]; [exact E|exact (Hpre u Hu)].
Qed.

Lemma id_matches (i : string) (u : Tag) :
  match tag_id u with
  | Some j => String.eqb j i
  | None => false
  end = false -> tag_id u <> Some i.
Proof.
  intros H E. rewrite E, String.eqb_refl in H. discriminate.
Qed.

Lemma find_by_id_first (tables : list Tag) (i : string) (t : Tag) :
  find_by_id tables i = Some t ->
  tag_id t = Some i
  /\ exists pre post,
       tables = (pre ++ t :: post)%list
       /\ forall u, In u pre -> tag_id u <> Some i.
Proof.
  intros H. split; [exact (proj2 (find_by_id_some _ _ _ H))|].
  unfold find_by_id in H. apply find_first in H.
  destruct H as [pre [post [E [_ Hpre]]]]. exists pre, post.
  split; [exact E|]. intros u Hu. apply id_matches, Hpre, Hu.
Qed.

Lemma find_by_id_absent (tables : list Tag) (i : string) :
  find_by_id tables i = None ->
  forall u, In u tables -> tag_id u <> Some i.
Proof.
  unfold find_by_id. intros H u Hu.
  apply id_matches. exact (find_none _ _ H u Hu).
Qed.

Lemma id_loop_first (tables : list Tag) (ids : list string) (t : Tag) :
  id_loop tables ids None = Some t ->
  exists before i after,
    ids = (before ++ i :: after)%list
    /\ find_by_id tables i = Some t
    /\ forall j, In j before -> find_by_id tables j = None.
Proof.
  induction ids as [|i rest IH]; [discriminate|]. cbn [id_loop].
  destruct (find_by_id tables i) as [u|] eqn:E.
  - intros H. injection H as ->. exists [], i, rest.
    split; [reflexivity|]. split; [exact E|intros j []].
  - intros H. destruct (IH H) as [before [j [after [-> [Hj Hb]]]]].
    exists (i :: before), j, after. split; [reflexivity|].
    split; [exact Hj|]. intros k [<-|Hk]; [exact E|exact (Hb k Hk)].
Qed.

Lemma id_loop_absent (tables : list Tag) (ids : list string) :
  id_loop tables ids None = None ->
  forall i, In i ids -> find_by_id tables i = None.
Proof.
  induction ids as [|i rest IH]; [intros _ j []|]. cbn [id_loop].
  destruct (find_by_id tables i) as [u|] eqn:E; [discriminate|].
  intros H j [<-|Hj]; [exact E|exact (IH H j Hj)].
Qed.

Lemma no_known_id (tables : list Tag) :
  id_loop tables possible_ids None = None ->
  forall u, In u tables -> ~ has_known_id u.
Proof.
  intros H u Hu [i [Hi Hin]].
  exact (find_by_id_absent _ _ (id_loop_absent _ _ H i Hin) u Hu Hi).
Qed.

Lemma find_by_class_first (tables : list Tag) (t : Tag) :
  find_by_class tables "stats_table" = Some t ->
  has_stats_class t
  /\ exists pre post,
       tables = (pre ++ t :: post)%list
       /\ forall u, In u pre -> ~ has_stats_class u.
Proof.
  intros H. split; [exact (proj2 (find_by_class_some _ _ H))|].
  unfold find_by_class in H. apply find_first in H.
  destruct H as [pre [post [E [_ Hpre]]]]. exists pre, post.
  split; [exact E|]. intros u Hu Hc. specialize (Hpre u Hu).
  assert (X : existsb (String.eqb "stats_table") (tag_class u) = true).
  { apply existsb_exists. exists "stats_table".
    split; [exact Hc|apply String.eqb_refl]. }
  congruence.
Qed.

Lemma find_by_class_absent (tables : list Tag) :
  find_by_class tables "stats_table" = None ->
  forall u, In u tables -> ~ has_stats_class u.
Proof.
  unfold find_by_class. intros H u Hu Hc.
  pose proof (find_none _ _ H u Hu) as F.
  assert (X : existsb (String.eqb "stats_table") (tag_class u) = true).
  { apply existsb_exists. exists "stats_table".
    split; [exact Hc|apply String.eqb_refl]. }
  congruence.
Qed.

Lemma selected_table_chosen (tables : list Tag) (t : Tag) :
  selected_table tables = Some t -> chosen tables t.
Proof.
  unfold selected_table.
  destruct (id_loop tables possible_ids None) as [u|] eqn:L.
  - intros H. injection H as ->. left.
    destruct (id_loop_first _ _ _ L) as [before [i [after [E [F B]]]]].
    destruct (find_by_id_first _ _ _ F) as [Hi [pre [post [Et Hpre]]]].
    exists before, i, after, pre, post.
    repeat (split; [assumption|]).
    intros j u Hj Hu. exact (find_by_id_absent _ _ (B j Hj) u Hu).
  - intros H. right. split; [exact (no_known_id _ L)|].
    exact (find_by_class_first _ _ H).
Qed.

Lemma scrape_team_gamelogs_unfold (school_slug : string) (year : nat)
    (save_path : string) :
  scrape_team_gamelogs school_slug year save_path
  = match requests_get (gamelog_url show_year school_slug year) with
    | RequestException => Return None
    | OtherException e => Raise e
    | Response content =>
        match selected_table (find_all_tables content) with
        | None => Return None
        | Some t =>
            match extract_and_save t school_slug year save_path with
            | Return df => Return (Some df)
            | Raise e => Raise e
            end
        end
    end.
Proof.
  unfold scrape_team_gamelogs, Scraper.scrape_team_gamelogs, gamelog_url,
    selected_table.
  destruct (requests_get _) as [content| |e]; try reflexivity.
  cbv zeta.
  destruct (id_loop (find_all_tables content) possible_ids None);
    reflexivity.
Qed.

Lemma find_app_first {A} (f : A -> bool) (pre post : list A) (x : A) :
  (forall u, In u pre -> f u = false) -> f x = true ->
  find f (pre ++ x :: post) = Some x.
Proof.
  intros Hpre Hx. induction pre as [|a pre IH]; cbn [app find].
  - rewrite Hx. reflexivity.
  - rewrite (Hpre a (or_introl eq_refl)).
    apply IH. intros u Hu. apply Hpre. right. exact Hu.
Qed.

Lemma id_differs (i : string) (u : Tag) :
  tag_id u <> Some i ->
  match tag_id u with
  | Some j => String.eqb j i
  | None => false
  end = false.
Proof.
  intros H. destruct (tag_id u) as [j|]; [|reflexivity].
  destruct (String.eqb j i) eqn:E; [|reflexivity].
  apply String.eqb_eq in E. subst j. exfalso. apply H. reflexivity.
Qed.

Lemma find_by_id_here (pre post : list Tag) (t : Tag) (i : string) :
  tag_id t = Some i -> (forall u, In u pre -> tag_id u <> Some i) ->
  find_by_id (pre ++ t :: post) i = Some t.
Proof.
  intros Ht Hpre. unfold find_by_id. apply find_app_first.
  - intros u Hu. apply id_differs, Hpre, Hu.
  - rewrite Ht. apply String.eqb_refl.
Qed.

Lemma find_by_id_nowhere (tables : list Tag) (i : string) :
  (forall u, In u tables -> tag_id u <> Some i) ->
  find_by_id tables i = None.
Proof.
  intros H. destruct (find_by_id tables i) as [t|] eqn:E; [|reflexivity].
  apply find_by_id_some in E. destruct E as [Hin Hid].
  exfalso. exact (H t Hin Hid).
Qed.

Lemma id_loop_app (tables : list Tag) (before rest : list string) :
  (forall j, In j before -> find_by_id tables j = None) ->
  id_loop tables (before ++ rest) None = id_loop tables rest None.
Proof.
  intros H. induction before as [|j before IH]; [reflexivity|].
  cbn [app id_loop]. rewrite (H j (or_introl eq_refl)).
  apply IH. intros k Hk. apply H. right. exact Hk.
Qed.

Lemma stats_class_found (u : Tag) :
  existsb (String.eqb "stats_table") (tag_class u) = true <->
  has_stats_class u.
Proof.
  unfold has_stats_class. rewrite existsb_exists. split.
  - intros [c [Hc E]]. apply String.eqb_eq in E. subst c. exact Hc.
  - intros H. exists "stats_table". split; [exact H|apply String.eqb_refl].
Qed.

Lemma chosen_selected_table (tables : list Tag) (t : Tag) :
  chosen tables t -> selected_table tables = Some t.
Proof.
  unfold selected_table.
  intros [[before [i [after [pre [post [E [Hi [Et [Hpre Hb]]]]]]]]]
         |[Hno [Hc [pre [post [Et Hpre]]]]]].
  - rewrite E, id_loop_app.
    + cbn [id_loop]. rewrite Et, (find_by_id_here pre post t i Hi Hpre).
      reflexivity.
    + intros j Hj. apply find_by_id_nowhere. intros u Hu. exact (Hb j u Hj Hu).
  - rewrite (id_loop_none tables possible_ids (incl_refl _) Hno).
    unfold find_by_class. rewrite Et. apply find_app_first.
    + intros u Hu.
      destruct (existsb (String.eqb "stats_table") (tag_class u)) eqn:X;
        [|reflexivity].
      apply stats_class_found in X. exfalso. exact (Hpre u Hu X).
    + apply stats_class_found. exact Hc.
Qed.

Lemma game_rows_filter (rows : list tr) :
  game_rows rows = map row_texts (filter is_game rows).
Proof.
  induction rows as [|row rest IH]; [reflexivity|].
  cbn [game_rows filter]. unfold is_game at 1.
  destruct (existsb (String.eqb "thead") (tr_class row)); cbn [negb andb].
  - exact IH.
  - destruct (row_texts row) as [|first cells] eqn:E; [exact IH|].
    destruct (String.eqb first ""); cbn [negb].
    + exact IH.
    + cbn [map]. rewrite E, IH. reflexivity.
Qed.

Lemma scrape_team_gamelogs_chosen (school_slug : string) (year : nat)
    (save_path : string) (content : Content) (t : Tag) :
  requests_get (gamelog_url show_year school_slug year) = Response content ->
  chosen (find_all_tables content) t ->
  scrape_team_gamelogs school_slug year save_path
  = match extract_and_save t school_slug year save_path with
    | Return df => Return (Some df)
    | Raise e => Raise e
    end.
Proof.
  intros R C. rewrite scrape_team_gamelogs_unfold, R.
  rewrite (chosen_selected_table _ _ C). reflexivity.
Qed.

(** X15. [scrape_team_gamelogs] returns [None] for two reasons only: the
    request failed with a [RequestException], or the page was fetched and
    none of its tables has one of the four ids or the class [stats_table].
    A table that was found never leads to [None]. *)
Theorem scrape_team_gamelogs_none_only (school_slug : string) (year : nat)
    (save_path : string) :
  scrape_team_gamelogs school_slug year save_path = Return None ->
  requests_get (gamelog_url show_year school_slug year) = RequestException
  \/ exists content,
       requests_get (gamelog_url show_year school_slug year)
       = Response content
       /\ forall t, In t (find_all_tables content) ->
                    ~ has_known_id t /\ ~ has_stats_class t.
Proof.
  rewrite scrape_team_gamelogs_unfold.
  destruct (requests_get _) as [content| |e]; [|left; reflexivity|discriminate].
  unfold selected_table.
  destruct (id_loop (find_all_tables content) possible_ids None)
    as [t|] eqn:L.
  - destruct (extract_and_save t school_slug year save_path); discriminate.
  - destruct (find_by_class (find_all_tables content) "stats_table")
      as [t|] eqn:F.
    + destruct (extract_and_save t school_slug year save_path); discriminate.
    + intros _. right. exists content. split; [reflexivity|].
      intros t Ht. split.
      * exact (no_known_id _ L t Ht).
      * exact (find_by_class_absent _ F t Ht).
Qed.

(** X16. The table that is read is found by id before class and in the
    order of [possible_ids]: when the page is fetched, the result is that of
    steps 5-9 on the first table carrying the earliest of the four ids that
    occurs on the page, or, when no table has one of the ids, on the first
    table of class [stats_table]; the position of the tables on the page
    matters only among tables with that same id or class. *)
Theorem scrape_team_gamelogs_table_priority (school_slug : string)
    (year : nat) (save_path : string) (content : Content) (t : Tag) :
  requests_get (gamelog_url show_year school_slug year) = Response content ->
  chosen (find_all_tables content) t ->
  scrape_team_gamelogs school_slug year save_path
  = match extract_and_save t school_slug year save_path with
    | Return df => Return (Some df)
    | Raise e => Raise e
    end
  /\ forall u, chosen (find_all_tables content) u -> u = t.
Proof.
  intros R C. split; [exact (scrape_team_gamelogs_chosen _ _ _ _ _ R C)|].
  intros u Cu. apply chosen_selected_table in C, Cu. congruence.
Qed.

(** X17. A selected table that is not laid out as expected makes
    [scrape_team_gamelogs] raise, not return [None]: without a [thead], or
    with a [thead] that has rows but without a [tbody], the call raises the
    [AttributeError] of [None.find_all]; with a [thead] that has no row it
    raises the [IndexError] of [[][-1]]. *)
Theorem scrape_team_gamelogs_malformed (school_slug : string) (year : nat)
    (save_path : string) (content : Content) (t : Tag) :
  requests_get (gamelog_url show_year school_slug year) = Response content ->
  chosen (find_all_tables content) t ->
  (thead_rows t = None ->
   scrape_team_gamelogs school_slug year save_path = Raise attribute_error)
  /\ (thead_rows t = Some [] ->
      scrape_team_gamelogs school_slug year save_path = Raise index_error)
  /\ (forall head, thead_rows t = Some head -> head <> [] ->
      tbody_rows t = None ->
      scrape_team_gamelogs school_slug year save_path
      = Raise attribute_error).
Proof.
  intros R C. rewrite (scrape_team_gamelogs_chosen _ _ _ _ _ R C).
  unfold extract_and_save. split; [|split].
  - intros ->. reflexivity.
  - intros ->. reflexivity.
  - intros head -> Hne ->.
    destruct (rev head) as [|r l] eqn:E; [|reflexivity].
    exfalso. apply Hne. apply (f_equal (@rev tr)) in E.
    rewrite rev_involutive in E. exact E.
Qed.

(** X18. For a selected table with a [thead] and a [tbody], the frame is
    built with the header cells ([th]) of the last row of the [thead] as
    column names and, in page order, the cell texts of exactly those body
    rows that are not of class [thead] and whose first cell is not empty;
    the result is the frame that steps 7-9 give, or their exception. *)
Theorem scrape_team_gamelogs_frame (school_slug : string) (year : nat)
    (save_path : string) (content : Content) (t : Tag)
    (head : list tr) (headers_row : tr) (rows : list tr) :
  requests_get (gamelog_url show_year school_slug year) = Response content ->
  chosen (find_all_tables content) t ->
  thead_rows t = Some (head ++ [headers_row])%list ->
  tbody_rows t = Some rows ->
  scrape_team_gamelogs school_slug year save_path
  = match make_frame (map row_texts (filter is_game rows))
            (header_texts headers_row) school_slug year save_path with
    | Return df => Return (Some df)
    | Raise e => Raise e
    end.
Proof.
  intros R C Hh Hb. rewrite (scrape_team_gamelogs_chosen _ _ _ _ _ R C).
  unfold extract_and_save. rewrite Hh, Hb, rev_app_distr. cbn [rev app].
  rewrite game_rows_filter. reflexivity.
Qed.

End Steps.

(** X19. The rows handed to [pd.DataFrame] all have a first cell that is
    not empty; section-header rows, rows without cells and rows with an empty
    first cell are dropped wherever they stand in the body, and every other
    row is kept in its place. *)
Theorem game_rows_kept (a b : list tr) (row : tr) :
  Forall (fun row_data => exists first cells,
            row_data = first :: cells /\ first <> "")
         (game_rows (a ++ row :: b))
  /\ game_rows (a ++ row :: b)
     = (game_rows a
        ++ (if is_game row then [row_texts row] else [])
        ++ game_rows b)%list
  /\ (In "thead" (tr_class row) \/ tr_cells row = []
      \/ (exists cells, tr_cells row = (true, "") :: cells)
      \/ (exists cells, tr_cells row = (false, "") :: cells) ->
      is_game row = false)
  /\ (~ In "thead" (tr_class row) ->
      forall th first cells,
        tr_cells row = (th, first) :: cells -> first <> "" ->
        is_game row = true).
Proof.
  split; [|split; [|split]].
  - rewrite game_rows_filter. apply Forall_forall. intros d Hd.
    apply in_map_iff in Hd. destruct Hd as [r [<- Hr]].
    apply filter_In in Hr. destruct Hr as [_ Hg]. unfold is_game in Hg.
    apply andb_true_iff in Hg. destruct Hg as [_ Hg].
    destruct (row_texts r) as [|first cells]; [discriminate|].
    exists first, cells. split; [reflexivity|].
    intros ->. discriminate.
  - rewrite !game_rows_filter, filter_app, map_app. cbn [filter].
    destruct (is_game row); reflexivity.
  - unfold is_game, row_texts.
    intros [H|[H|[[cells H]|[cells H]]]].
    + assert (X : existsb (String.eqb "thead") (tr_class row) = true).
      { apply existsb_exists. exists "thead".
        split; [exact H|apply String.eqb_refl]. }
      rewrite X. reflexivity.
    + rewrite H. apply andb_false_r.
    + rewrite H. apply andb_false_r.
    + rewrite H. apply andb_false_r.
  - intros Hno th first cells H Hne. unfold is_game, row_texts.
    rewrite H. cbn [map snd].
    destruct (existsb (String.eqb "thead") (tr_class row)) eqn:X.
    + exfalso. apply Hno. apply existsb_exists in X.
      destruct X as [c [Hc E]]. apply String.eqb_eq in E. subst c. exact Hc.
    + destruct (String.eqb first "") eqn:E; [|reflexivity].
      apply String.eqb_eq in E. contradiction.
Qed.

(** *** A page with three tables *)

(** The game log is the third table of the page; the first has the class
    only, the second the last of the four ids. *)
Definition sample_table : Tag :=
  {| tag_id := Some "sgl-basic"; tag_class := ["stats_table"] |}.

Definition sample_tables : list Tag :=
  [ {| tag_id := None; tag_class := ["stats_table"] |};
    {| tag_id := Some "schedule"; tag_class := [] |};
    sample_table ].

Definition sample_head : list tr :=
  [ {| tr_class := ["over_header"];
       tr_cells := [(true, ""); (true, "Score")] |};
    {| tr_class := [];
       tr_cells := [(true, "Rk"); (true, "Opp"); (true, "Tm")] |} ].

Definition sample_body : list tr :=
  [ {| tr_class := [];
       tr_cells := [(true, "1"); (false, "Duke"); (false, "70")] |};
    {| tr_class := ["thead"];
       tr_cells := [(true, "Rk"); (true, "Opp"); (true, "Tm")] |};
    {| tr_class := [];
       tr_cells := [(true, ""); (false, "Kansas"); (false, "")] |};
    {| tr_class := [];
       tr_cells := [(true, "2"); (false, "Iowa"); (false, "81")] |} ].

(** A frame as its column names and its rows. *)
Definition sample_frame : Type := list string * list (list string).

Definition sample_make_frame (game_data : list (list string))
    (headers : list string) (school_slug : string) (year : nat)
    (save_path : string) : outcome sample_frame string :=
  Return (headers, game_data).

Definition sample_scrape (page : fetched (list Tag) string)
    (thead tbody : option (list tr)) : outcome (option sample_frame) string :=
  scrape_team_gamelogs (list Tag) sample_frame string (fun _ => "2026")
    (fun _ => page) (fun content => content)
    "AttributeError" "IndexError" (fun _ => thead) (fun _ => tbody)
    sample_make_frame "iowa-state" 2026 "data/basketball/raw".

Lemma sample_table_chosen : chosen sample_tables sample_table.
Proof.
  left.
  exists [], "sgl-basic", ["gamelog"; "games"; "schedule"],
    [ {| tag_id := None; tag_class := ["stats_table"] |};
      {| tag_id := Some "schedule"; tag_class := [] |} ], [].
  split; [reflexivity|]. split; [reflexivity|]. split; [reflexivity|].
  split.
  - intros u [<-|[<-|[]]]; discriminate.
  - intros j u [].
Qed.

Lemma scrape_team_gamelogs_none_only_no_table :
  (fun _ : string =>
     @Response (list Tag) string
       [ {| tag_id := Some "stats"; tag_class := ["sortable"] |} ])
    (gamelog_url (fun _ => "2026") "iowa-state" 2026)
  = RequestException
  \/ exists content,
       (fun _ : string =>
          @Response (list Tag) string
            [ {| tag_id := Some "stats"; tag_class := ["sortable"] |} ])
         (gamelog_url (fun _ => "2026") "iowa-state" 2026)
       = Response content
       /\ forall t, In t ((fun c : list Tag => c) content) ->
                    ~ has_known_id t /\ ~ has_stats_class t.
Proof.
  apply (scrape_team_gamelogs_none_only (list Tag) sample_frame string
           (fun _ => "2026")
           (fun _ => Response
              [ {| tag_id := Some "stats"; tag_class := ["sortable"] |} ])
           (fun c => c) "AttributeError" "IndexError"
           (fun _ => Some sample_head) (fun _ => Some sample_body)
           sample_make_frame "iowa-state" 2026 "data/basketball/raw").
  reflexivity.
Defined.

Lemma scrape_team_gamelogs_table_priority_third :
  sample_scrape (Response sample_tables) (Some sample_head)
    (Some sample_body)
  = match extract_and_save sample_frame string "AttributeError"
            "IndexError" (fun _ => Some sample_head)
            (fun _ => Some sample_body) sample_make_frame sample_table
            "iowa-state" 2026 "data/basketball/raw" with
    | Return df => Return (Some df)
    | Raise e => Raise e
    end
  /\ forall u, chosen sample_tables u -> u = sample_table.
Proof.
  apply (scrape_team_gamelogs_table_priority (list Tag) sample_frame string
           (fun _ => "2026") (fun _ => Response sample_tables)
           (fun content => content) "AttributeError" "IndexError"
           (fun _ => Some sample_head) (fun _ => Some sample_body)
           sample_make_frame "iowa-state" 2026 "data/basketball/raw"
           sample_tables sample_table eq_refl sample_table_chosen).
Defined.

Lemma scrape_team_gamelogs_malformed_no_tbody :
  sample_scrape (Response sample_tables) None (Some sample_body)
  = Raise "AttributeError"
  /\ sample_scrape (Response sample_tables) (Some []) (Some sample_body)
     = Raise "IndexError"
  /\ sample_scrape (Response sample_tables) (Some sample_head) None
     = Raise "AttributeError".
Proof.
  split; [|split].
  - apply (proj1 (scrape_team_gamelogs_malformed (list Tag) sample_frame
                    string (fun _ => "2026")
                    (fun _ => Response sample_tables)
                    (fun content => content) "AttributeError" "IndexError"
                    (fun _ => None) (fun _ => Some sample_body)
                    sample_make_frame "iowa-state" 2026
                    "data/basketball/raw" sample_tables sample_table
                    eq_refl sample_table_chosen)).
    reflexivity.
  - apply (proj1 (proj2 (scrape_team_gamelogs_malformed (list Tag)
                    sample_frame string (fun _ => "2026")
                    (fun _ => Response sample_tables)
                    (fun content => content) "AttributeError" "IndexError"
                    (fun _ => Some []) (fun _ => Some sample_body)
                    sample_make_frame "iowa-state" 2026
                    "data/basketball/raw" sample_tables sample_table
                    eq_refl sample_table_chosen))).
    reflexivity.
  - apply (proj2 (proj2 (scrape_team_gamelogs_malformed (list Tag)
                    sample_frame string (fun _ => "2026")
                    (fun _ => Response sample_tables)
                    (fun content => content) "AttributeError" "IndexError"
                    (fun _ => Some sample_head) (fun _ => None)
                    sample_make_frame "iowa-state" 2026
                    "data/basketball/raw" sample_tables sample_table
                    eq_refl sample_table_chosen)) sample_head eq_refl).
    + discriminate.
    + reflexivity.
Defined.

Lemma scrape_team_gamelogs_frame_two_games :
  sample_scrape (Response sample_tables) (Some sample_head)
    (Some sample_body)
  = Return (Some (["Rk"; "Opp"; "Tm"],
                  [["1"; "Duke"; "70"]; ["2"; "Iowa"; "81"]])).
Proof.
  etransitivity.
  - apply (scrape_team_gamelogs_frame (list Tag) sample_frame string
             (fun _ => "2026") (fun _ => Response sample_tables)
             (fun content => content) "AttributeError" "IndexError"
             (fun _ => Some sample_head) (fun _ => Some sample_body)
             sample_make_frame "iowa-state" 2026 "data/basketball/raw"
             sample_tables sample_table
             [ {| tr_class := ["over_header"];
                  tr_cells := [(true, ""); (true, "Score")] |} ]
             {| tr_class := [];
                tr_cells := [(true, "Rk"); (true, "Opp"); (true, "Tm")] |}
             sample_body eq_refl sample_table_chosen eq_refl eq_refl).
  - reflexivity.
Defined.

End GameLog.
